(** * The Janet back end of pegen: a shallow embedding

    This development embeds [pegen/janet_generator.py] and [pegen/build.py]
    and proves properties of the text they emit.

    Python objects become records and inductive types, the generator's
    mutable attributes become one state record threaded through a state and
    exception monad, Python exceptions become the [Raise] result. *)

From Stdlib Require Import Strings.String Strings.Ascii Arith Lia List Sorting.Sorted.
From stdpp Require Import base option list gmap sets strings pretty sorting.

Local Open Scope string_scope.
Local Open Scope list_scope.

(** ** Python strings

    A Python [str] is modelled by [string], one [ascii] per code point (the
    code points below 256). *)

Module PyStr.

Definition dquote : string := String (ascii_of_nat 34) EmptyString.
Definition backslash : string := String (ascii_of_nat 92) EmptyString.
Definition backtick : string := String (ascii_of_nat 96) EmptyString.
Definition newline : ascii := ascii_of_nat 10.

(** [s.startswith(p)] *)
Definition startswith (s p : string) : bool := String.prefix p s.

(** [s.endswith(suf)] *)
Fixpoint endswith (s suf : string) : bool :=
  if String.eqb s suf then true
  else match s with
       | EmptyString => false
       | String _ s' => endswith s' suf
       end.

(** [p in s] for a substring [p] *)
Fixpoint contains (p s : string) : bool :=
  if String.prefix p s then true
  else match s with
       | EmptyString => false
       | String _ s' => contains p s'
       end.

(** [s.count(c)] for a one-character [c] *)
Fixpoint count (c : ascii) (s : string) : nat :=
  match s with
  | EmptyString => 0
  | String d s' => (if Ascii.eqb c d then 1 else 0) + count c s'
  end.

(** [c * n] for a one-character string *)
Fixpoint repeat (c : string) (n : nat) : string :=
  match n with
  | 0 => EmptyString
  | S n' => c +:+ repeat c n'
  end.

(** [sep.join(l)] *)
Fixpoint join (sep : string) (l : list string) : string :=
  match l with
  | [] => EmptyString
  | [x] => x
  | x :: l' => x +:+ sep +:+ join sep l'
  end.

(** [s.replace(old, new)] for a non-empty [old]: the occurrences are replaced
    from the left and do not overlap; [skip] counts the characters of a
    replaced occurrence that are still to be dropped. *)
Fixpoint replace_from (old new : string) (skip : nat) (s : string) : string :=
  match s with
  | EmptyString => EmptyString
  | String c s' =>
      match skip with
      | S k => replace_from old new k s'
      | 0 =>
          if String.prefix old s
          then new +:+ replace_from old new (String.length old - 1) s'
          else String c (replace_from old new 0 s')
      end
  end.

Definition replace (s old new : string) : string := replace_from old new 0 s.

(** [s.rstrip("\n")] *)
Fixpoint rstrip_newline (s : string) : string :=
  match s with
  | EmptyString => EmptyString
  | String c s' =>
      match rstrip_newline s' with
      | EmptyString => if Ascii.eqb c newline then EmptyString else String c EmptyString
      | r => String c r
      end
  end.

Definition forallb (p : ascii -> bool) (s : string) : bool :=
  List.forallb p (list_ascii_of_string s).

(** [s.isascii()] *)
Definition isascii (s : string) : bool :=
  forallb (fun c => (nat_of_ascii c <? 128)%nat) s.

(** [s.isprintable()], on a string that [isascii]: the printable ASCII
    characters are those from the space to the tilde. *)
Definition isprintable (s : string) : bool :=
  forallb (fun c => ((32 <=? nat_of_ascii c) && (nat_of_ascii c <=? 126))%nat) s.

Definition lower_char (c : ascii) : ascii :=
  let n := nat_of_ascii c in
  if ((65 <=? n) && (n <=? 90))%nat then ascii_of_nat (n + 32) else c.

(** [s.lower()], on ASCII letters *)
Fixpoint lower (s : string) : string :=
  match s with
  | EmptyString => EmptyString
  | String c s' => String (lower_char c) (lower s')
  end.

(** [s.split(c, 1)] for a one-character separator: [None] when [c] does not
    occur (the result has then one element only), else what is before and
    after the first occurrence. *)
Fixpoint split_once (c : ascii) (s : string) : option (string * string) :=
  match s with
  | EmptyString => None
  | String d s' =>
      if Ascii.eqb c d then Some (EmptyString, s')
      else match split_once c s' with
           | Some (h, t) => Some (String d h, t)
           | None => None
           end
  end.

(** [s[-1]] *)
Fixpoint last_char (s : string) : option ascii :=
  match s with
  | EmptyString => None
  | String c EmptyString => Some c
  | String _ s' => last_char s'
  end.

(** [s[:-1]] *)
Fixpoint drop_last (s : string) : string :=
  match s with
  | EmptyString => EmptyString
  | String _ EmptyString => EmptyString
  | String c s' => String c (drop_last s')
  end.

(** The characters [\w] matches in a [str] pattern, among the code points
    below 256: the alphanumeric ones and the underscore. *)
Definition is_word_char (c : ascii) : bool :=
  let n := nat_of_ascii c in
  (((48 <=? n) && (n <=? 57)) || ((65 <=? n) && (n <=? 90)) || (n =? 95)
   || ((97 <=? n) && (n <=? 122))
   || (n =? 170) || (n =? 178) || (n =? 179) || (n =? 181) || (n =? 185)
   || (n =? 186) || ((188 <=? n) && (n <=? 190))
   || ((192 <=? n) && (n <=? 214)) || ((216 <=? n) && (n <=? 246))
   || (248 <=? n))%nat.

Definition is_ident_start (c : ascii) : bool :=
  let n := nat_of_ascii c in
  (((65 <=? n) && (n <=? 90)) || (n =? 95) || ((97 <=? n) && (n <=? 122)))%nat.

(** [re.match(r"[a-zA-Z_]\w*\Z", s)] as a truth value *)
Definition match_identifier (s : string) : bool :=
  match s with
  | EmptyString => false
  | String c s' => is_ident_start c && forallb is_word_char s'
  end.

(** [bool(s)] for an [Optional[str]] *)
Definition truthy (s : option string) : bool :=
  match s with
  | None => false
  | Some EmptyString => false
  | Some _ => true
  end.

(** [str(s)] inside an f-string, for an [Optional[str]] *)
Definition fmt_opt (s : option string) : string :=
  match s with
  | None => "None"
  | Some x => x
  end.

(** [str(b)] for a [bool] *)
Definition fmt_bool (b : bool) : string := if b then "True" else "False".

(** [repr(t)] for a tuple of strings none of which holds a quote, a backslash
    or an unprintable character. *)
Definition repr_str (s : string) : string := "'" +:+ s +:+ "'".

Definition repr_tuple (l : list string) : string :=
  match l with
  | [] => "()"
  | [x] => "(" +:+ repr_str x +:+ ",)"
  | _ => "(" +:+ join ", " (map repr_str l) +:+ ")"
  end.

End PyStr.

Import PyStr.

(** ** The grammar AST ([pegen.grammar])

    The classes [janet_generator.py] imports from [pegen.grammar].  A node the
    call maker caches on carries its object identity as a number, since a
    Python object without [__eq__] is a dictionary key by identity. *)

Inductive obj_id : Type :=
| Parsed (n : nat)   (* a node of the grammar as it was parsed *)
| Made (n : nat).    (* a node a generator method has built *)

Inductive Item : Type :=
| NameLeaf (value : string)
| StringLeaf (value : string)
| Group (rhs : Rhs)
| RhsNode (rhs : Rhs)   (* an [Rhs] standing where an item does, as in [Opt(alts)] *)
| Opt (node : Item)
| Repeat0 (id : obj_id) (node : Item)
| Repeat1 (id : obj_id) (node : Item)
| Gather (id : obj_id) (separator : Item) (node : Item)
| PositiveLookahead (node : Item)
| NegativeLookahead (node : Item)
| Cut
| Forced (node : Item)
with Rhs : Type :=
| mkRhs (id : obj_id) (alts : list Alt)
with Alt : Type :=
| mkAlt (items : list NamedItem) (action : option string)
with NamedItem : Type :=
| mkNamedItem (name : option string) (item : Item).

Definition alts (r : Rhs) : list Alt := match r with mkRhs _ a => a end.
Definition items (a : Alt) : list NamedItem := match a with mkAlt i _ => i end.
Definition action (a : Alt) : option string := match a with mkAlt _ x => x end.
Definition ni_name (n : NamedItem) : option string :=
  match n with mkNamedItem x _ => x end.
Definition ni_item (n : NamedItem) : Item :=
  match n with mkNamedItem _ i => i end.

(** [pegen.grammar.Rule], with the flags the analysis of the grammar sets. *)
Record Rule : Type := mkRule {
  name : string;
  type : option string;
  rhs : Rhs;
  nullable : bool;
  left_recursive : bool;
  leader : bool
}.

(** [Rule(name, type, rhs)]: the flags of a new rule are all false. *)
Definition new_Rule (n : string) (t : option string) (r : Rhs) : Rule :=
  mkRule n t r false false false.

(** [pegen.grammar.Grammar]: the rules in declaration order and the metas, a
    dictionary from a name to an optional string. *)
Record Grammar : Type := mkGrammar {
  rules : list Rule;
  metas : gmap string (option string)
}.

(** ** Exceptions and results *)

Inductive exn : Type :=
| AssertionError
| ValueError
| TypeError
| IndexError
| AttributeError
| KeyError
| NotImplementedError
| GrammarError.

Inductive result (A : Type) : Type :=
| Ok (a : A)
| Raise (e : exn).
Arguments Ok {A} a.
Arguments Raise {A} e.

(** ** What the generator takes from outside [src/]

    Functions of Python's library and of [pegen.grammar] whose text is not
    part of the two embedded files. *)

Class Externals : Type := {
  (** [ast.literal_eval(s)] followed by the check that the value is a [str]
      ([re.match] raises on anything else) *)
  literal_eval : string -> result string;
  (** [str(rhs)], [Rhs.__str__] *)
  rhs_str : Rhs -> string;
  (** [template.format(key=value)] *)
  str_format : string -> string -> string -> result string;
  (** [GrammarVisitor.generic_visit], as a truth value, on a node the
      [InvalidNodeVisitor] has no method for *)
  generic_visit_invalid : Item -> bool;
  (** [PythonParserGenerator(grammar, file)]: the exception it raises, if any *)
  PythonParserGenerator_init : Grammar -> option exn;
  (** [generate(filename)] of a [PythonParserGenerator]: the lines it writes
      and the exception it ends with, if any *)
  python_generate : Grammar -> string -> list string * option exn
}.

(** ** Dictionaries in insertion order *)

Module Dict.
Section Dict.
Context {V : Type}.

Fixpoint get (d : list (string * V)) (k : string) : option V :=
  match d with
  | [] => None
  | (k', v) :: d' => if String.eqb k k' then Some v else get d' k
  end.

(** [d[k] = v]: a present key keeps its place *)
Fixpoint set (d : list (string * V)) (k : string) (v : V) : list (string * V) :=
  match d with
  | [] => [(k, v)]
  | (k', v') :: d' =>
      if String.eqb k k' then (k, v) :: d' else (k', v') :: set d' k v
  end.

(** [del d[k]]: [None] is the [KeyError] *)
Fixpoint del (d : list (string * V)) (k : string) : option (list (string * V)) :=
  match d with
  | [] => None
  | (k', v') :: d' =>
      if String.eqb k k' then Some d'
      else match del d' k with
           | Some r => Some ((k', v') :: r)
           | None => None
           end
  end.

Definition keys (d : list (string * V)) : list string := map fst d.
End Dict.
End Dict.

(** ** The generator object *)

(** The class of a node the call maker caches on. *)
Inductive node_class : Type := CRhs | CRepeat0 | CRepeat1 | CGather.

Definition node_class_code (c : node_class) : nat :=
  match c with CRhs => 0 | CRepeat0 => 1 | CRepeat1 => 2 | CGather => 3 end.

Definition node_class_of_code (n : nat) : node_class :=
  match n with 0 => CRhs | 1 => CRepeat0 | 2 => CRepeat1 | _ => CGather end.

#[global] Instance node_class_eq_dec : EqDecision node_class.
Proof. solve_decision. Defined.

#[global] Instance node_class_countable : Countable node_class.
Proof.
  apply (inj_countable' node_class_code node_class_of_code).
  intros []; reflexivity.
Defined.

#[global] Instance obj_id_eq_dec : EqDecision obj_id.
Proof. solve_decision. Defined.

#[global] Instance obj_id_countable : Countable obj_id.
Proof.
  apply (inj_countable'
           (fun i => match i with Parsed n => inl n | Made n => inr n end)
           (fun s => match s with inl n => Parsed n | inr n => Made n end)).
  intros []; reflexivity.
Defined.

(** A cache key: the class of the node and its identity. *)
Abbreviation node_key := (node_class * obj_id)%type.

(** What the call maker returns: the name to bind and the call text. *)
Abbreviation call := (option string * string)%type.

(** The attributes of [JanetParserGenerator] (those of [ParserGenerator]
    included) and of its [JanetCallMakerVisitor]. *)
Record Gen : Type := mkGen {
  grammar : Grammar;
  file : list string;
  level : nat;
  todo : list (string * Rule);
  counter : nat;
  local_variable_stack : list (list string);
  cache : gmap node_key call;
  keywords : gset string;
  soft_keywords : gset string;
  unreachable_formatting : string;
  location_formatting : string;
  cleanup_statements : list string
}.

Definition set_file (f : list string) (g : Gen) : Gen :=
  mkGen g.(grammar) f g.(level) g.(todo) g.(counter) g.(local_variable_stack)
        g.(cache) g.(keywords) g.(soft_keywords) g.(unreachable_formatting)
        g.(location_formatting) g.(cleanup_statements).
Definition set_level (n : nat) (g : Gen) : Gen :=
  mkGen g.(grammar) g.(file) n g.(todo) g.(counter) g.(local_variable_stack)
        g.(cache) g.(keywords) g.(soft_keywords) g.(unreachable_formatting)
        g.(location_formatting) g.(cleanup_statements).
Definition set_todo (t : list (string * Rule)) (g : Gen) : Gen :=
  mkGen g.(grammar) g.(file) g.(level) t g.(counter) g.(local_variable_stack)
        g.(cache) g.(keywords) g.(soft_keywords) g.(unreachable_formatting)
        g.(location_formatting) g.(cleanup_statements).
Definition set_counter (n : nat) (g : Gen) : Gen :=
  mkGen g.(grammar) g.(file) g.(level) g.(todo) n g.(local_variable_stack)
        g.(cache) g.(keywords) g.(soft_keywords) g.(unreachable_formatting)
        g.(location_formatting) g.(cleanup_statements).
Definition set_local_variable_stack (s : list (list string)) (g : Gen) : Gen :=
  mkGen g.(grammar) g.(file) g.(level) g.(todo) g.(counter) s
        g.(cache) g.(keywords) g.(soft_keywords) g.(unreachable_formatting)
        g.(location_formatting) g.(cleanup_statements).
Definition set_cache (c : gmap node_key call) (g : Gen) : Gen :=
  mkGen g.(grammar) g.(file) g.(level) g.(todo) g.(counter) g.(local_variable_stack)
        c g.(keywords) g.(soft_keywords) g.(unreachable_formatting)
        g.(location_formatting) g.(cleanup_statements).
Definition set_keywords (k : gset string) (g : Gen) : Gen :=
  mkGen g.(grammar) g.(file) g.(level) g.(todo) g.(counter) g.(local_variable_stack)
        g.(cache) k g.(soft_keywords) g.(unreachable_formatting)
        g.(location_formatting) g.(cleanup_statements).
Definition set_soft_keywords (k : gset string) (g : Gen) : Gen :=
  mkGen g.(grammar) g.(file) g.(level) g.(todo) g.(counter) g.(local_variable_stack)
        g.(cache) g.(keywords) k g.(unreachable_formatting)
        g.(location_formatting) g.(cleanup_statements).
Definition set_cleanup_statements (c : list string) (g : Gen) : Gen :=
  mkGen g.(grammar) g.(file) g.(level) g.(todo) g.(counter) g.(local_variable_stack)
        g.(cache) g.(keywords) g.(soft_keywords) g.(unreachable_formatting)
        g.(location_formatting) c.

(** ** The state and exception monad

    A method either returns, in a new state of the generator, or raises, and
    the state reached when it raises is kept: what was printed stays
    printed. *)

Inductive outcome (A : Type) : Type :=
| Done (a : A) (g : Gen)
| Fail (e : exn) (g : Gen).
Arguments Done {A} a g.
Arguments Fail {A} e g.

Definition M (A : Type) : Type := Gen -> outcome A.

Definition ret {A} (a : A) : M A := fun g => Done a g.
Definition raise {A} (e : exn) : M A := fun g => Fail e g.
Definition bind {A B} (m : M A) (k : A -> M B) : M B :=
  fun g => match m g with
           | Done a g' => k a g'
           | Fail e g' => Fail e g'
           end.
Definition get : M Gen := fun g => Done g g.
Definition modify (f : Gen -> Gen) : M unit := fun g => Done tt (f g).
Definition lift {A} (r : result A) : M A :=
  fun g => match r with Ok a => Done a g | Raise e => Fail e g end.
(** [assert b] *)
Definition assert (b : bool) : M unit :=
  if b then ret tt else raise AssertionError.

Declare Scope gen_scope.
Delimit Scope gen_scope with gen.
Notation "x <- m ;; k" := (bind m (fun x => k))
  (at level 100, m at next level, right associativity) : gen_scope.
Notation "m ;; k" := (bind m (fun _ => k))
  (at level 100, right associativity) : gen_scope.
Local Open Scope gen_scope.

(** ** [pegen.grammar.Rule] methods *)

(** Modelled from the spec: [Rule.is_loop] of [pegen.grammar], the test for a
    loop-shaped rule (the helper of a repeat); a helper rule signals its shape
    by the prefix of its name. *)
Definition is_loop (r : Rule) : bool := startswith r.(name) "_loop".

(** Modelled from the spec: [Rule.is_gather] of [pegen.grammar], the test for
    the helper rule of a separator-gather. *)
Definition is_gather (r : Rule) : bool := startswith r.(name) "_gather".

(** Modelled from the spec: [Rule.flatten] of [pegen.grammar]; a rule that is
    not a loop and is one parenthesized group stands for the group's
    alternatives. *)
Definition flatten (r : Rule) : Rhs :=
  match r.(rhs) with
  | mkRhs _ [mkAlt [mkNamedItem _ (Group inner)] _] =>
      if negb (is_loop r) then inner else r.(rhs)
  | _ => r.(rhs)
  end.

(** ** [pegen.parser_generator.ParserGenerator] methods *)

(** Modelled from the spec: [ParserGenerator.print], the indentation-aware
    text emission; one call writes one line, four spaces per level before
    the text.  [file] holds the lines written, oldest first. *)
Definition print (s : string) : M unit :=
  modify (fun g => set_file (g.(file) ++ [PyStr.repeat "    " g.(level) +:+ s]) g).

(** [self.print()]: an empty line *)
Definition print_empty : M unit :=
  modify (fun g => set_file (g.(file) ++ [EmptyString]) g).

(** Modelled from the spec: [ParserGenerator.indent], the context manager that
    raises the level for its body. *)
Definition indent {A} (body : M A) : M A :=
  modify (fun g => set_level (S g.(level)) g) ;;
  a <- body ;;
  modify (fun g => set_level (pred g.(level)) g) ;;
  ret a.

(** Modelled from the spec: [ParserGenerator.local_variable_context], the
    scope of the local names of one alternative. *)
Definition local_variable_context {A} (body : M A) : M A :=
  modify (fun g => set_local_variable_stack ([] :: g.(local_variable_stack)) g) ;;
  a <- body ;;
  modify (fun g => set_local_variable_stack (tail g.(local_variable_stack)) g) ;;
  ret a.

(** Modelled from the spec: [ParserGenerator.local_variable_names], the names
    of the innermost scope. *)
Definition local_variable_names : M (list string) :=
  g <- get ;;
  match g.(local_variable_stack) with
  | [] => raise IndexError
  | names :: _ => ret names
  end.

(** The loop of [dedupe]: it ends within [length names + 1] rounds. *)
Fixpoint dedupe_loop (fuel : nat) (names : list string) (origname nm : string)
    (n : nat) : string :=
  if bool_decide (nm ∈ names) then
    match fuel with
    | 0 => nm
    | S fuel' =>
        dedupe_loop fuel' names origname (origname +:+ "_" +:+ pretty (S n)) (S n)
    end
  else nm.

(** Modelled from the spec: [ParserGenerator.dedupe], the per-alternative
    local-name deduplication; a collision is resolved by a numeric suffix,
    and the name is recorded. *)
Definition dedupe (nm : string) : M string :=
  names <- local_variable_names ;;
  let nm' := dedupe_loop (S (length names)) names nm nm 0 in
  modify (fun g => set_local_variable_stack
                     ((names ++ [nm']) :: tail g.(local_variable_stack)) g) ;;
  ret nm'.

(** [self.todo[name] = rule] *)
Definition todo_set (nm : string) (r : Rule) : M unit :=
  modify (fun g => set_todo (Dict.set g.(todo) nm r) g).

(** [self.counter += 1], giving the new value *)
Definition next_counter : M nat :=
  modify (fun g => set_counter (S g.(counter)) g) ;;
  g <- get ;;
  ret g.(counter).

(** Modelled from the spec: [ParserGenerator.name_node]; a group of several
    alternatives or items becomes a synthetic rule, enqueued on the
    worklist under a fresh name. *)
Definition name_node (r : Rhs) : M string :=
  n <- next_counter ;;
  let nm := "_tmp_" +:+ pretty n in
  todo_set nm (new_Rule nm None r) ;;
  ret nm.

(** Modelled from the spec: [ParserGenerator.name_loop]; a repeat becomes a
    loop-shaped synthetic rule whose one alternative is the repeated item. *)
Definition name_loop (node : Item) (is_repeat1 : bool) : M string :=
  n <- next_counter ;;
  let prefix := if is_repeat1 then "_loop1_" else "_loop0_" in
  let nm := prefix +:+ pretty n in
  todo_set nm (new_Rule nm None
                 (mkRhs (Made n) [mkAlt [mkNamedItem None node] None])) ;;
  ret nm.

(** Modelled from the spec: [ParserGenerator.name_gather]; a gather
    [sep.node+] becomes a rule for the head element followed by a loop rule
    over [sep node], whose value is the head prepended to the rest. *)
Definition name_gather (separator node : Item) : M string :=
  n <- next_counter ;;
  let nm := "_gather_" +:+ pretty n in
  n' <- next_counter ;;
  let extra_function_name := "_loop0_" +:+ pretty n' in
  let extra_function_alt :=
    mkAlt [mkNamedItem None separator; mkNamedItem (Some "elem") node]
          (Some "elem") in
  todo_set extra_function_name
    (new_Rule extra_function_name None (mkRhs (Made n') [extra_function_alt])) ;;
  let alt :=
    mkAlt [mkNamedItem (Some "elem") node;
           mkNamedItem (Some "seq") (NameLeaf extra_function_name)] None in
  todo_set nm (new_Rule nm None (mkRhs (Made n) [alt])) ;;
  ret nm.

(** ** [janet_generator.py] *)

Definition MODULE_PREFIX : string :=
  "#!/usr/bin/env janet" +:+ String newline
  ("# @generated by pegen from {filename}" +:+ String newline
  (String newline
  ("(use pegen/parser/helpers)" +:+ String newline EmptyString))).

Definition MODULE_SUFFIX : string :=
  String newline (String newline
  ("if __name__ == '__main__':" +:+ String newline
  ("    (import pegen/parser)" +:+ String newline
  ("    (pegen/parser/simple_parser_main {class_name})" +:+ String newline
   EmptyString)))).

(** [JanetLiteralType], floats apart. *)
Inductive JanetLiteralType : Type :=
| LStr (s : string)
| LInt (z : Z)
| LBool (b : bool)
| LNone.

(** [JanetLiteralExpr.__init__]: a string must be ASCII. *)
Definition JanetLiteralExpr (value : JanetLiteralType) : result JanetLiteralType :=
  match value with
  | LStr s => if isascii s then Ok value else Raise AssertionError
  | _ => Ok value
  end.

(** [JanetLiteralExpr.__str__]; a [bool] is an [int] for [isinstance], so it
    is printed by [str]. *)
Definition JanetLiteralExpr_str (val : JanetLiteralType) : string :=
  match val with
  | LNone => "nil"
  | LStr s =>
      if isprintable s && negb (contains backslash s) && negb (contains dquote s)
      then dquote +:+ s +:+ dquote
      else
        let backticks := PyStr.repeat backtick (count (ascii_of_nat 96) s + 1) in
        backticks +:+ s +:+ backticks
  | LInt z => pretty z
  | LBool b => fmt_bool b
  end.

(** [str(escape(s))], as the f-strings use it on a [str] *)
Definition escape (s : string) : result string :=
  match JanetLiteralExpr (LStr s) with
  | Ok e => Ok (JanetLiteralExpr_str e)
  | Raise e => Raise e
  end.

Section Generator.
Context {ext : Externals}.

(** *** [InvalidNodeVisitor] *)

Fixpoint invalid_visit (node : Item) : bool :=
  match node with
  | NameLeaf value => startswith value "invalid"
  | StringLeaf _ => false
  | Group r => invalid_visit_Rhs r
  | RhsNode r => invalid_visit_Rhs r
  | Opt n => invalid_visit n
  | Repeat0 _ _ => generic_visit_invalid node
  | Repeat1 _ _ => generic_visit_invalid node
  | Gather _ _ n => invalid_visit n
  | PositiveLookahead n => invalid_visit n
  | NegativeLookahead n => invalid_visit n
  | Cut => false
  | Forced n => invalid_visit n
  end
with invalid_visit_Rhs (node : Rhs) : bool :=
  match node with
  | mkRhs _ al => existsb invalid_visit_Alt al
  end
with invalid_visit_Alt (node : Alt) : bool :=
  match node with
  | mkAlt its _ => existsb invalid_visit_NamedItem its
  end
with invalid_visit_NamedItem (node : NamedItem) : bool :=
  match node with
  | mkNamedItem _ it => invalid_visit it
  end.

(** *** [JanetCallMakerVisitor] *)

Definition visit_NameLeaf (value : string) : M call :=
  let nm := value in
  if String.eqb nm "SOFT_KEYWORD" then
    ret (Some "soft_keyword", "(self soft_keyword)")
  else if bool_decide (nm ∈ ["NAME"; "NUMBER"; "STRING"; "OP"; "TYPE_COMMENT"]) then
    let nm := lower nm in
    ret (Some nm, "(self " +:+ nm +:+ ")")
  else if bool_decide
            (nm ∈ ["NEWLINE"; "DEDENT"; "INDENT"; "ENDMARKER"; "ASYNC"; "AWAIT"]) then
    e <- lift (escape nm) ;;
    ret (Some ("_" +:+ lower nm), "(self expect " +:+ e +:+ ")")
  else
    ret (Some nm, "(self " +:+ nm +:+ ")").

Definition visit_StringLeaf (value : string) : M call :=
  val <- lift (literal_eval value) ;;
  (if match_identifier val then
     if endswith value "'" then
       modify (fun g => set_keywords ({[val]} ∪ g.(keywords)) g)
     else
       modify (fun g => set_soft_keywords ({[val]} ∪ g.(soft_keywords)) g)
   else ret tt) ;;
  e <- lift (escape value) ;;
  ret (Some "literal", "(expect " +:+ e +:+ ")").

(** [self.cache[key] = value], giving the value back *)
Definition cache_store (key : node_key) (v : call) : M call :=
  modify (fun g => set_cache (<[key := v]> g.(cache)) g) ;;
  ret v.

(** [JanetCallMakerVisitor.visit_NamedItem], after the visit of the item: the
    item's own name, when it has one, replaces the name the visit gave. *)
Definition named_item_call (nm : option string) (r : call) : call :=
  if truthy nm then (nm, snd r) else (fst r, snd r).

(** The body of [lookahead_call_helper] after the visit of the inner node. *)
Definition lookahead_split (c : string) : M (string * string) :=
  match split_once "(" c with
  | None => raise ValueError
  | Some (head, tl) =>
      match last_char tl with
      | None => raise IndexError
      | Some ch =>
          assert (Ascii.eqb ch ")") ;;
          ret (head, drop_last tl)
      end
  end.

Fixpoint visit (node : Item) : M call :=
  match node with
  | NameLeaf value => visit_NameLeaf value
  | StringLeaf value => visit_StringLeaf value
  | Group r => visit_Rhs r
  | RhsNode r => visit_Rhs r
  | Opt n =>
      r <- visit n ;;
      let c := snd r in
      if endswith c "," then ret (Some "opt", c)
      else ret (Some "opt", c +:+ ",")
  | Repeat0 i n =>
      g <- get ;;
      match g.(cache) !! (CRepeat0, i) with
      | Some r => ret r
      | None =>
          nm <- name_loop n false ;;
          cache_store (CRepeat0, i) (Some nm, "(self " +:+ nm +:+ "),")
      end
  | Repeat1 i n =>
      g <- get ;;
      match g.(cache) !! (CRepeat1, i) with
      | Some r => ret r
      | None =>
          nm <- name_loop n true ;;
          cache_store (CRepeat1, i) (Some nm, "(self " +:+ nm +:+ ")")
      end
  | Gather i sep n =>
      g <- get ;;
      match g.(cache) !! (CGather, i) with
      | Some r => ret r
      | None =>
          nm <- name_gather sep n ;;
          cache_store (CGather, i) (Some nm, "(self " +:+ nm +:+ ")")
      end
  | PositiveLookahead n =>
      r <- visit n ;;
      ht <- lookahead_split (snd r) ;;
      ret (None, "(self positive_lookahead " +:+ fst ht +:+ " " +:+ snd ht +:+ ")")
  | NegativeLookahead n =>
      r <- visit n ;;
      ht <- lookahead_split (snd r) ;;
      ret (None, "(self negative_lookahead " +:+ fst ht +:+ " " +:+ snd ht +:+ ")")
  | Cut => ret (Some "cut", "true")
  | Forced n =>
      match n with
      | Group r =>
          v <- visit_Rhs r ;;
          e <- lift (escape (snd v)) ;;
          ret (Some "forced",
               "(self expect_forced " +:+ e +:+ " ````(" +:+ rhs_str r +:+ ")````)")
      | NameLeaf value | StringLeaf value =>
          e <- lift (escape value) ;;
          ret (Some "forced",
               "(self expect_forced (self expect " +:+ e +:+ ") " +:+ e +:+ ")")
      | _ => raise AttributeError
      end
  end
with visit_Rhs (node : Rhs) : M call :=
  match node with
  | mkRhs i al =>
      g <- get ;;
      match g.(cache) !! (CRhs, i) with
      | Some r => ret r
      | None =>
          match al with
          | [mkAlt [mkNamedItem nm it] _] =>
              r <- visit it ;;
              cache_store (CRhs, i) (named_item_call nm r)
          | _ =>
              nm <- name_node node ;;
              cache_store (CRhs, i) (Some nm, "(self " +:+ nm +:+ ")")
          end
      end
  end.

(** *** [JanetParserGenerator] *)

(** [for x in l: f(x)] *)
Fixpoint for_each {A} (f : A -> M unit) (l : list A) : M unit :=
  match l with
  | [] => ret tt
  | x :: l' => f x ;; for_each f l'
  end.

Fixpoint alt_uses_locations (a : Alt) : bool :=
  match a with
  | mkAlt its act =>
      (truthy act && contains "LOCATIONS" (fmt_opt act))
      || existsb (fun n =>
                    match n with
                    | mkNamedItem _ (Group (mkRhs _ al)) =>
                        existsb alt_uses_locations al
                    | _ => false
                    end) its
  end.

Definition alts_uses_locations (al : list Alt) : bool :=
  existsb alt_uses_locations al.

Definition add_return (ret_val : string) : M unit :=
  g <- get ;;
  for_each print g.(cleanup_statements) ;;
  print ("(return " +:+ ret_val +:+ ")").

Definition visit_NamedItem (node : NamedItem) (used : option (gset string))
    (unreachable : bool) : M unit :=
  r <- visit (ni_item node) ;;
  let c := snd r in
  let nm := if unreachable then None
            else if truthy (ni_name node) then ni_name node
            else fst r in
  let nm := match used with
            | Some u =>
                match nm with
                | Some n => if bool_decide (n ∈ u) then nm else None
                | None => None
                end
            | None => nm
            end in
  if negb (truthy nm) then
    print ("(" +:+ c +:+ ")")
  else
    nm <- (if negb (String.eqb (fmt_opt nm) "cut") then dedupe (fmt_opt nm)
           else ret (fmt_opt nm)) ;;
    print ("(var " +:+ nm +:+ " " +:+ c +:+ ")").

Definition print_action (act : option string)
    (locations unreachable is_gather is_loop has_invalid : bool) : M unit :=
  act <- (if negb (truthy act) then
            if is_gather then
              names <- local_variable_names ;;
              match names with
              | [n0; n1] => ret (Some ("[" +:+ n0 +:+ "] + " +:+ n1))
              | _ => raise AssertionError
              end
            else if has_invalid then
              assert unreachable ;;
              assert (match act with Some _ => true | None => false end) ;;
              ret act
            else
              names <- local_variable_names ;;
              match names with
              | [n0] => ret (Some n0)
              | _ => ret (Some ("[" +:+ join ", " names +:+ "]"))
              end
          else ret act) ;;
  (if locations then
     print "(var tok (:get_last_non_whitespace_token (self :_tokenizer)))" ;;
     print "(var [end_lineno end_col_offset] (tok :end))"
   else ret tt) ;;
  if is_loop then
    print ("(array/push children " +:+ fmt_opt act +:+ ")") ;;
    print "(set mark self._mark())"
  else
    add_return (fmt_opt act).

Definition is_Cut (it : Item) : bool :=
  match it with Cut => true | _ => false end.

(** The start of [visit_Alt], up to [with self.local_variable_context()]: the
    action with its two magic names replaced, and whether it had
    [LOCATIONS] and [UNREACHABLE]. *)
Definition alt_action (node : Alt) (is_gather has_invalid : bool)
    (location_formatting unreachable_formatting : string)
    : option string * bool * bool :=
  let act := action node in
  let act := if negb (truthy act) && negb is_gather && has_invalid
             then Some "UNREACHABLE" else act in
  let locations := truthy act && contains "LOCATIONS" (fmt_opt act) in
  let act := if locations
             then Some (replace (fmt_opt act) "LOCATIONS" location_formatting)
             else act in
  let unreachable := truthy act && contains "UNREACHABLE" (fmt_opt act) in
  let act := if unreachable
             then Some (replace (fmt_opt act) "UNREACHABLE" unreachable_formatting)
             else act in
  (act, locations, unreachable).

(** The items of an alternative, as [visit_Alt] writes them inside the
    conjunction. *)
Definition visit_Alt_items (node : Alt) (is_gather has_invalid unreachable : bool)
    (used : option (gset string)) : M unit :=
  (if has_invalid then print "(self :call_invalid_rules)" else ret tt) ;;
  for_each (fun it =>
              (if is_gather then print "(not (nil? " else ret tt) ;;
              visit_NamedItem it used unreachable ;;
              (if is_gather then print "))" else ret tt))
           (items node).

Definition has_cut (node : Alt) : bool :=
  existsb (fun it => is_Cut (ni_item it)) (items node).

Definition visit_Alt (node : Alt) (is_loop is_gather : bool) : M unit :=
  let has_cut := has_cut node in
  let has_invalid := invalid_visit_Alt node in
  g <- get ;;
  let '(act, locations, unreachable) :=
    alt_action node is_gather has_invalid
               g.(location_formatting) g.(unreachable_formatting) in
  let used : option (gset string) := None in
  local_variable_context (
    (if has_cut then print "(set cut False)" else ret tt) ;;
    (if is_loop then print "(while (and " else print "(when (and ") ;;
    indent (visit_Alt_items node is_gather has_invalid unreachable used) ;;
    print ")" ;;
    indent (print_action act locations unreachable is_gather is_loop has_invalid) ;;
    print "(:_reset self mark)" ;;
    (if has_cut then print "(when cut (return nil))" else ret tt)).

(** [JanetParserGenerator.visit_Rhs] *)
Definition gen_visit_Rhs (node : Rhs) (is_loop is_gather : bool) : M unit :=
  (if is_loop then assert (length (alts node) =? 1)%nat else ret tt) ;;
  for_each (fun alt => visit_Alt alt is_loop is_gather) (alts node).

Definition decorators_of (node : Rule) : list string :=
  if node.(left_recursive) then
    if node.(leader) then ["memoize_left_rec"] else ["@logger"]
  else ["@memoize"].

(** The first line of a rule: the text [visit_Rule] computes before its
    first [print]. *)
Definition rule_definition_line (node : Rule) : string :=
  let decorators := decorators_of node in
  let decorator_array_repr := "[" +:+ join "," decorators +:+ "]" in
  let definition_type :=
    match decorators with [] => "defn" | _ => "decorated-defn" end in
  "(" +:+ definition_type +:+ " " +:+ decorator_array_repr +:+ " "
  +:+ node.(name) +:+ " [self]".

(** The block of [visit_Rule] under [with self.indent()]. *)
Definition visit_Rule_body (node : Rule) : M unit :=
  let is_loop := is_loop node in
  let is_gather := is_gather node in
  let rhs' := flatten node in
  print ("# " +:+ node.(name) +:+ ": " +:+ rhs_str rhs') ;;
  (if node.(nullable) then print ("# nullable=" +:+ fmt_bool node.(nullable))
   else ret tt) ;;
  (if endswith node.(name) "without_invalid" then
     print "(def _prev_call_invalid (self :call_invalid_rules))" ;;
     print "(set self :call_invalid_rules False)" ;;
     modify (fun g => set_cleanup_statements
                        (g.(cleanup_statements)
                         ++ ["(set self :call_invalid_rules _prev_call_invalid)"]) g)
   else ret tt) ;;
  print "(var mark (:_mark self))" ;;
  (if alts_uses_locations (alts node.(rhs)) then
     print "(var tok (:peek (self :_tokenizer)))" ;;
     print "(var [start_lineno start_col_offset] tok.start)"
   else ret tt) ;;
  (if is_loop then print "(def children @[])" else ret tt) ;;
  gen_visit_Rhs rhs' is_loop is_gather ;;
  (if is_loop then add_return "children" else add_return "None").

Definition visit_Rule (node : Rule) : M unit :=
  print (rule_definition_line node) ;;
  indent (visit_Rule_body node) ;;
  print ")" ;;
  (if endswith node.(name) "without_invalid" then
     modify (fun g => set_cleanup_statements
                        (removelast g.(cleanup_statements)) g)
   else ret tt).

(** [sorted(s)] for a set of strings *)
Definition sorted (s : gset string) : list string :=
  merge_sort String.le (elements s).

(** [self.grammar.metas.get(key, default)] *)
Definition metas_get (key : string) (default : option string) : M (option string) :=
  g <- get ;;
  match g.(grammar).(metas) !! key with
  | Some v => ret v
  | None => ret default
  end.

(** [del self.todo[rulename]] *)
Definition todo_del (rulename : string) : M unit :=
  g <- get ;;
  match Dict.del g.(todo) rulename with
  | Some t => modify (set_todo t)
  | None => raise KeyError
  end.

(** The body of the [for] loop of [generate]. *)
Definition emit_rule (kv : string * Rule) : M unit :=
  todo_del (fst kv) ;;
  print_empty ;;
  indent (visit_Rule (snd kv)).

(** The [while self.todo] loop of [generate]: each round walks a snapshot of
    the worklist.  [None] is a run that needs more rounds than [fuel]. *)
Fixpoint drain (fuel : nat) (g : Gen) : option (outcome unit) :=
  match g.(todo) with
  | [] => Some (Done tt g)
  | snapshot =>
      match fuel with
      | 0 => None
      | S fuel' =>
          match for_each emit_rule snapshot g with
          | Done _ g' => drain fuel' g'
          | Fail e g' => Some (Fail e g')
          end
      end
  end.

(** [generate], up to the loop; it gives the class name. *)
Definition generate_head (filename : string) : M (option string) :=
  header <- metas_get "header" (Some MODULE_PREFIX) ;;
  match header with
  | Some h =>
      t <- lift (str_format (rstrip_newline h) "filename" filename) ;;
      print t
  | None => ret tt
  end ;;
  subheader <- metas_get "subheader" (Some EmptyString) ;;
  (if truthy subheader then print (fmt_opt subheader) else ret tt) ;;
  cls_name <- metas_get "class" (Some "GeneratedParser") ;;
  print "# Keywords and soft keywords are listed at the end of the parser definition." ;;
  print ("(defparser " +:+ fmt_opt cls_name) ;;
  ret cls_name.

(** [generate], after the loop. *)
Definition generate_tail (cls_name : option string) : M unit :=
  print_empty ;;
  indent (
    g <- get ;;
    print ("(def KEYWORDS " +:+ repr_tuple (sorted g.(keywords)) +:+ ")") ;;
    print ("(def SOFT_KEYWORDS " +:+ repr_tuple (sorted g.(soft_keywords)) +:+ ")")) ;;
  default <- lift (str_format MODULE_SUFFIX "class_name" (fmt_opt cls_name)) ;;
  trailer <- metas_get "trailer" (Some default) ;;
  match trailer with
  | Some t => print (rstrip_newline t)
  | None => ret tt
  end.

Definition generate (fuel : nat) (filename : string) (g : Gen) : option (outcome unit) :=
  match generate_head filename g with
  | Fail e g' => Some (Fail e g')
  | Done cls_name g1 =>
      match drain fuel g1 with
      | None => None
      | Some (Fail e g') => Some (Fail e g')
      | Some (Done _ g2) => Some (generate_tail cls_name g2)
      end
  end.

(** Modelled from the spec: [ParserGenerator.__init__] of
    [pegen.parser_generator], as far as the generator's state goes.  The
    worklist starts as the dictionary of the grammar's rules, by name; a rule
    name that starts with an underscore is refused, such names being those of
    synthetic rules; a grammar without a trailer needs a [start] rule. *)
Definition ParserGenerator_init (gr : Grammar) : result Gen :=
  let rules_dict := fold_left (fun d r => Dict.set d r.(name) r) gr.(rules) [] in
  if existsb (fun r => startswith r.(name) "_") gr.(rules) then Raise GrammarError
  else if negb (bool_decide (is_Some (gr.(metas) !! "trailer")))
          && negb (bool_decide ("start" ∈ Dict.keys rules_dict))
  then Raise GrammarError
  else Ok (mkGen gr [] 0 rules_dict 0 [] ∅ ∅ ∅ EmptyString EmptyString []).

(** [JanetParserGenerator.__init__]; [file] starts as the lines the open file
    holds, none. *)
Definition JanetParserGenerator (gr : Grammar)
    (location_formatting unreachable_formatting : option string) : result Gen :=
  match ParserGenerator_init gr with
  | Raise e => Raise e
  | Ok g =>
      let unreachable_formatting :=
        if truthy unreachable_formatting then fmt_opt unreachable_formatting
        else "None  # pragma: no cover" in
      let location_formatting :=
        match location_formatting with
        | None =>
            "{:lineno start_lineno :cool_offset start_col_offset"
            +:+ " :end_lineno end_lineno :end_col_offset end_col_offset}"
        | Some l => l
        end in
      Ok (mkGen g.(grammar) g.(file) g.(level) g.(todo) g.(counter)
                g.(local_variable_stack) ∅ ∅ ∅
                unreachable_formatting location_formatting [])
  end.

End Generator.

(** ** [build.py] *)

Record BuilderConfig : Type := mkBuilderConfig {
  verbose_tokenizer : bool;
  verbose_parser : bool;
  skip_actions : bool
}.

(** The subclasses of [Builder], the values of [BUILDERS_BY_GENERATOR_NAME]. *)
Inductive BuilderClass : Type := PythonBuilder | JanetBuilder.

Definition BUILDERS_BY_GENERATOR_NAME : list (string * BuilderClass) :=
  [("python", PythonBuilder); ("janet", JanetBuilder)].

Record Builder : Type := mkBuilder {
  builder_class : BuilderClass;
  grammar_file : string;
  output_file : string;
  config : BuilderConfig
}.

(** The files: a path is bound to the lines of its file. *)
Abbreviation Files := (gmap string (list string)).

(** [Builder.__init__]: without a configuration the builder takes
    [BuilderConfig()], all of whose flags are false. *)
Definition Builder_init (cls : BuilderClass) (grammar_file output_file : string)
    (config : option BuilderConfig) : Builder :=
  mkBuilder cls grammar_file output_file
    (match config with
     | Some c => c
     | None => mkBuilderConfig false false false
     end).

Section Build.
Context {ext : Externals}.

(** The generator a builder makes: the Janet one is its state, the Python one
    is known by its grammar only. *)
Inductive generator : Type :=
  | PythonGen (gr : Grammar)
  | JanetGen (g : Gen).

(** [PythonBuilder._create_generator] and [JanetBuilder._create_generator] *)
Definition _create_generator (b : Builder) (gr : Grammar) : result generator :=
  match b.(builder_class) with
  | PythonBuilder =>
      if b.(config).(skip_actions) then Raise NotImplementedError
      else match PythonParserGenerator_init gr with
           | Some e => Raise e
           | None => Ok (PythonGen gr)
           end
  | JanetBuilder =>
      if b.(config).(skip_actions) then Raise NotImplementedError
      else match JanetParserGenerator gr None None with
           | Raise e => Raise e
           | Ok g => Ok (JanetGen g)
           end
  end.

(** [gen.generate(filename)] on an open, empty file: the lines written and the
    exception raised, if any. *)
Definition run_generate (gen : generator) (fuel : nat) (filename : string)
    : option (list string * option exn) :=
  match gen with
  | PythonGen gr => Some (python_generate gr filename)
  | JanetGen g =>
      match generate fuel filename g with
      | None => None
      | Some (Done _ g') => Some (g'.(file), None)
      | Some (Fail e g') => Some (g'.(file), Some e)
      end
  end.

(** What [build_generator] ends with. *)
Inductive built : Type :=
  | Built
  | BuildFail (e : exn).

(** [Builder.build_generator]: [open(self.output_file, "w")] empties the
    file, the generator writes to it, and leaving the [with] closes it. *)
Definition build_generator (b : Builder) (gr : Grammar) (fuel : nat) (fs : Files)
    : option (built * Files) :=
  let fs := <[b.(output_file) := []]> fs in
  match _create_generator b gr with
  | Raise e => Some (BuildFail e, fs)
  | Ok gen =>
      match run_generate gen fuel b.(grammar_file) with
      | None => None
      | Some (lines, None) => Some (Built, <[b.(output_file) := lines]> fs)
      | Some (lines, Some e) =>
          Some (BuildFail e, <[b.(output_file) := lines]> fs)
      end
  end.

(** [Builder.build], for what [build_parser] gives: the exception it raises,
    or the grammar with its parser and its tokenizer.  The generator is made
    only once the grammar is parsed. *)
Definition build {P T : Type} (b : Builder) (build_parser : result (Grammar * P * T))
    (fuel : nat) (fs : Files) : option (built * Files) :=
  match build_parser with
  | Raise e => Some (BuildFail e, fs)
  | Ok (gr, _, _) => build_generator b gr fuel fs
  end.

End Build.

(** ** A reference environment

    One instance of [Externals] to run the generator on concrete grammars: the
    theorems hold for every instance, the examples are evaluated in this one. *)

Module Reference.

(** [ast.literal_eval] on a string literal that has no prefix and no escape:
    the text between its quotes. *)
Definition plain_literal_eval (s : string) : result string :=
  match s with
  | String q rest =>
      let body := drop_last rest in
      if (Ascii.eqb q "'" || Ascii.eqb q (ascii_of_nat 34))
         && bool_decide (last_char rest = Some q)
         && negb (contains backslash body)
         && negb (contains (String q EmptyString) body)
         && negb (contains (String newline EmptyString) body)
      then Ok body
      else Raise ValueError
  | EmptyString => Raise ValueError
  end.

Fixpoint item_str (node : Item) : string :=
  match node with
  | NameLeaf v | StringLeaf v => v
  | Group r => "(" +:+ plain_rhs_str r +:+ ")"
  | RhsNode r => plain_rhs_str r
  | Opt n => "[" +:+ item_str n +:+ "]"
  | Repeat0 _ n => "(" +:+ item_str n +:+ ")*"
  | Repeat1 _ n => "(" +:+ item_str n +:+ ")+"
  | Gather _ sep n => item_str sep +:+ "." +:+ item_str n +:+ "+"
  | PositiveLookahead n => "&" +:+ item_str n
  | NegativeLookahead n => "!" +:+ item_str n
  | Cut => "~"
  | Forced n => "&&" +:+ item_str n
  end
with plain_rhs_str (r : Rhs) : string :=
  match r with
  | mkRhs _ al => join " | " (map alt_str al)
  end
with alt_str (a : Alt) : string :=
  match a with
  | mkAlt its _ => join " " (map named_item_str its)
  end
with named_item_str (n : NamedItem) : string :=
  match n with
  | mkNamedItem _ it => item_str it
  end.

(** [template.format(key=value)] on a template whose only braces are those of
    [{key}]. *)
Definition plain_str_format (template key value : string) : result string :=
  Ok (replace template ("{" +:+ key +:+ "}") value).

#[global] Instance externals : Externals := {|
  literal_eval := plain_literal_eval;
  rhs_str := plain_rhs_str;
  str_format := plain_str_format;
  generic_visit_invalid := fun _ => false;
  PythonParserGenerator_init := fun _ => None;
  python_generate := fun _ _ => ([], None)
  |}.

(** The lines a Janet build writes for a grammar, when it ends well. *)
Definition janet_lines (gr : Grammar) (fuel : nat) : option (list string) :=
  match JanetParserGenerator gr None None with
  | Ok g =>
      match generate fuel "g.gram" g with
      | Some (Done _ g') => Some g'.(file)
      | _ => None
      end
  | Raise _ => None
  end.

(** [start: NAME '+' NUMBER] *)
Definition name_plus_number : Grammar :=
  mkGrammar
    [new_Rule "start" None
       (mkRhs (Parsed 0)
          [mkAlt [mkNamedItem None (NameLeaf "NAME");
                  mkNamedItem None (StringLeaf "'+'");
                  mkNamedItem None (NameLeaf "NUMBER")] None])]
    ∅.

(** The generator [JanetParserGenerator(gr, file)] makes, for a grammar it
    accepts. *)
Definition generator_of (gr : Grammar) : Gen :=
  match JanetParserGenerator gr None None with
  | Ok g => g
  | Raise _ => mkGen gr [] 0 [] 0 [] ∅ ∅ ∅ EmptyString EmptyString []
  end.

(** [start: 'if' "if"] *)
Definition if_twice : Grammar :=
  mkGrammar
    [new_Rule "start" None
       (mkRhs (Parsed 0)
          [mkAlt [mkNamedItem None (StringLeaf "'if'");
                  mkNamedItem None (StringLeaf (dquote +:+ "if" +:+ dquote))]
                 None])]
    ∅.

(** [x_without_invalid: 'a' ~ 'b' | 'c'], with a [start] rule before it *)
Definition cut_without_invalid : Grammar :=
  mkGrammar
    [new_Rule "start" None
       (mkRhs (Parsed 0) [mkAlt [mkNamedItem None (NameLeaf "x_without_invalid")] None]);
     new_Rule "x_without_invalid" None
       (mkRhs (Parsed 1)
          [mkAlt [mkNamedItem None (StringLeaf "'a'");
                  mkNamedItem None Cut;
                  mkNamedItem None (StringLeaf "'b'")] None;
           mkAlt [mkNamedItem None (StringLeaf "'c'")] None])]
    ∅.

(** [start: ('a' | 'b')+] *)
Definition repeat_group : Grammar :=
  mkGrammar
    [new_Rule "start" None
       (mkRhs (Parsed 0)
          [mkAlt [mkNamedItem None
                    (Repeat1 (Parsed 1)
                       (Group (mkRhs (Parsed 2)
                                 [mkAlt [mkNamedItem None (StringLeaf "'a'")] None;
                                  mkAlt [mkNamedItem None (StringLeaf "'b'")] None])))]
                 None])]
    ∅.

End Reference.

(** * The vocabulary of the properties *)

(** The state a computation ends in, whether it returns or raises. *)
Definition final {A} (o : outcome A) : Gen :=
  match o with Done _ g => g | Fail _ g => g end.

(** A relation between the state before and the state after that a
    computation keeps, however it ends. *)
Definition respects (R : Gen -> Gen -> Prop) {A} (m : M A) : Prop :=
  forall g, R g (final (m g)).

(** The lines of [g'] are those of [g] followed by more. *)
Definition appends (g g' : Gen) : Prop := exists L, g'.(file) = g.(file) ++ L.

(** The level is kept and lines are only added. *)
Definition inner (g g' : Gen) : Prop := g'.(level) = g.(level) /\ appends g g'.

(** A line at an indentation level. *)
Definition at_level (n : nat) (s : string) : string := PyStr.repeat "    " n +:+ s.


(** The keyword sets only grow. *)
Definition keywords_grow (g g' : Gen) : Prop :=
  g.(keywords) ⊆ g'.(keywords) /\ g.(soft_keywords) ⊆ g'.(soft_keywords).

(** A call text ends with the list separator. *)
Definition ends_sep (c : string) : bool := endswith c ",".

(** A call text that ends with the separator ends with one only. *)
Definition call_ok (c : string) : Prop :=
  ends_sep c = true -> ends_sep (drop_last c) = false.

(** What the cache holds: a well-formed call under every key, one that ends
    with the separator under a [Repeat0], one that does not under a [Repeat1]
    or a [Gather]. *)
Definition cache_ok (g : Gen) : Prop :=
  forall k v, g.(cache) !! k = Some v ->
    call_ok (snd v)
    /\ (fst k = CRepeat0 -> ends_sep (snd v) = true)
    /\ (fst k = CRepeat1 \/ fst k = CGather -> ends_sep (snd v) = false).

(** The cache stays well-formed. *)
Definition keeps_cache_ok (g g' : Gen) : Prop := cache_ok g -> cache_ok g'.

(** A call-maker method keeps the cache well-formed and, when it returns,
    returns a well-formed call. *)
Definition call_maker_ok (m : M call) : Prop :=
  respects keeps_cache_ok m
  /\ forall g r g', cache_ok g -> m g = Done r g' -> call_ok (snd r).

(** The name a generator method gives to the synthetic rule numbered [n]. *)
Definition synth_name (n : nat) (s : string) : Prop :=
  s = "_tmp_" +:+ pretty n \/ s = "_loop0_" +:+ pretty n
  \/ s = "_loop1_" +:+ pretty n \/ s = "_gather_" +:+ pretty n.

(** A name the generator can hold when its counter is [c]: that of an
    authored rule, which does not start with an underscore, or that of a
    synthetic rule numbered [c] at most. *)
Definition name_ok (c : nat) (s : string) : Prop :=
  startswith s "_" = false \/ exists n, n <= c /\ synth_name n s.

(** The name of a synthetic rule numbered after [c] and up to [c']. *)
Definition between (c c' : nat) (s : string) : Prop :=
  exists n, c < n /\ n <= c' /\ synth_name n s.

(** A bound on the weight of the rules a visit of the item can enqueue. *)
Fixpoint budget (it : Item) : nat :=
  match it with
  | NameLeaf _ | StringLeaf _ | Cut => 0
  | Group r | RhsNode r => S (rhs_budget r)
  | Opt n | PositiveLookahead n | NegativeLookahead n | Forced n => budget n
  | Repeat0 _ n | Repeat1 _ n => S (budget n + 0 + 0)
  | Gather _ s n => S (budget s + (budget n + 0) + 0) + S (budget n + (0 + 0) + 0)
  end
with rhs_budget (r : Rhs) : nat :=
  match r with
  | mkRhs _ al => list_sum (map alt_budget al)
  end
with alt_budget (a : Alt) : nat :=
  match a with
  | mkAlt its _ => list_sum (map named_item_budget its)
  end
with named_item_budget (n : NamedItem) : nat :=
  match n with
  | mkNamedItem _ it => budget it
  end.

(** The weight of a rule: one more than what emitting it can enqueue. *)
Definition rule_weight (r : Rule) : nat := S (rhs_budget r.(rhs)).

(** The weight of a worklist. *)
Definition todo_weight (d : list (string * Rule)) : nat :=
  list_sum (map (fun kv => rule_weight (snd kv)) d).

(** The worklist is left as it was. *)
Definition same_todo (g g' : Gen) : Prop := g'.(todo) = g.(todo).

(** The worklist and the counter are left as they were. *)
Definition same_work (g g' : Gen) : Prop :=
  g'.(todo) = g.(todo) /\ g'.(counter) = g.(counter).

(** A computation adds at most [B] to the weight of the worklist, however it
    ends. *)
Definition spends {A} (B : nat) (m : M A) : Prop :=
  forall g, todo_weight (final (m g)).(todo) <= todo_weight g.(todo) + B.

(** Each rule of a worklist is filed under its own name. *)
Definition keyed (d : list (string * Rule)) : Prop :=
  Forall (fun kv => (snd kv).(name) = fst kv) d.

(** Every number after [c] and up to [c'] names one of the keys. *)
Definition numbered (c c' : nat) (keys : list string) : Prop :=
  forall n, c < n -> n <= c' -> exists k, k ∈ keys /\ synth_name n k.

(** The counter does not go back, and over a worklist whose names the
    counter allows the rules enqueued are added at the end, under new
    synthetic names, one for each number the counter went through. *)
Definition grows (g g' : Gen) : Prop :=
  g.(counter) <= g'.(counter)
  /\ (Forall (name_ok g.(counter)) (Dict.keys g.(todo)) ->
      exists N,
        g'.(todo) = g.(todo) ++ N
        /\ Forall (between g.(counter) g'.(counter)) (Dict.keys N)
        /\ NoDup (Dict.keys N)
        /\ keyed N
        /\ numbered g.(counter) g'.(counter) (Dict.keys N)).

(** What the loop keeps, [E] being the names of the rules emitted so far: the
    names emitted and those on the worklist are allowed by the counter and
    pairwise distinct, each rule of the worklist is filed under its name, and
    each number the counter went through names one of them. *)
Definition loop_inv (E : list string) (g : Gen) : Prop :=
  Forall (name_ok g.(counter)) (E ++ Dict.keys g.(todo))
  /\ NoDup (E ++ Dict.keys g.(todo))
  /\ keyed g.(todo)
  /\ numbered 0 g.(counter) (E ++ Dict.keys g.(todo)).

(** The rules the loop takes from the worklist, in the order it emits them:
    the snapshots of the successive rounds. *)
Fixpoint drain_log `{ext : Externals} (fuel : nat) (g : Gen) : list (string * Rule) :=
  match g.(todo) with
  | [] => []
  | snapshot =>
      match fuel with
      | 0 => []
      | S fuel' =>
          match for_each emit_rule snapshot g with
          | Done _ g' => snapshot ++ drain_log fuel' g'
          | Fail _ _ => snapshot
          end
      end
  end.

(** The text state of the generator is left as it was: the lines written,
    the level, the local names, the cleanup statements, the grammar and the
    two formattings. *)
Definition quiet (g g' : Gen) : Prop :=
  g'.(file) = g.(file) /\ g'.(level) = g.(level)
  /\ g'.(local_variable_stack) = g.(local_variable_stack)
  /\ g'.(cleanup_statements) = g.(cleanup_statements)
  /\ g'.(grammar) = g.(grammar)
  /\ g'.(location_formatting) = g.(location_formatting)
  /\ g'.(unreachable_formatting) = g.(unreachable_formatting).

(** The counter does not go back. *)
Definition counter_grows (g g' : Gen) : Prop := g.(counter) <= g'.(counter).

(** Every entry of the two keyword sets is an identifier. *)
Definition identifier_tables (g : Gen) : Prop :=
  forall k, k ∈ g.(keywords) \/ k ∈ g.(soft_keywords) -> match_identifier k = true.

(** The keyword sets keep holding identifiers only. *)
Definition keeps_identifiers (g g' : Gen) : Prop :=
  identifier_tables g -> identifier_tables g'.

(** The names of the rules and tokens an item mentions, wherever they
    stand. *)
Fixpoint leaf_names (it : Item) : list string :=
  match it with
  | NameLeaf v => [v]
  | StringLeaf _ | Cut => []
  | Group r | RhsNode r => rhs_leaf_names r
  | Opt n | Repeat0 _ n | Repeat1 _ n
  | PositiveLookahead n | NegativeLookahead n | Forced n => leaf_names n
  | Gather _ s n => leaf_names s ++ leaf_names n
  end
with rhs_leaf_names (r : Rhs) : list string :=
  match r with
  | mkRhs _ al => concat (map alt_leaf_names al)
  end
with alt_leaf_names (a : Alt) : list string :=
  match a with
  | mkAlt its _ => concat (map named_item_leaf_names its)
  end
with named_item_leaf_names (n : NamedItem) : list string :=
  match n with
  | mkNamedItem _ it => leaf_names it
  end.

(** The line of one item inside the conjunction of an alternative, and the
    local name the item records: the bare call, the cut flag, or a variable
    bound to the call. *)
Inductive item_line (unreachable : bool) : string -> list string -> Prop :=
| item_line_call c :
    item_line unreachable ("(" +:+ c +:+ ")") []
| item_line_cut c :
    unreachable = false ->
    item_line unreachable ("(var cut " +:+ c +:+ ")") []
| item_line_var nm c :
    unreachable = false -> nm <> "cut" ->
    item_line unreachable ("(var " +:+ nm +:+ " " +:+ c +:+ ")") [nm].

(** The conjunction of an alternative, from the lines of its items. *)
Definition conj_lines (is_gather has_invalid : bool) (lines : list string)
    : list string :=
  (if has_invalid then ["(self :call_invalid_rules)"] else [])
  ++ concat (map (fun l => if is_gather then ["(not (nil? "; l; "))"] else [l]) lines).

(** What follows the conjunction: the end of the location, and the value,
    pushed on the children of a loop or returned after the cleanup
    statements. *)
Definition action_lines (locations is_loop : bool) (cleanup : list string)
    (value : string) : list string :=
  (if locations
   then ["(var tok (:get_last_non_whitespace_token (self :_tokenizer)))";
         "(var [end_lineno end_col_offset] (tok :end))"]
   else [])
  ++ (if is_loop
      then ["(array/push children " +:+ value +:+ ")"; "(set mark self._mark())"]
      else cleanup ++ ["(return " +:+ value +:+ ")"]).

(** The text of an alternative at a level. *)
Definition alt_lines (lvl : nat)
    (has_cut is_loop is_gather has_invalid locations : bool)
    (cleanup lines : list string) (value : string) : list string :=
  map (at_level lvl)
    ((if has_cut then ["(set cut False)"] else [])
     ++ [if is_loop then "(while (and " else "(when (and "])
  ++ map (at_level (S lvl)) (conj_lines is_gather has_invalid lines)
  ++ [at_level lvl ")"]
  ++ map (at_level (S lvl)) (action_lines locations is_loop cleanup value)
  ++ map (at_level lvl)
       ("(:_reset self mark)" :: if has_cut then ["(when cut (return nil))"] else []).

(** The value of an alternative that has no action, from its local names:
    [None] is the failed assertion of a gather. *)
Definition default_action (is_gather : bool) (names : list string) : option string :=
  if is_gather then
    match names with
    | [n0; n1] => Some ("[" +:+ n0 +:+ "] + " +:+ n1)
    | _ => None
    end
  else
    match names with
    | [n0] => Some n0
    | _ => Some ("[" +:+ join ", " names +:+ "]")
    end.

(** The cleanup statements in force inside a rule. *)
Definition cleanup_of (node : Rule) (g : Gen) : list string :=
  g.(cleanup_statements)
  ++ (if endswith node.(name) "without_invalid"
      then ["(set self :call_invalid_rules _prev_call_invalid)"] else []).

(** The text of one rule inside the parser definition: an empty line, the
    definition line, the body, the closing line. *)
Definition rule_chunk (lvl : nat) (kv : string * Rule) (chunk : list string) : Prop :=
  exists body,
    chunk = EmptyString :: at_level lvl (rule_definition_line (snd kv))
            :: body ++ [at_level lvl ")"].

(** * Properties *)

(** ** Induction on items *)

Section Item_mutind.
Variables (P : Item -> Prop) (Q : Rhs -> Prop).
Hypotheses
  (HNameLeaf : forall v, P (NameLeaf v))
  (HStringLeaf : forall v, P (StringLeaf v))
  (HGroup : forall r, Q r -> P (Group r))
  (HRhsNode : forall r, Q r -> P (RhsNode r))
  (HOpt : forall n, P n -> P (Opt n))
  (HRepeat0 : forall i n, P n -> P (Repeat0 i n))
  (HRepeat1 : forall i n, P n -> P (Repeat1 i n))
  (HGather : forall i s n, P s -> P n -> P (Gather i s n))
  (HPositiveLookahead : forall n, P n -> P (PositiveLookahead n))
  (HNegativeLookahead : forall n, P n -> P (NegativeLookahead n))
  (HCut : P Cut)
  (HForced : forall n, P n -> P (Forced n))
  (HRhs : forall i al,
      Forall (fun a => Forall (fun n => P (ni_item n)) (items a)) al ->
      Q (mkRhs i al)).

Fixpoint Item_mutind (it : Item) : P it :=
  match it with
  | NameLeaf v => HNameLeaf v
  | StringLeaf v => HStringLeaf v
  | Group r => HGroup r (Rhs_mutind r)
  | RhsNode r => HRhsNode r (Rhs_mutind r)
  | Opt n => HOpt n (Item_mutind n)
  | Repeat0 i n => HRepeat0 i n (Item_mutind n)
  | Repeat1 i n => HRepeat1 i n (Item_mutind n)
  | Gather i s n => HGather i s n (Item_mutind s) (Item_mutind n)
  | PositiveLookahead n => HPositiveLookahead n (Item_mutind n)
  | NegativeLookahead n => HNegativeLookahead n (Item_mutind n)
  | Cut => HCut
  | Forced n => HForced n (Item_mutind n)
  end
with Rhs_mutind (r : Rhs) : Q r :=
  match r with
  | mkRhs i al =>
      HRhs i al
        ((fix alts_ind (al : list Alt) :
            Forall (fun a => Forall (fun n => P (ni_item n)) (items a)) al :=
            match al with
            | [] => @List.Forall_nil _ _
            | a :: al' =>
                @List.Forall_cons _ _ _ _
                  (match a as a0
                         return Forall (fun n => P (ni_item n)) (items a0) with
                   | mkAlt its _ =>
                       (fix items_ind (its : list NamedItem) :
                          Forall (fun n => P (ni_item n)) its :=
                          match its with
                          | [] => @List.Forall_nil _ _
                          | n :: its' =>
                              @List.Forall_cons _ _ _ _
                                (match n as n0 return P (ni_item n0) with
                                 | mkNamedItem _ it => Item_mutind it
                                 end)
                                (items_ind its')
                          end) its
                   end)
                  (alts_ind al')
            end) al)
  end.

Lemma Item_Rhs_ind : (forall it, P it) /\ (forall r, Q r).
Proof. split; [exact Item_mutind | exact Rhs_mutind]. Qed.
End Item_mutind.

(** ** The monad *)

Lemma bind_Done {A B} (m : M A) (k : A -> M B) g b g' :
  bind m k g = Done b g' ->
  exists a g1, m g = Done a g1 /\ k a g1 = Done b g'.
Proof.
  unfold bind. destruct (m g) as [a g1|e g1]; [eauto | discriminate].
Qed.

Lemma bind_get {B} (k : Gen -> M B) g : bind get k g = k g g.
Proof. reflexivity. Qed.

Lemma bind_run {A B} (m : M A) (k : A -> M B) g a g1 :
  m g = Done a g1 -> bind m k g = k a g1.
Proof. unfold bind. intros ->. reflexivity. Qed.


Section DrainEquations.
Context {ext : Externals}.

Lemma drain_nil fuel g : g.(todo) = [] -> drain fuel g = Some (Done tt g).
Proof. intros E. destruct fuel; simpl; rewrite E; reflexivity. Qed.

Lemma drain_0_cons g kv t : g.(todo) = kv :: t -> drain 0 g = None.
Proof. intros E. simpl. rewrite E. reflexivity. Qed.

Lemma drain_S_cons fuel g kv t :
  g.(todo) = kv :: t ->
  drain (S fuel) g =
  match for_each emit_rule (kv :: t) g with
  | Done _ g' => drain fuel g'
  | Fail e g' => Some (Fail e g')
  end.
Proof. intros E. simpl. rewrite E. reflexivity. Qed.
End DrainEquations.

(** A relation between the state before and the state after that every step
    of a computation keeps, however the computation ends. *)
Section Respects.
Context (R : Gen -> Gen -> Prop) `{!PreOrder R}.

Lemma respects_ret {A} (a : A) : respects R (ret a).
Proof. intros g. simpl. reflexivity. Qed.

Lemma respects_raise {A} e : respects R (@raise A e).
Proof. intros g. simpl. reflexivity. Qed.

Lemma respects_get : respects R get.
Proof. intros g. simpl. reflexivity. Qed.

Lemma respects_lift {A} (r : result A) : respects R (lift r).
Proof. intros g. unfold lift. destruct r; simpl; reflexivity. Qed.

Lemma respects_assert b : respects R (assert b).
Proof. destruct b; [apply respects_ret | apply respects_raise]. Qed.

Lemma respects_modify f : (forall g, R g (f g)) -> respects R (modify f).
Proof. intros H g. apply H. Qed.

Lemma respects_bind {A B} (m : M A) (k : A -> M B) :
  respects R m -> (forall a, respects R (k a)) -> respects R (bind m k).
Proof.
  intros Hm Hk g. unfold bind. specialize (Hm g).
  destruct (m g) as [a g1|e g1]; simpl in *; [|assumption].
  etrans; [eassumption | apply Hk].
Qed.

Lemma respects_for_each {A} (f : A -> M unit) l :
  (forall x, respects R (f x)) -> respects R (for_each f l).
Proof.
  intros Hf. induction l as [|x l IH]; simpl.
  - apply respects_ret.
  - apply respects_bind; [apply Hf | intros _; apply IH].
Qed.

Lemma respects_Done {A} (m : M A) g a g' :
  respects R m -> m g = Done a g' -> R g g'.
Proof. intros H E. specialize (H g). rewrite E in H. exact H. Qed.
End Respects.

Ltac respects_step R :=
  match goal with
  | |- respects R (bind _ _) => apply respects_bind; [typeclasses eauto| |intros ?]
  | |- respects R (ret _) => apply respects_ret; typeclasses eauto
  | |- respects R (raise _) => apply respects_raise; typeclasses eauto
  | |- respects R get => apply respects_get; typeclasses eauto
  | |- respects R (lift _) => apply respects_lift; typeclasses eauto
  | |- respects R (assert _) => apply respects_assert; typeclasses eauto
  | |- respects R (for_each _ _) =>
      apply respects_for_each; [typeclasses eauto|intros ?]
  | |- respects R (if ?b then _ else _) => destruct b
  | |- respects R (match ?x with _ => _ end) => destruct x
  | |- respects R (modify _) => apply respects_modify; intros ?
  end.

(** The call maker reaches the worklist and the counter through [name_node],
    [name_loop] and [name_gather] only: a relation that these three and the
    updates of the keyword sets and of the cache keep is kept by a visit. *)
Section CallMakerNames.
Context {ext : Externals} (R : Gen -> Gen -> Prop) `{!PreOrder R}.
Hypotheses
  (Hkeywords : forall v g, R g (set_keywords ({[v]} ∪ g.(keywords)) g))
  (Hsoft : forall v g, R g (set_soft_keywords ({[v]} ∪ g.(soft_keywords)) g))
  (Hcache : forall k v g, R g (set_cache (<[k := v]> g.(cache)) g))
  (Hname_node : forall r, respects R (name_node r))
  (Hname_loop : forall n b, respects R (name_loop n b))
  (Hname_gather : forall s n, respects R (name_gather s n)).

Lemma cache_store_respects k v : respects R (cache_store k v).
Proof. unfold cache_store. repeat respects_step R. apply Hcache. Qed.

Lemma visit_NameLeaf_respects v : respects R (visit_NameLeaf v).
Proof. unfold visit_NameLeaf. repeat respects_step R. Qed.

Lemma visit_StringLeaf_respects v : respects R (visit_StringLeaf v).
Proof.
  unfold visit_StringLeaf. repeat respects_step R; auto.
Qed.

Lemma lookahead_split_respects c : respects R (lookahead_split c).
Proof. unfold lookahead_split. repeat respects_step R. Qed.

Lemma visit_respects_names :
  (forall it, respects R (visit it)) /\ (forall r, respects R (visit_Rhs r)).
Proof.
  apply Item_Rhs_ind.
  - intros v. apply visit_NameLeaf_respects.
  - intros v. apply visit_StringLeaf_respects.
  - intros r Hr. exact Hr.
  - intros r Hr. exact Hr.
  - intros n Hn. simpl.
    apply respects_bind; [typeclasses eauto|assumption|intros r].
    repeat respects_step R.
  - intros i n _. simpl.
    apply respects_bind; [typeclasses eauto|apply respects_get; typeclasses eauto|intros g].
    destruct (cache g !! (CRepeat0, i)); [respects_step R|].
    apply respects_bind; [typeclasses eauto|apply Hname_loop|intros nm].
    apply cache_store_respects.
  - intros i n _. simpl.
    apply respects_bind; [typeclasses eauto|apply respects_get; typeclasses eauto|intros g].
    destruct (cache g !! (CRepeat1, i)); [respects_step R|].
    apply respects_bind; [typeclasses eauto|apply Hname_loop|intros nm].
    apply cache_store_respects.
  - intros i sep n _ _. simpl.
    apply respects_bind; [typeclasses eauto|apply respects_get; typeclasses eauto|intros g].
    destruct (cache g !! (CGather, i)); [respects_step R|].
    apply respects_bind; [typeclasses eauto|apply Hname_gather|intros nm].
    apply cache_store_respects.
  - intros n Hn. simpl.
    apply respects_bind; [typeclasses eauto|assumption|intros r].
    apply respects_bind; [typeclasses eauto|apply lookahead_split_respects|intros ht].
    respects_step R.
  - intros n Hn. simpl.
    apply respects_bind; [typeclasses eauto|assumption|intros r].
    apply respects_bind; [typeclasses eauto|apply lookahead_split_respects|intros ht].
    respects_step R.
  - simpl. respects_step R.
  - intros n Hn.
    destruct n; try (simpl; repeat respects_step R; fail).
    simpl in *.
    apply respects_bind; [typeclasses eauto|exact Hn|intros v].
    repeat respects_step R.
  - intros i al H. simpl.
    apply respects_bind; [typeclasses eauto|apply respects_get; typeclasses eauto|intros g].
    destruct (cache g !! (CRhs, i)); [respects_step R|].
    assert (Hnn : respects R
              (nm <- name_node (mkRhs i al) ;;
               cache_store (CRhs, i) (Some nm, "(self " +:+ nm +:+ ")"))).
    { apply respects_bind; [typeclasses eauto|apply Hname_node|intros nm].
      apply cache_store_respects. }
    destruct al as [|[its act] al]; [exact Hnn|].
    destruct al; [|destruct its as [|[] [|]]; exact Hnn].
    destruct its as [|[nm it] [|]]; try exact Hnn.
    inversion H as [|? ? Ha _]; subst. inversion Ha as [|? ? Hit _]; subst.
    apply respects_bind; [typeclasses eauto|exact Hit|intros r].
    apply cache_store_respects.
Qed.

End CallMakerNames.

(** The three reach them through two updates: a relation that the five
    updates keep is kept by a visit. *)
Section CallMakerFrame.
Context {ext : Externals} (R : Gen -> Gen -> Prop) `{!PreOrder R}.
Hypotheses
  (Hkeywords : forall v g, R g (set_keywords ({[v]} ∪ g.(keywords)) g))
  (Hsoft : forall v g, R g (set_soft_keywords ({[v]} ∪ g.(soft_keywords)) g))
  (Hcache : forall k v g, R g (set_cache (<[k := v]> g.(cache)) g))
  (Hcounter : forall g, R g (set_counter (S g.(counter)) g))
  (Htodo : forall nm r g, R g (set_todo (Dict.set g.(todo) nm r) g)).

Lemma next_counter_respects : respects R next_counter.
Proof. unfold next_counter. repeat respects_step R. apply Hcounter. Qed.

Lemma todo_set_respects nm r : respects R (todo_set nm r).
Proof. unfold todo_set. respects_step R. apply Htodo. Qed.

Lemma name_node_respects r : respects R (name_node r).
Proof.
  unfold name_node.
  apply respects_bind; [typeclasses eauto|apply next_counter_respects|intros n].
  apply respects_bind; [typeclasses eauto|apply todo_set_respects|intros _].
  respects_step R.
Qed.

Lemma name_loop_respects n b : respects R (name_loop n b).
Proof.
  unfold name_loop.
  apply respects_bind; [typeclasses eauto|apply next_counter_respects|intros c].
  apply respects_bind; [typeclasses eauto|apply todo_set_respects|intros _].
  respects_step R.
Qed.

Lemma name_gather_respects s n : respects R (name_gather s n).
Proof.
  unfold name_gather.
  apply respects_bind; [typeclasses eauto|apply next_counter_respects|intros c].
  apply respects_bind; [typeclasses eauto|apply next_counter_respects|intros c'].
  apply respects_bind; [typeclasses eauto|apply todo_set_respects|intros _].
  apply respects_bind; [typeclasses eauto|apply todo_set_respects|intros _].
  respects_step R.
Qed.

Lemma visit_respects :
  (forall it, respects R (visit it)) /\ (forall r, respects R (visit_Rhs r)).
Proof.
  apply visit_respects_names;
    auto using name_node_respects, name_loop_respects, name_gather_respects.
Qed.
End CallMakerFrame.

(** The same for the whole generator: a relation that the call maker and each
    update of the generator's own attributes keep is kept by every method.  A
    lemma rests on the updates its method can reach only. *)
Section GeneratorFrame.
Context {ext : Externals} (R : Gen -> Gen -> Prop) `{!PreOrder R}.
Hypotheses
  (Hvisit : forall it, respects R (visit it))
  (Hprint : forall l g, R g (set_file (g.(file) ++ [l]) g))
  (Hstack : forall s g, R g (set_local_variable_stack s g))
  (Hlevel : forall n g, R g (set_level n g))
  (Hcleanup : forall c g, R g (set_cleanup_statements c g))
  (Hdel : forall t g, R g (set_todo t g)).

Lemma print_respects s : respects R (print s).
Proof. unfold print. respects_step R. apply Hprint. Qed.

Lemma print_empty_respects : respects R print_empty.
Proof. unfold print_empty. respects_step R. apply Hprint. Qed.

Lemma indent_respects {A} (body : M A) : respects R body -> respects R (indent body).
Proof.
  intros Hb. unfold indent.
  apply respects_bind; [typeclasses eauto| |intros _].
  { respects_step R. apply Hlevel. }
  apply respects_bind; [typeclasses eauto|exact Hb|intros a].
  apply respects_bind; [typeclasses eauto| |intros _].
  { respects_step R. apply Hlevel. }
  respects_step R.
Qed.

Lemma local_variable_context_respects {A} (body : M A) :
  respects R body -> respects R (local_variable_context body).
Proof.
  intros Hb. unfold local_variable_context.
  apply respects_bind; [typeclasses eauto| |intros _].
  { respects_step R. apply Hstack. }
  apply respects_bind; [typeclasses eauto|exact Hb|intros a].
  apply respects_bind; [typeclasses eauto| |intros _].
  { respects_step R. apply Hstack. }
  respects_step R.
Qed.

Lemma local_variable_names_respects : respects R local_variable_names.
Proof. unfold local_variable_names. repeat respects_step R. Qed.

Lemma dedupe_respects nm : respects R (dedupe nm).
Proof.
  unfold dedupe.
  apply respects_bind;
    [typeclasses eauto|apply local_variable_names_respects|intros names].
  repeat respects_step R. apply Hstack.
Qed.

Lemma add_return_respects v : respects R (add_return v).
Proof.
  unfold add_return.
  apply respects_bind; [typeclasses eauto|apply respects_get; typeclasses eauto|intros g].
  apply respects_bind; [typeclasses eauto| |intros _; apply print_respects].
  apply respects_for_each; [typeclasses eauto|intros x; apply print_respects].
Qed.

Lemma visit_NamedItem_respects node used unreachable :
  respects R (visit_NamedItem node used unreachable).
Proof.
  unfold visit_NamedItem.
  apply respects_bind; [typeclasses eauto| |intros r].
  { apply Hvisit. }
  match goal with
  | |- respects R (if ?b then _ else _) => destruct b
  end; [apply print_respects|].
  apply respects_bind; [typeclasses eauto| |intros nm; apply print_respects].
  match goal with
  | |- respects R (if ?b then _ else _) => destruct b
  end; [apply dedupe_respects|respects_step R].
Qed.

Lemma print_action_respects act l u ig il hi :
  respects R (print_action act l u ig il hi).
Proof.
  unfold print_action.
  apply respects_bind; [typeclasses eauto| |intros a].
  { destruct (negb (truthy act)); [|respects_step R].
    destruct ig.
    - apply respects_bind;
        [typeclasses eauto|apply local_variable_names_respects|intros names].
      repeat respects_step R.
    - destruct hi; [repeat respects_step R|].
      apply respects_bind;
        [typeclasses eauto|apply local_variable_names_respects|intros names].
      repeat respects_step R. }
  apply respects_bind; [typeclasses eauto| |intros _].
  { destruct l; [|respects_step R].
    apply respects_bind; [typeclasses eauto|apply print_respects|intros _].
    apply print_respects. }
  destruct il; [|apply add_return_respects].
  apply respects_bind; [typeclasses eauto|apply print_respects|intros _].
  apply print_respects.
Qed.

Lemma visit_Alt_items_respects node ig hi u used :
  respects R (visit_Alt_items node ig hi u used).
Proof.
  unfold visit_Alt_items.
  apply respects_bind; [typeclasses eauto| |intros _].
  { destruct hi; [apply print_respects|respects_step R]. }
  apply respects_for_each; [typeclasses eauto|intros it].
  apply respects_bind; [typeclasses eauto| |intros _].
  { destruct ig; [apply print_respects|respects_step R]. }
  apply respects_bind;
    [typeclasses eauto|apply visit_NamedItem_respects|intros _].
  destruct ig; [apply print_respects|respects_step R].
Qed.

Lemma visit_Alt_respects node il ig : respects R (visit_Alt node il ig).
Proof.
  unfold visit_Alt.
  apply respects_bind; [typeclasses eauto|apply respects_get; typeclasses eauto|intros g].
  destruct (alt_action node ig (invalid_visit_Alt node)
              (location_formatting g) (unreachable_formatting g))
    as [[act locations] unreachable].
  apply local_variable_context_respects.
  apply respects_bind; [typeclasses eauto| |intros _].
  { destruct (has_cut node); [apply print_respects|respects_step R]. }
  apply respects_bind; [typeclasses eauto| |intros _].
  { destruct il; apply print_respects. }
  apply respects_bind; [typeclasses eauto| |intros _].
  { apply indent_respects, visit_Alt_items_respects. }
  apply respects_bind; [typeclasses eauto|apply print_respects|intros _].
  apply respects_bind; [typeclasses eauto| |intros _].
  { apply indent_respects. apply print_action_respects. }
  apply respects_bind; [typeclasses eauto|apply print_respects|intros _].
  destruct (has_cut node); [apply print_respects|respects_step R].
Qed.

Lemma gen_visit_Rhs_respects node il ig : respects R (gen_visit_Rhs node il ig).
Proof.
  unfold gen_visit_Rhs.
  apply respects_bind; [typeclasses eauto| |intros _].
  { destruct il; repeat respects_step R. }
  apply respects_for_each; [typeclasses eauto|intros a].
  apply visit_Alt_respects.
Qed.

Lemma visit_Rule_body_respects node : respects R (visit_Rule_body node).
Proof.
  unfold visit_Rule_body.
  apply respects_bind; [typeclasses eauto|apply print_respects|intros _].
  apply respects_bind; [typeclasses eauto| |intros _].
  { destruct (nullable node); [apply print_respects|respects_step R]. }
  apply respects_bind; [typeclasses eauto| |intros _].
  { destruct (endswith (name node) "without_invalid"); [|respects_step R].
    apply respects_bind; [typeclasses eauto|apply print_respects|intros _].
    apply respects_bind; [typeclasses eauto|apply print_respects|intros _].
    respects_step R. apply Hcleanup. }
  apply respects_bind; [typeclasses eauto|apply print_respects|intros _].
  apply respects_bind; [typeclasses eauto| |intros _].
  { destruct (alts_uses_locations (alts (rhs node))); [|respects_step R].
    apply respects_bind; [typeclasses eauto|apply print_respects|intros _].
    apply print_respects. }
  apply respects_bind; [typeclasses eauto| |intros _].
  { destruct (is_loop node); [apply print_respects|respects_step R]. }
  apply respects_bind;
    [typeclasses eauto|apply gen_visit_Rhs_respects|intros _].
  destruct (is_loop node); apply add_return_respects.
Qed.

Lemma visit_Rule_close_respects node :
  respects R
    (indent (visit_Rule_body node) ;;
     print ")" ;;
     (if endswith node.(name) "without_invalid" then
        modify (fun g => set_cleanup_statements
                           (removelast g.(cleanup_statements)) g)
      else ret tt)).
Proof.
  apply respects_bind; [typeclasses eauto| |intros _].
  { apply indent_respects, visit_Rule_body_respects. }
  apply respects_bind; [typeclasses eauto|apply print_respects|intros _].
  destruct (endswith (name node) "without_invalid"); [|respects_step R].
  respects_step R. apply Hcleanup.
Qed.

Lemma visit_Rule_respects node : respects R (visit_Rule node).
Proof.
  unfold visit_Rule.
  apply respects_bind; [typeclasses eauto|apply print_respects|intros _].
  apply visit_Rule_close_respects.
Qed.

Lemma todo_del_respects k : respects R (todo_del k).
Proof. unfold todo_del. repeat respects_step R. apply Hdel. Qed.

Lemma emit_rule_respects kv : respects R (emit_rule kv).
Proof.
  unfold emit_rule.
  apply respects_bind; [typeclasses eauto|apply todo_del_respects|intros _].
  apply respects_bind; [typeclasses eauto|apply print_empty_respects|intros _].
  apply indent_respects, visit_Rule_respects.
Qed.

Lemma drain_respects fuel g o : drain fuel g = Some o -> R g (final o).
Proof.
  revert g. induction fuel as [|fuel IH]; intros g;
    destruct (todo g) as [|kv t] eqn:E.
  - rewrite (drain_nil _ _ E). intros [= <-]. simpl. reflexivity.
  - rewrite (drain_0_cons _ _ _ E). discriminate.
  - rewrite (drain_nil _ _ E). intros [= <-]. simpl. reflexivity.
  - rewrite (drain_S_cons _ _ _ _ E).
    pose proof (respects_for_each R emit_rule (kv :: t) emit_rule_respects g) as H.
    destruct (for_each emit_rule (kv :: t) g) as [[] g1|e g1]; simpl in H.
    + intros Hd. etrans; [exact H | apply IH, Hd].
    + intros [= <-]. exact H.
Qed.

Lemma metas_get_respects k d : respects R (metas_get k d).
Proof. unfold metas_get. repeat respects_step R. Qed.

Lemma generate_head_respects f : respects R (generate_head f).
Proof.
  unfold generate_head.
  apply respects_bind; [typeclasses eauto|apply metas_get_respects|intros h].
  apply respects_bind; [typeclasses eauto| |intros _].
  { destruct h; [|respects_step R].
    apply respects_bind; [typeclasses eauto|respects_step R|intros t].
    apply print_respects. }
  apply respects_bind; [typeclasses eauto|apply metas_get_respects|intros sh].
  apply respects_bind; [typeclasses eauto| |intros _].
  { destruct (truthy sh); [apply print_respects|respects_step R]. }
  apply respects_bind; [typeclasses eauto|apply metas_get_respects|intros c].
  apply respects_bind; [typeclasses eauto|apply print_respects|intros _].
  apply respects_bind; [typeclasses eauto|apply print_respects|intros _].
  respects_step R.
Qed.

Lemma generate_tail_respects c : respects R (generate_tail c).
Proof.
  unfold generate_tail.
  apply respects_bind; [typeclasses eauto|apply print_empty_respects|intros _].
  apply respects_bind; [typeclasses eauto| |intros _].
  { apply indent_respects.
    apply respects_bind; [typeclasses eauto|apply respects_get; typeclasses eauto|intros g].
    apply respects_bind; [typeclasses eauto|apply print_respects|intros _].
    apply print_respects. }
  apply respects_bind; [typeclasses eauto|respects_step R|intros d].
  apply respects_bind; [typeclasses eauto|apply metas_get_respects|intros t].
  destruct t; [apply print_respects|respects_step R].
Qed.

Lemma generate_respects fuel f g o : generate fuel f g = Some o -> R g (final o).
Proof.
  unfold generate.
  pose proof (generate_head_respects f g) as Hh.
  destruct (generate_head f g) as [c g1|e g1]; simpl in Hh.
  - destruct (drain fuel g1) as [[[] g2|e g2]|] eqn:Hd; [| |discriminate].
    + intros [= <-]. apply drain_respects in Hd. simpl in Hd.
      etrans; [exact Hh|]. etrans; [exact Hd|]. apply generate_tail_respects.
    + intros [= <-]. apply drain_respects in Hd. simpl in *.
      etrans; eassumption.
  - intros [= <-]. exact Hh.
Qed.
End GeneratorFrame.

(** ** What is written stays written *)

#[global] Instance appends_preorder : PreOrder appends.
Proof.
  split.
  - intros g. exists []. symmetry. apply app_nil_r.
  - intros g1 g2 g3 [L1 H1] [L2 H2]. exists (L1 ++ L2).
    rewrite H2, H1. symmetry. apply app_assoc.
Qed.

Ltac appends_same := intros; exists []; simpl; symmetry; apply app_nil_r.

Section Appends.
Context {ext : Externals}.

Lemma visit_appends it : respects appends (visit it).
Proof. apply visit_respects; try typeclasses eauto; appends_same. Qed.

Lemma print_appends l g : appends g (set_file (g.(file) ++ [l]) g).
Proof. exists [l]. reflexivity. Qed.

Lemma visit_Alt_appends node il ig : respects appends (visit_Alt node il ig).
Proof.
  apply visit_Alt_respects;
    [typeclasses eauto|apply visit_appends|apply print_appends|appends_same..].
Qed.

Lemma visit_Rule_close_appends node :
  respects appends
    (indent (visit_Rule_body node) ;;
     print ")" ;;
     (if endswith node.(name) "without_invalid" then
        modify (fun g => set_cleanup_statements
                           (removelast g.(cleanup_statements)) g)
      else ret tt)).
Proof.
  apply visit_Rule_close_respects; try typeclasses eauto; try appends_same.
  - intros it. apply visit_respects; try typeclasses eauto; appends_same.
  - intros l g. exists [l]. reflexivity.
Qed.

Lemma generate_appends fuel f g o :
  generate fuel f g = Some o -> appends g (final o).
Proof.
  apply generate_respects; try typeclasses eauto; try appends_same.
  - intros it. apply visit_respects; try typeclasses eauto; appends_same.
  - intros l g0. exists [l]. reflexivity.
Qed.
End Appends.

(** ** C2: the decoration of a rule *)

(** C2.  Whatever the rule and the state, the first line [visit_Rule] writes
    is the rule's definition line, at the current level, and its decoration is
    chosen by the flags alone: [memoize_left_rec] for a left-recursive
    leader, [@logger] (no memoization, but still a decorated, callable
    definition) for a left-recursive rule that is not the leader, [@memoize]
    for every other rule. *)
Theorem visit_Rule_decoration `{ext : Externals} (node : Rule) (g : Gen) :
  exists rest,
    (final (visit_Rule node g)).(file) =
    g.(file)
    ++ (PyStr.repeat "    " g.(level)
        +:+ "(decorated-defn ["
        +:+ (if node.(left_recursive)
             then if node.(leader) then "memoize_left_rec" else "@logger"
             else "@memoize")
        +:+ "] " +:+ node.(name) +:+ " [self]") :: rest.
Proof.
  unfold visit_Rule.
  match goal with
  | |- context [bind (print ?s) ?k g] =>
      change (bind (print s) k g)
        with (k tt (set_file (g.(file) ++ [PyStr.repeat "    " g.(level) +:+ s]) g))
  end.
  cbv beta.
  match goal with
  | |- context [final (?m ?g1)] =>
      destruct (visit_Rule_close_appends node g1) as [L HL]
  end.
  exists L. rewrite HL. simpl file. rewrite <- app_assoc. simpl.
  do 2 f_equal.
  unfold rule_definition_line, decorators_of.
  destruct (left_recursive node), (leader node); reflexivity.
Qed.

(** ** C8: the skip-actions option *)

(** C8.  When the configuration sets [skip_actions], making the generator
    raises [NotImplementedError], whichever registered builder is used, and
    [build_generator] ends with that exception having written nothing: the
    output file, opened for writing, holds no line. *)
Theorem skip_actions_unsupported `{ext : Externals}
    (b : Builder) (gr : Grammar) (fuel : nat) (fs : Files) :
  b.(config).(skip_actions) = true ->
  In b.(builder_class) (map snd BUILDERS_BY_GENERATOR_NAME)
  /\ _create_generator b gr = Raise NotImplementedError
  /\ build_generator b gr fuel fs
     = Some (BuildFail NotImplementedError, <[b.(output_file) := []]> fs).
Proof.
  intros Hskip. split; [|split].
  - simpl. destruct (builder_class b); auto.
  - unfold _create_generator. rewrite Hskip. destruct (builder_class b); reflexivity.
  - unfold build_generator, _create_generator. rewrite Hskip.
    destruct (builder_class b); reflexivity.
Qed.

Lemma skip_actions_unsupported_witness :
  let b := mkBuilder JanetBuilder "g.gram" "out.janet" (mkBuilderConfig false false true) in
  In b.(builder_class) (map snd BUILDERS_BY_GENERATOR_NAME)
  /\ _create_generator b Reference.name_plus_number = Raise NotImplementedError
  /\ build_generator b Reference.name_plus_number 0 ∅
     = Some (BuildFail NotImplementedError, <[b.(output_file) := []]> ∅).
Proof.
  intros b.
  apply (@skip_actions_unsupported Reference.externals b Reference.name_plus_number 0 ∅).
  reflexivity.
Defined.

(** ** C9: determinism *)



(** ** C6: one synthetic rule per node *)

Section Cache.
Context {ext : Externals}.

Lemma cache_store_Done k v g :
  cache_store k v g = Done v (set_cache (<[k := v]> g.(cache)) g).
Proof. reflexivity. Qed.



End Cache.



(** ** C5: the keyword tables *)

Section Keywords.
Context {ext : Externals}.


Lemma sorted_elem_of (s : gset string) x : x ∈ sorted s <-> x ∈ s.
Proof.
  unfold sorted. rewrite merge_sort_Permutation. apply elem_of_elements.
Qed.


(** The lines [generate] writes after the loop start with an empty line and
    the two tables, made from the sets as the loop left them. *)
Lemma generate_tail_tables cls g :
  exists rest,
    (final (generate_tail cls g)).(file) =
    g.(file)
    ++ [EmptyString;
        PyStr.repeat "    " (S g.(level))
        +:+ "(def KEYWORDS " +:+ repr_tuple (sorted g.(keywords)) +:+ ")";
        PyStr.repeat "    " (S g.(level))
        +:+ "(def SOFT_KEYWORDS " +:+ repr_tuple (sorted g.(soft_keywords)) +:+ ")"]
    ++ rest.
Proof.
  unfold generate_tail.
  erewrite bind_run by reflexivity.
  erewrite bind_run by reflexivity.
  match goal with
  | |- context [final (?m ?g2)] =>
      assert (Hrest : respects appends m);
      [|destruct (Hrest g2) as [L HL]; exists L; rewrite HL]
  end.
  - apply respects_bind; [typeclasses eauto| |intros d].
    { apply respects_lift. typeclasses eauto. }
    apply respects_bind; [typeclasses eauto| |intros t].
    { apply metas_get_respects. typeclasses eauto. }
    destruct t; [|apply respects_ret; typeclasses eauto].
    apply print_respects. intros l g0. exists [l]. reflexivity.
  - simpl. rewrite <- !app_assoc. reflexivity.
Qed.
End Keywords.

#[global] Instance keywords_grow_preorder : PreOrder keywords_grow.
Proof.
  split.
  - intros g. split; reflexivity.
  - intros g1 g2 g3 [H1 H2] [H3 H4]. split; etrans; eassumption.
Qed.

Lemma generate_keywords_grow `{ext : Externals} fuel f g o :
  generate fuel f g = Some o -> keywords_grow g (final o).
Proof.
  apply generate_respects; try typeclasses eauto;
    try (intros; split; simpl; set_solver).
  intros it. apply visit_respects; try typeclasses eauto;
    intros; split; simpl; set_solver.
Qed.




(** ** C4: the function generated for [start: NAME '+' NUMBER] *)

(** C4, as the code has it.  The run on [start: NAME '+' NUMBER] ends well
    and the function it writes for [start] has one alternative: it binds
    [name] to the name terminal, then [literal] to the literal ['+'], then
    [number] to the number terminal, and returns the sequence of the three
    bound values, the literal included. *)
Theorem name_plus_number_function :
  exists pre post,
    Reference.janet_lines Reference.name_plus_number 1
    = Some (pre
            ++ ["    (decorated-defn [@memoize] start [self]";
                "        # start: NAME '+' NUMBER";
                "        (var mark (:_mark self))";
                "        (when (and ";
                "            (var name (self name))";
                "            (var literal (expect " +:+ dquote +:+ "'+'" +:+ dquote +:+ "))";
                "            (var number (self number))";
                "        )";
                "            (return [name, literal, number])";
                "        (:_reset self mark)";
                "        (return None)";
                "    )"]
            ++ post)
    /\ length pre = 4 /\ length post = 4.
Proof.
  destruct (Reference.janet_lines Reference.name_plus_number 1) as [l|] eqn:E;
    [|vm_compute in E; discriminate].
  exists (firstn 4 l), (skipn 16 l).
  vm_compute in E. injection E as <-. vm_compute. auto.
Qed.

(** C4, the counterexample.  The value the generated alternative returns is
    not the pair of the name and the number: the literal, bound as
    [literal], is the second of three values. *)
Lemma name_plus_number_returns_literal :
  exists lines,
    Reference.janet_lines Reference.name_plus_number 1 = Some lines
    /\ In "            (return [name, literal, number])" lines
    /\ ~ In "            (return [name, number])" lines.
Proof.
  destruct (Reference.janet_lines Reference.name_plus_number 1) as [l|] eqn:E;
    [|vm_compute in E; discriminate].
  exists l. split; [reflexivity|].
  vm_compute in E. injection E as <-.
  split; [vm_compute; tauto|].
  intros H. vm_compute in H.
  repeat (destruct H as [H|H]; [discriminate H|]). exact H.
Qed.

(** ** C10: the cleanup statement of a [without_invalid] rule *)

(** C10, on the code.  For [x_without_invalid: 'a' ~ 'b' | 'c'] the function
    saves the flag and disables it at entry, and the returns that
    [add_return] writes come after the statement that restores it; the return
    of the cut guard is written without it. *)
Theorem cut_return_skips_cleanup :
  exists pre post,
    Reference.janet_lines Reference.cut_without_invalid 1
    = Some (pre
            ++ ["    (decorated-defn [@memoize] x_without_invalid [self]";
                "        # x_without_invalid: 'a' ~ 'b' | 'c'";
                "        (def _prev_call_invalid (self :call_invalid_rules))";
                "        (set self :call_invalid_rules False)";
                "        (var mark (:_mark self))";
                "        (set cut False)";
                "        (when (and ";
                "            (var literal (expect " +:+ dquote +:+ "'a'" +:+ dquote +:+ "))";
                "            (var cut true)";
                "            (var literal_1 (expect " +:+ dquote +:+ "'b'" +:+ dquote +:+ "))";
                "        )";
                "            (set self :call_invalid_rules _prev_call_invalid)";
                "            (return [literal, literal_1])";
                "        (:_reset self mark)";
                "        (when cut (return nil))";
                "        (when (and ";
                "            (var literal (expect " +:+ dquote +:+ "'c'" +:+ dquote +:+ "))";
                "        )";
                "            (set self :call_invalid_rules _prev_call_invalid)";
                "            (return literal)";
                "        (:_reset self mark)";
                "        (set self :call_invalid_rules _prev_call_invalid)";
                "        (return None)";
                "    )"]
            ++ post).
Proof.
  destruct (Reference.janet_lines Reference.cut_without_invalid 1) as [l|] eqn:E;
    [|vm_compute in E; discriminate].
  exists (firstn 15 l), (skipn 39 l).
  vm_compute in E. injection E as <-. vm_compute. reflexivity.
Qed.

(** ** C3: the trailing separator of a call text *)

Section LastChar.
Lemma endswith_cons a s suf :
  endswith (String a s) suf
  = if String.eqb (String a s) suf then true else endswith s suf.
Proof. reflexivity. Qed.

Lemma endswith_char s c :
  endswith s (String c EmptyString) = true <-> last_char s = Some c.
Proof.
  induction s as [|a s IH].
  - simpl. split; discriminate.
  - rewrite endswith_cons. destruct s as [|b s].
    + change (String a EmptyString =? String c EmptyString)%string
        with (if Ascii.eqb a c then true else false).
      simpl. destruct (Ascii.eqb_spec a c) as [->|Hne].
      * split; reflexivity.
      * split; [discriminate|]. intros [= ->]. contradiction.
    + assert (E : (String a (String b s) =? String c EmptyString)%string = false).
      { simpl. destruct (Ascii.eqb a c); reflexivity. }
      rewrite E. exact IH.
Qed.

Lemma endswith_char_false s c :
  endswith s (String c EmptyString) = false <-> last_char s <> Some c.
Proof.
  rewrite <- endswith_char. destruct (endswith s (String c EmptyString));
    split; congruence.
Qed.

Lemma last_char_app a b :
  b <> EmptyString -> last_char (a +:+ b) = last_char b.
Proof.
  intros Hb. induction a as [|x a IH]; [reflexivity|].
  change (String x a +:+ b) with (String x (a +:+ b)).
  simpl. destruct (a +:+ b) eqn:E; [|exact IH].
  destruct a; [|discriminate E]. simpl in E. contradiction.
Qed.

Lemma drop_last_app a b :
  b <> EmptyString -> drop_last (a +:+ b) = a +:+ drop_last b.
Proof.
  intros Hb. induction a as [|x a IH]; [reflexivity|].
  change (String x a +:+ b) with (String x (a +:+ b)).
  simpl. destruct (a +:+ b) eqn:E.
  - destruct a; [|discriminate E]. simpl in E. contradiction.
  - rewrite IH. reflexivity.
Qed.

Lemma append_empty_r a : a +:+ EmptyString = a.
Proof.
  induction a as [|x a IH]; [reflexivity|].
  change (String x a +:+ EmptyString) with (String x (a +:+ EmptyString)).
  f_equal. exact IH.
Qed.
End LastChar.

Lemma append_nonempty a b : b <> EmptyString -> a +:+ b <> EmptyString.
Proof. intros Hb. destruct a; [exact Hb | discriminate]. Qed.

Lemma ends_sep_app a b : b <> EmptyString -> ends_sep (a +:+ b) = ends_sep b.
Proof.
  intros Hb. unfold ends_sep.
  destruct (endswith b ",") eqn:E.
  - apply endswith_char. apply endswith_char in E.
    rewrite last_char_app by exact Hb. exact E.
  - apply endswith_char_false. apply endswith_char_false in E.
    rewrite last_char_app by exact Hb. exact E.
Qed.

Ltac nonempty := first [discriminate | apply append_nonempty; nonempty].

(** The separator test on a concatenation whose last piece is a literal. *)
Ltac ends_sep_literal :=
  repeat (rewrite drop_last_app by nonempty);
  repeat (rewrite ends_sep_app by nonempty);
  reflexivity.

Lemma ends_sep_comma a : ends_sep (a +:+ ",") = true /\ drop_last (a +:+ ",") = a.
Proof.
  split; [ends_sep_literal|].
  rewrite drop_last_app by discriminate. apply append_empty_r.
Qed.

Lemma call_ok_no_sep c : ends_sep c = false -> call_ok c.
Proof. intros H H'. congruence. Qed.

#[global] Instance keeps_cache_ok_preorder : PreOrder keeps_cache_ok.
Proof. split; [intros g H; exact H | intros g1 g2 g3 H1 H2 H; auto]. Qed.

Section CacheOk.
Context {ext : Externals}.

Lemma call_maker_ok_bind {A} (m : M A) (k : A -> M call) :
  respects keeps_cache_ok m ->
  (forall a, call_maker_ok (k a)) ->
  call_maker_ok (bind m k).
Proof.
  intros Hm Hk. split.
  - apply respects_bind; [typeclasses eauto|exact Hm|intros a; apply Hk].
  - intros g r g' Hg H. apply bind_Done in H as (a & g1 & H1 & H2).
    apply (Hk a) in H2; [exact H2|].
    exact (respects_Done _ _ _ _ _ Hm H1 Hg).
Qed.

Lemma call_maker_ok_ret c : call_ok (snd c) -> call_maker_ok (ret c).
Proof.
  intros Hc. split; [apply respects_ret; typeclasses eauto|].
  intros g r g' _ [= <- <-]. exact Hc.
Qed.

Lemma call_maker_ok_raise e : call_maker_ok (raise e).
Proof.
  split; [apply respects_raise; typeclasses eauto|]. intros g r g' _ H. discriminate H.
Qed.

Lemma call_maker_ok_store k v :
  call_ok (snd v) ->
  (fst k = CRepeat0 -> ends_sep (snd v) = true) ->
  (fst k = CRepeat1 \/ fst k = CGather -> ends_sep (snd v) = false) ->
  call_maker_ok (cache_store k v).
Proof.
  intros H1 H2 H3. split.
  - intros g Hg k' v'. rewrite cache_store_Done. simpl.
    destruct (decide (k = k')) as [<-|Hne].
    + rewrite lookup_insert_eq. intros [= <-]. auto.
    + rewrite lookup_insert_ne by exact Hne. apply Hg.
  - intros g r g' _. rewrite cache_store_Done. intros [= <- <-]. exact H1.
Qed.

Lemma call_maker_ok_hit k g v :
  cache_ok g -> g.(cache) !! k = Some v -> call_ok (snd v).
Proof. intros Hg H. apply (Hg k v H). Qed.

Ltac cache_same := intros; intros Hok; exact Hok.

Lemma name_loop_keeps n b : respects keeps_cache_ok (name_loop n b).
Proof. apply name_loop_respects; [typeclasses eauto|cache_same..]. Qed.

Lemma name_node_keeps r : respects keeps_cache_ok (name_node r).
Proof. apply name_node_respects; [typeclasses eauto|cache_same..]. Qed.

Lemma name_gather_keeps s n : respects keeps_cache_ok (name_gather s n).
Proof. apply name_gather_respects; [typeclasses eauto|cache_same..]. Qed.

Lemma visit_NameLeaf_ok v : call_maker_ok (visit_NameLeaf v).
Proof.
  unfold visit_NameLeaf.
  repeat match goal with
         | |- call_maker_ok (if ?b then _ else _) => destruct b
         end;
    try (apply call_maker_ok_ret; apply call_ok_no_sep; simpl; ends_sep_literal).
  apply call_maker_ok_bind; [apply respects_lift; typeclasses eauto|intros e].
  apply call_maker_ok_ret, call_ok_no_sep. simpl. ends_sep_literal.
Qed.

Lemma visit_StringLeaf_ok v : call_maker_ok (visit_StringLeaf v).
Proof.
  unfold visit_StringLeaf.
  apply call_maker_ok_bind; [apply respects_lift; typeclasses eauto|intros val].
  apply call_maker_ok_bind.
  { repeat respects_step keeps_cache_ok; cache_same. }
  intros _.
  apply call_maker_ok_bind; [apply respects_lift; typeclasses eauto|intros e].
  apply call_maker_ok_ret, call_ok_no_sep. simpl. ends_sep_literal.
Qed.

Lemma lookahead_split_keeps c : respects keeps_cache_ok (lookahead_split c).
Proof. apply lookahead_split_respects. typeclasses eauto. Qed.

Lemma call_maker_ok_get (k : Gen -> M call) :
  (forall g, cache_ok g ->
             cache_ok (final (k g g))
             /\ forall r g', k g g = Done r g' -> call_ok (snd r)) ->
  call_maker_ok (bind get k).
Proof.
  intros H. split.
  - intros g Hg. rewrite bind_get. apply H, Hg.
  - intros g r g' Hg. rewrite bind_get. apply H, Hg.
Qed.

Lemma call_maker_ok_at (m : M call) g :
  call_maker_ok m -> cache_ok g ->
  cache_ok (final (m g)) /\ forall r g', m g = Done r g' -> call_ok (snd r).
Proof.
  intros [H1 H2] Hg. split; [apply H1, Hg|]. intros r g'. apply H2, Hg.
Qed.

(** Storing what a visit returned, under an [Rhs] key. *)
Lemma call_maker_ok_store_visit (m : M call) (f : call -> call) i :
  call_maker_ok m ->
  (forall r, snd (f r) = snd r) ->
  call_maker_ok (r <- m ;; cache_store (CRhs, i) (f r)).
Proof.
  intros [Hm1 Hm2] Hf. split.
  - intros g Hg. unfold bind.
    pose proof (Hm1 g Hg) as Hfin.
    destruct (m g) as [r g1|e g1] eqn:E; simpl in Hfin; [|exact Hfin].
    rewrite cache_store_Done. simpl. intros k' v'. simpl.
    destruct (decide ((CRhs, i) = k')) as [<-|Hne].
    + rewrite lookup_insert_eq. intros [= <-]. rewrite Hf. simpl.
      split; [exact (Hm2 g r g1 Hg E)|]. split; [discriminate|].
      intros [|]; discriminate.
    + rewrite lookup_insert_ne by exact Hne. apply Hfin.
  - intros g r g' Hg Hb. apply bind_Done in Hb as (r0 & g1 & H1 & H2).
    rewrite cache_store_Done in H2. injection H2 as <- <-.
    rewrite Hf. exact (Hm2 g r0 g1 Hg H1).
Qed.

Lemma visit_ok :
  (forall it, call_maker_ok (visit it)) /\ (forall r, call_maker_ok (visit_Rhs r)).
Proof.
  apply Item_Rhs_ind.
  - apply visit_NameLeaf_ok.
  - apply visit_StringLeaf_ok.
  - intros r Hr. exact Hr.
  - intros r Hr. exact Hr.
  - intros n [Hn1 Hn2]. simpl. split.
    + apply respects_bind; [typeclasses eauto|exact Hn1|intros r].
      destruct (endswith (snd r) ","); apply respects_ret; typeclasses eauto.
    + intros g r g' Hg H. apply bind_Done in H as (r0 & g1 & H1 & H2).
      specialize (Hn2 g r0 g1 Hg H1).
      destruct (endswith (snd r0) ",") eqn:E; injection H2 as <- <-; simpl.
      * exact Hn2.
      * intros _. destruct (ends_sep_comma (snd r0)) as [_ ->]. exact E.
  - intros i n _. simpl. apply call_maker_ok_get. intros g Hg.
    destruct (cache g !! (CRepeat0, i)) as [v|] eqn:E.
    + split; [exact Hg|]. intros r g' [= <- <-].
      exact (call_maker_ok_hit _ _ _ Hg E).
    + apply call_maker_ok_at; [|exact Hg].
      apply call_maker_ok_bind; [apply name_loop_keeps|intros nm].
      apply call_maker_ok_store; simpl.
      * intros _. ends_sep_literal.
      * intros _. ends_sep_literal.
      * intros [|]; discriminate.
  - intros i n _. simpl. apply call_maker_ok_get. intros g Hg.
    destruct (cache g !! (CRepeat1, i)) as [v|] eqn:E.
    + split; [exact Hg|]. intros r g' [= <- <-].
      exact (call_maker_ok_hit _ _ _ Hg E).
    + apply call_maker_ok_at; [|exact Hg].
      apply call_maker_ok_bind; [apply name_loop_keeps|intros nm].
      apply call_maker_ok_store; simpl.
      * apply call_ok_no_sep. ends_sep_literal.
      * discriminate.
      * intros _. ends_sep_literal.
  - intros i sep n _ _. simpl. apply call_maker_ok_get. intros g Hg.
    destruct (cache g !! (CGather, i)) as [v|] eqn:E.
    + split; [exact Hg|]. intros r g' [= <- <-].
      exact (call_maker_ok_hit _ _ _ Hg E).
    + apply call_maker_ok_at; [|exact Hg].
      apply call_maker_ok_bind; [apply name_gather_keeps|intros nm].
      apply call_maker_ok_store; simpl.
      * apply call_ok_no_sep. ends_sep_literal.
      * discriminate.
      * intros _. ends_sep_literal.
  - intros n [Hn1 _]. simpl.
    apply call_maker_ok_bind; [exact Hn1|intros r].
    apply call_maker_ok_bind; [apply lookahead_split_keeps|intros ht].
    apply call_maker_ok_ret, call_ok_no_sep. simpl. ends_sep_literal.
  - intros n [Hn1 _]. simpl.
    apply call_maker_ok_bind; [exact Hn1|intros r].
    apply call_maker_ok_bind; [apply lookahead_split_keeps|intros ht].
    apply call_maker_ok_ret, call_ok_no_sep. simpl. ends_sep_literal.
  - simpl. apply call_maker_ok_ret. apply call_ok_no_sep. reflexivity.
  - intros n Hn.
    destruct n; try (simpl; apply call_maker_ok_raise).
    + simpl. apply call_maker_ok_bind; [apply respects_lift; typeclasses eauto|intros e].
      apply call_maker_ok_ret, call_ok_no_sep. simpl. ends_sep_literal.
    + simpl. apply call_maker_ok_bind; [apply respects_lift; typeclasses eauto|intros e].
      apply call_maker_ok_ret, call_ok_no_sep. simpl. ends_sep_literal.
    + simpl in *. destruct Hn as [Hn1 _].
      apply call_maker_ok_bind; [exact Hn1|intros v].
      apply call_maker_ok_bind; [apply respects_lift; typeclasses eauto|intros e].
      apply call_maker_ok_ret, call_ok_no_sep. simpl. ends_sep_literal.
  - intros i al H. simpl. apply call_maker_ok_get. intros g Hg.
    destruct (cache g !! (CRhs, i)) as [v|] eqn:E.
    + split; [exact Hg|]. intros r g' [= <- <-].
      exact (call_maker_ok_hit _ _ _ Hg E).
    + apply call_maker_ok_at; [|exact Hg].
      assert (Hnn : call_maker_ok
                (nm <- name_node (mkRhs i al) ;;
                 cache_store (CRhs, i) (Some nm, "(self " +:+ nm +:+ ")"))).
      { apply call_maker_ok_bind; [apply name_node_keeps|intros nm].
        apply call_maker_ok_store; simpl.
        - apply call_ok_no_sep. ends_sep_literal.
        - discriminate.
        - intros [|]; discriminate. }
      destruct al as [|[its act] al]; [exact Hnn|].
      destruct al; [|destruct its as [|[] [|]]; exact Hnn].
      destruct its as [|[nm it] [|]]; try exact Hnn.
      inversion H as [|? ? Ha _]; subst. inversion Ha as [|? ? Hit _]; subst.
      simpl in Hit.
      apply call_maker_ok_store_visit; [exact Hit|].
      intros r. unfold named_item_call. destruct (truthy nm); reflexivity.
Qed.
End CacheOk.

Section CacheOkRun.
Context {ext : Externals}.

Lemma cache_ok_empty g : g.(cache) = ∅ -> cache_ok g.
Proof. intros E k v. rewrite E, lookup_empty. discriminate. Qed.

(** The cache of a new generator is empty, and a run keeps it well-formed. *)
Lemma JanetParserGenerator_cache_ok gr lf uf g :
  JanetParserGenerator gr lf uf = Ok g -> cache_ok g.
Proof.
  unfold JanetParserGenerator. destruct (ParserGenerator_init gr); [|discriminate].
  intros [= <-]. apply cache_ok_empty. reflexivity.
Qed.

Lemma generate_cache_ok fuel f g o :
  generate fuel f g = Some o -> cache_ok g -> cache_ok (final o).
Proof.
  apply (generate_respects keeps_cache_ok); try (intros; intros Hok; exact Hok).
  intros it. apply visit_ok.
Qed.

Lemma cached_miss_result (m : M string) (f : string -> call) k g r g' :
  (nm <- m ;; cache_store k (f nm)) g = Done r g' -> exists nm, r = f nm.
Proof.
  intros H. apply bind_Done in H as (nm & g1 & _ & H).
  rewrite cache_store_Done in H. injection H as <- <-. exists nm. reflexivity.
Qed.
End CacheOkRun.

(** C3.  Over a well-formed cache (that of every state of a run), the call
    text of a one-or-more repeat does not end with the separator, that of a
    zero-or-more repeat does, that of a gather does not, and that of an
    optional item ends with exactly one: it is the inner call text itself when
    that ends with the separator, and the inner call text followed by one
    separator otherwise. *)
Theorem separator_convention `{ext : Externals}
    (node : Item) (g g' : Gen) (r : call) :
  cache_ok g ->
  visit node g = Done r g' ->
  match node with
  | Repeat1 _ _ => ends_sep (snd r) = false
  | Repeat0 _ _ => ends_sep (snd r) = true
  | Gather _ _ _ => ends_sep (snd r) = false
  | Opt n =>
      ends_sep (snd r) = true
      /\ ends_sep (drop_last (snd r)) = false
      /\ exists r0,
           visit n g = Done r0 g'
           /\ snd r = if ends_sep (snd r0) then snd r0 else snd r0 +:+ ","
  | _ => True
  end.
Proof.
  intros Hg H. destruct node; try exact I; simpl in H.
  - apply bind_Done in H as (r0 & g1 & H1 & H2).
    pose proof (proj2 (proj1 visit_ok node) g r0 g1 Hg H1) as Hr0.
    fold (ends_sep (snd r0)) in H2.
    destruct (ends_sep (snd r0)) eqn:E; injection H2 as <- <-; simpl.
    + split; [exact E|]. split; [exact (Hr0 E)|].
      exists r0. rewrite E. auto.
    + destruct (ends_sep_comma (snd r0)) as [Hc Hd].
      split; [exact Hc|]. split; [rewrite Hd; exact E|].
      exists r0. rewrite E. auto.
  - rewrite bind_get in H.
    destruct (cache g !! (CRepeat0, id)) as [v|] eqn:E.
    + injection H as <- <-. apply (Hg _ _ E). reflexivity.
    + apply (cached_miss_result _ (fun nm => (Some nm, "(self " +:+ nm +:+ "),")))
        in H as [nm ->].
      simpl. ends_sep_literal.
  - rewrite bind_get in H.
    destruct (cache g !! (CRepeat1, id)) as [v|] eqn:E.
    + injection H as <- <-. apply (Hg _ _ E). left. reflexivity.
    + apply (cached_miss_result _ (fun nm => (Some nm, "(self " +:+ nm +:+ ")")))
        in H as [nm ->].
      simpl. ends_sep_literal.
  - rewrite bind_get in H.
    destruct (cache g !! (CGather, id)) as [v|] eqn:E.
    + injection H as <- <-. apply (Hg _ _ E). right. reflexivity.
    + apply (cached_miss_result _ (fun nm => (Some nm, "(self " +:+ nm +:+ ")")))
        in H as [nm ->].
      simpl. ends_sep_literal.
Qed.

Lemma separator_convention_witness :
  let g := Reference.generator_of Reference.name_plus_number in
  let node := Opt (Repeat0 (Parsed 7) (NameLeaf "NAME")) in
  exists r g',
    cache_ok g /\ visit node g = Done r g'
    /\ ends_sep (snd r) = true /\ ends_sep (drop_last (snd r)) = false.
Proof.
  intros g node.
  assert (Hg : cache_ok g) by (apply cache_ok_empty; reflexivity).
  destruct (visit node g) as [r g'|e g'] eqn:E; [|vm_compute in E; discriminate].
  exists r, g'. split; [exact Hg|]. split; [reflexivity|].
  pose proof (@separator_convention Reference.externals node g g' r Hg E) as H.
  simpl in H. destruct H as (H1 & H2 & _). auto.
Defined.

(** ** C1: the cut flag and its guard *)

#[global] Instance inner_preorder : PreOrder inner.
Proof.
  split.
  - intros g. split; reflexivity.
  - intros g1 g2 g3 [H1 H2] [H3 H4]. split; [congruence|etrans; eassumption].
Qed.

Ltac inner_same := intros; split; [reflexivity|exists []; simpl; symmetry; apply app_nil_r].

Section Inner.
Context {ext : Externals}.

Lemma print_Done s g :
  print s g = Done tt (set_file (g.(file) ++ [at_level g.(level) s]) g).
Proof. reflexivity. Qed.

Lemma indent_Done {A} (m : M A) g a g' :
  indent m g = Done a g' ->
  exists g1, m (set_level (S g.(level)) g) = Done a g1
             /\ g' = set_level (pred g1.(level)) g1.
Proof.
  unfold indent. intros H.
  apply bind_Done in H as ([] & g0 & H0 & H). injection H0 as <-.
  apply bind_Done in H as (a' & g1 & H1 & H).
  apply bind_Done in H as ([] & g2 & H2 & H). injection H2 as <-.
  injection H as <- <-. exists g1. auto.
Qed.

Lemma local_variable_context_Done {A} (m : M A) g a g' :
  local_variable_context m g = Done a g' ->
  exists g1, m (set_local_variable_stack ([] :: g.(local_variable_stack)) g) = Done a g1
             /\ g' = set_local_variable_stack (tail g1.(local_variable_stack)) g1.
Proof.
  unfold local_variable_context. intros H.
  apply bind_Done in H as ([] & g0 & H0 & H). injection H0 as <-.
  apply bind_Done in H as (a' & g1 & H1 & H).
  apply bind_Done in H as ([] & g2 & H2 & H). injection H2 as <-.
  injection H as <- <-. exists g1. auto.
Qed.

Lemma visit_inner it : respects inner (visit it).
Proof. apply visit_respects; [typeclasses eauto|inner_same..]. Qed.

Lemma print_inner l g : inner g (set_file (g.(file) ++ [l]) g).
Proof. split; [reflexivity|]. exists [l]. reflexivity. Qed.

Lemma visit_Alt_items_inner node ig hi u used :
  respects inner (visit_Alt_items node ig hi u used).
Proof.
  apply visit_Alt_items_respects;
    [typeclasses eauto|apply visit_inner|apply print_inner|inner_same].
Qed.

Lemma print_action_inner act l u ig il hi :
  respects inner (print_action act l u ig il hi).
Proof.
  apply print_action_respects; [typeclasses eauto|apply print_inner].
Qed.

Lemma visit_Alt_inner node il ig g g' :
  visit_Alt node il ig g = Done tt g' -> inner g g'.
Proof.
  intros H. split.
  - unfold visit_Alt in H. rewrite bind_get in H.
    destruct (alt_action node ig (invalid_visit_Alt node)
                (location_formatting g) (unreachable_formatting g))
      as [[act locations] unreachable].
    apply local_variable_context_Done in H as (g1 & H & ->). simpl.
    apply bind_Done in H as ([] & ga & Ha & H).
    assert (La : level ga = level g).
    { destruct (has_cut node); injection Ha as <-; reflexivity. }
    apply bind_Done in H as ([] & gb & Hb & H).
    assert (Lb : level gb = level g).
    { destruct il; rewrite print_Done in Hb; injection Hb as <-; exact La. }
    apply bind_Done in H as ([] & gc & Hc & H).
    apply indent_Done in Hc as (gc' & Hc & ->).
    apply (respects_Done inner _ _ _ _ (visit_Alt_items_inner _ _ _ _ _)) in Hc
      as [Lc _]. simpl in Lc.
    apply bind_Done in H as ([] & gd & Hd & H).
    rewrite print_Done in Hd. injection Hd as <-.
    apply bind_Done in H as ([] & ge & He & H).
    apply indent_Done in He as (ge' & He & ->).
    apply (respects_Done inner _ _ _ _ (print_action_inner _ _ _ _ _ _)) in He
      as [Le _]. simpl in Le.
    apply bind_Done in H as ([] & gf & Hf & H).
    rewrite print_Done in Hf. injection Hf as <-.
    destruct (has_cut node); injection H as <-; simpl;
      rewrite Le, Lc, Lb; reflexivity.
  - apply (respects_Done appends _ _ _ _ (visit_Alt_appends node il ig)) in H.
    exact H.
Qed.
End Inner.

Section CutLines.
Context {ext : Externals}.





End CutLines.



(** ** C7: the worklist *)

(** *** Dictionaries *)

Section DictFacts.
Context {V : Type}.

Lemma Dict_set_fresh (d : list (string * V)) k v :
  k ∉ Dict.keys d -> Dict.set d k v = d ++ [(k, v)].
Proof.
  induction d as [|[k' v'] d IH]; intros Hk; [reflexivity|].
  simpl in *. apply not_elem_of_cons in Hk as [Hne Hk].
  destruct (String.eqb_spec k k') as [->|_]; [contradiction|].
  rewrite IH by exact Hk. reflexivity.
Qed.

Lemma Dict_del_head (d : list (string * V)) k v :
  Dict.del ((k, v) :: d) k = Some d.
Proof. simpl. rewrite String.eqb_refl. reflexivity. Qed.

Lemma Dict_keys_app (d1 d2 : list (string * V)) :
  Dict.keys (d1 ++ d2) = Dict.keys d1 ++ Dict.keys d2.
Proof. unfold Dict.keys. apply map_app. Qed.

Lemma Dict_set_keys_present (d : list (string * V)) k v :
  k ∈ Dict.keys d -> Dict.keys (Dict.set d k v) = Dict.keys d.
Proof.
  induction d as [|[k' v'] d IH]; intros Hin; [inversion Hin|].
  simpl in *. destruct (String.eqb_spec k k') as [->|Hne]; [reflexivity|].
  simpl. f_equal. apply IH. apply elem_of_cons in Hin as [E|Hin]; [congruence|exact Hin].
Qed.

Lemma Dict_set_keys_NoDup (d : list (string * V)) k v :
  NoDup (Dict.keys d) -> NoDup (Dict.keys (Dict.set d k v)).
Proof.
  intros Hd. destruct (decide (k ∈ Dict.keys d)) as [Hin|Hout].
  - rewrite Dict_set_keys_present by exact Hin. exact Hd.
  - rewrite Dict_set_fresh by exact Hout. rewrite Dict_keys_app. simpl.
    apply NoDup_app. split; [exact Hd|]. split; [|apply NoDup_singleton].
    intros x Hx Hx'. apply list_elem_of_singleton in Hx' as ->. contradiction.
Qed.

Lemma Dict_set_keys_elem (d : list (string * V)) k v x :
  x ∈ Dict.keys (Dict.set d k v) -> x = k \/ x ∈ Dict.keys d.
Proof.
  destruct (decide (k ∈ Dict.keys d)) as [Hin|Hout].
  - rewrite Dict_set_keys_present by exact Hin. auto.
  - rewrite Dict_set_fresh by exact Hout. rewrite Dict_keys_app. simpl.
    intros H. apply elem_of_app in H as [H|H]; [auto|].
    apply list_elem_of_singleton in H. auto.
Qed.
End DictFacts.

(** *** The names of rules *)

Lemma synth_name_underscore n s : synth_name n s -> startswith s "_" = true.
Proof. intros [ -> | [ -> | [ -> | -> ] ] ]; reflexivity. Qed.

Lemma synth_name_index n m s : synth_name n s -> synth_name m s -> n = m.
Proof.
  intros [ -> | [ -> | [ -> | -> ] ] ] [H|[H|[H|H]]];
    try (apply (inj (String.append _)) in H; apply (inj pretty) in H; congruence);
    exfalso; cbv [String.append] in H; discriminate H.
Qed.

Lemma name_ok_mono c c' s : c <= c' -> name_ok c s -> name_ok c' s.
Proof.
  intros Hc [H|(n & Hn & H)]; [left; exact H|]. right. exists n. split; [lia|exact H].
Qed.

Lemma between_name_ok c c' s : between c c' s -> name_ok c' s.
Proof. intros (n & _ & Hn & H). right. exists n. auto. Qed.

Lemma between_fresh c c' s : name_ok c s -> between c c' s -> False.
Proof.
  intros [H|(n & Hn & H)] (m & Hm & _ & H').
  - apply synth_name_underscore in H'. congruence.
  - pose proof (synth_name_index _ _ _ H H'). lia.
Qed.

Lemma between_mono c1 c2 c1' c2' s :
  c1' <= c1 -> c2 <= c2' -> between c1 c2 s -> between c1' c2' s.
Proof. intros H1 H2 (n & Ha & Hb & H). exists n. repeat split; [lia|lia|exact H]. Qed.

Lemma between_disjoint c1 c2 c3 s : between c1 c2 s -> between c2 c3 s -> False.
Proof.
  intros (n & _ & Hn & H) (m & Hm & _ & H').
  pose proof (synth_name_index _ _ _ H H'). lia.
Qed.

(** *** The weight of the worklist *)

Lemma todo_weight_app d1 d2 :
  todo_weight (d1 ++ d2) = todo_weight d1 + todo_weight d2.
Proof. unfold todo_weight. rewrite map_app. apply list_sum_app. Qed.

Lemma todo_weight_cons k r d :
  todo_weight ((k, r) :: d) = rule_weight r + todo_weight d.
Proof. reflexivity. Qed.

Lemma todo_weight_set d k r :
  todo_weight (Dict.set d k r) <= todo_weight d + rule_weight r.
Proof.
  induction d as [|[k' r'] d IH]; cbn [Dict.set].
  - unfold todo_weight, rule_weight. simpl. lia.
  - destruct (String.eqb k k'); rewrite !todo_weight_cons; lia.
Qed.


Lemma flatten_budget r : rhs_budget (flatten r) <= rhs_budget r.(rhs).
Proof.
  unfold flatten. destruct (rhs r) as [i al].
  repeat match goal with
         | |- context [match ?x with _ => _ end] => destruct x
         end;
    try apply Nat.le_refl.
  simpl. lia.
Qed.

#[global] Instance same_todo_preorder : PreOrder same_todo.
Proof. split; [intros g; reflexivity | intros g1 g2 g3 H1 H2; unfold same_todo in *; congruence]. Qed.

Section Spends.
Context {ext : Externals}.

Lemma spends_mono {A} B B' (m : M A) : B <= B' -> spends B m -> spends B' m.
Proof. intros HB H g. specialize (H g). lia. Qed.

Lemma spends_same {A} (m : M A) : respects same_todo m -> spends 0 m.
Proof. intros H g. rewrite (H g). lia. Qed.

Lemma spends_ret {A} (a : A) : spends 0 (ret a).
Proof. intros g. simpl. lia. Qed.

Lemma spends_raise {A} e : spends 0 (@raise A e).
Proof. intros g. simpl. lia. Qed.

Lemma spends_bind {A B} B1 B2 (m : M A) (k : A -> M B) :
  spends B1 m -> (forall a, spends B2 (k a)) -> spends (B1 + B2) (bind m k).
Proof.
  intros Hm Hk g. unfold bind. specialize (Hm g).
  destruct (m g) as [a g1|e g1]; simpl in *; [|lia].
  specialize (Hk a g1). lia.
Qed.

Lemma spends_bind_l {A B} B1 (m : M A) (k : A -> M B) :
  spends B1 m -> (forall a, spends 0 (k a)) -> spends B1 (bind m k).
Proof.
  intros Hm Hk. apply (spends_mono (B1 + 0)); [lia|]. apply spends_bind; assumption.
Qed.

Lemma spends_bind_r {A B} B2 (m : M A) (k : A -> M B) :
  spends 0 m -> (forall a, spends B2 (k a)) -> spends B2 (bind m k).
Proof. intros Hm Hk. apply (spends_bind 0 B2); assumption. Qed.

Lemma spends_for_each {A} (f : A -> M unit) (b : A -> nat) l :
  (forall x, spends (b x) (f x)) -> spends (list_sum (map b l)) (for_each f l).
Proof.
  intros Hf. induction l as [|x l IH]; simpl; [apply spends_ret|].
  apply spends_bind; [apply Hf|intros _; exact IH].
Qed.

Ltac same_todo_prim := intros; reflexivity.

Lemma print_spends s : spends 0 (print s).
Proof. apply spends_same, print_respects. same_todo_prim. Qed.

Lemma todo_set_spends nm r : spends (rule_weight r) (todo_set nm r).
Proof. intros g. simpl. apply todo_weight_set. Qed.

Lemma next_counter_spends : spends 0 next_counter.
Proof. intros g. simpl. lia. Qed.

Lemma name_node_spends r : spends (S (rhs_budget r)) (name_node r).
Proof.
  unfold name_node. apply spends_bind_r; [apply next_counter_spends|intros n].
  apply spends_bind_l; [apply todo_set_spends|intros _; apply spends_ret].
Qed.

Lemma name_loop_spends n b : spends (S (budget n + 0 + 0)) (name_loop n b).
Proof.
  unfold name_loop. apply spends_bind_r; [apply next_counter_spends|intros c].
  apply spends_bind_l; [apply todo_set_spends|intros _; apply spends_ret].
Qed.

Lemma name_gather_spends s n :
  spends (S (budget s + (budget n + 0) + 0) + S (budget n + (0 + 0) + 0))
         (name_gather s n).
Proof.
  unfold name_gather. apply spends_bind_r; [apply next_counter_spends|intros c].
  apply spends_bind_r; [apply next_counter_spends|intros c'].
  apply spends_bind; [apply todo_set_spends|intros _].
  apply spends_bind_l; [apply todo_set_spends|intros _; apply spends_ret].
Qed.

Lemma cache_store_spends k v : spends 0 (cache_store k v).
Proof. intros g. simpl. lia. Qed.

Lemma spends_get {A} B (k : Gen -> M A) :
  (forall g, spends B (k g)) -> spends B (bind get k).
Proof. intros H g. rewrite bind_get. apply H. Qed.

Lemma visit_spends :
  (forall it, spends (budget it) (visit it))
  /\ (forall r, spends (S (rhs_budget r)) (visit_Rhs r)).
Proof.
  apply Item_Rhs_ind.
  - intros v. apply spends_same, visit_NameLeaf_respects. typeclasses eauto.
  - intros v. apply spends_same, visit_StringLeaf_respects;
      [typeclasses eauto|same_todo_prim..].
  - intros r Hr. exact Hr.
  - intros r Hr. exact Hr.
  - intros n Hn. simpl.
    apply spends_bind_l; [exact Hn|intros r].
    destruct (endswith (snd r) ","); apply spends_ret.
  - intros i n _. simpl. apply spends_get. intros g.
    destruct (cache g !! (CRepeat0, i)); [apply (spends_mono 0); [lia|apply spends_ret]|].
    apply spends_bind_l; [apply name_loop_spends|intros nm; apply cache_store_spends].
  - intros i n _. simpl. apply spends_get. intros g.
    destruct (cache g !! (CRepeat1, i)); [apply (spends_mono 0); [lia|apply spends_ret]|].
    apply spends_bind_l; [apply name_loop_spends|intros nm; apply cache_store_spends].
  - intros i s n _ _. simpl. apply spends_get. intros g.
    destruct (cache g !! (CGather, i)); [apply (spends_mono 0); [lia|apply spends_ret]|].
    apply spends_bind_l; [apply name_gather_spends|intros nm; apply cache_store_spends].
  - intros n Hn. simpl.
    apply spends_bind_l; [exact Hn|intros r].
    apply spends_bind_l; [|intros ht; apply spends_ret].
    apply spends_same, lookahead_split_respects. typeclasses eauto.
  - intros n Hn. simpl.
    apply spends_bind_l; [exact Hn|intros r].
    apply spends_bind_l; [|intros ht; apply spends_ret].
    apply spends_same, lookahead_split_respects. typeclasses eauto.
  - simpl. apply spends_ret.
  - intros n Hn.
    destruct n; try (simpl; apply (spends_mono 0); [lia|apply spends_raise]).
    + simpl. apply spends_bind_l; [|intros e; apply spends_ret].
      apply spends_same, respects_lift. typeclasses eauto.
    + simpl. apply spends_bind_l; [|intros e; apply spends_ret].
      apply spends_same, respects_lift. typeclasses eauto.
    + simpl in *. apply spends_bind_l; [exact Hn|intros v].
      apply spends_bind_l; [|intros e; apply spends_ret].
      apply spends_same, respects_lift. typeclasses eauto.
  - intros i al H. simpl. apply spends_get. intros g.
    destruct (cache g !! (CRhs, i)); [apply (spends_mono 0); [lia|apply spends_ret]|].
    assert (Hnn : spends (S (list_sum (map alt_budget al)))
              (nm <- name_node (mkRhs i al) ;;
               cache_store (CRhs, i) (Some nm, "(self " +:+ nm +:+ ")"))).
    { apply spends_bind_l; [apply (name_node_spends (mkRhs i al))|].
      intros nm. apply cache_store_spends. }
    destruct al as [|[its act] al]; [exact Hnn|].
    destruct al; [|destruct its as [|[] [|]]; exact Hnn].
    destruct its as [|[nm it] [|]]; try exact Hnn.
    inversion H as [|? ? Ha _]; subst. inversion Ha as [|? ? Hit _]; subst.
    simpl in Hit. apply (spends_mono (budget it)); [simpl; lia|].
    apply spends_bind_l; [exact Hit|intros r; apply cache_store_spends].
Qed.
End Spends.

Section SpendsRule.
Context {ext : Externals}.

Ltac same_todo_prim := intros; reflexivity.

Lemma modify_spends f : (forall g, (f g).(todo) = g.(todo)) -> spends 0 (modify f).
Proof. intros H g. simpl. rewrite H. lia. Qed.

Lemma if_print_spends (b : bool) s : spends 0 (if b then print s else ret tt).
Proof. destruct b; [apply print_spends|apply spends_ret]. Qed.

Lemma indent_spends {A} B (body : M A) : spends B body -> spends B (indent body).
Proof.
  intros Hb. unfold indent.
  apply spends_bind_r; [apply modify_spends; same_todo_prim|intros _].
  apply spends_bind_l; [exact Hb|intros a].
  apply spends_bind_l; [apply modify_spends; same_todo_prim|intros _; apply spends_ret].
Qed.

Lemma local_variable_context_spends {A} B (body : M A) :
  spends B body -> spends B (local_variable_context body).
Proof.
  intros Hb. unfold local_variable_context.
  apply spends_bind_r; [apply modify_spends; same_todo_prim|intros _].
  apply spends_bind_l; [exact Hb|intros a].
  apply spends_bind_l; [apply modify_spends; same_todo_prim|intros _; apply spends_ret].
Qed.

Lemma add_return_spends v : spends 0 (add_return v).
Proof. apply spends_same, add_return_respects; [typeclasses eauto|same_todo_prim]. Qed.

Lemma print_action_spends act l u ig il hi : spends 0 (print_action act l u ig il hi).
Proof. apply spends_same, print_action_respects; [typeclasses eauto|same_todo_prim]. Qed.

Lemma dedupe_spends nm : spends 0 (dedupe nm).
Proof. apply spends_same, dedupe_respects; [typeclasses eauto|same_todo_prim]. Qed.

Lemma visit_NamedItem_spends node used u :
  spends (named_item_budget node) (visit_NamedItem node used u).
Proof.
  destruct node as [nm it]. unfold visit_NamedItem. simpl.
  apply spends_bind_l; [apply visit_spends|intros r].
  match goal with |- spends 0 (if ?b then _ else _) => destruct b end;
    [apply print_spends|].
  apply spends_bind_l; [|intros x; apply print_spends].
  match goal with |- spends 0 (if ?b then _ else _) => destruct b end;
    [apply dedupe_spends|apply spends_ret].
Qed.

Lemma visit_Alt_items_spends node ig hi u used :
  spends (alt_budget node) (visit_Alt_items node ig hi u used).
Proof.
  destruct node as [its act]. unfold visit_Alt_items. simpl.
  apply spends_bind_r; [apply if_print_spends|intros _].
  apply spends_for_each. intros it.
  apply spends_bind_r; [apply if_print_spends|intros _].
  apply spends_bind_l; [apply visit_NamedItem_spends|intros _; apply if_print_spends].
Qed.

Lemma visit_Alt_spends node il ig : spends (alt_budget node) (visit_Alt node il ig).
Proof.
  unfold visit_Alt. apply spends_get. intros g.
  destruct (alt_action node ig (invalid_visit_Alt node)
              (location_formatting g) (unreachable_formatting g))
    as [[act locations] unreachable].
  apply local_variable_context_spends.
  apply spends_bind_r; [apply if_print_spends|intros _].
  apply spends_bind_r; [destruct il; apply print_spends|intros _].
  apply spends_bind_l; [apply indent_spends, visit_Alt_items_spends|intros _].
  apply spends_bind_r; [apply print_spends|intros _].
  apply spends_bind_r; [apply indent_spends, print_action_spends|intros _].
  apply spends_bind_r; [apply print_spends|intros _].
  apply if_print_spends.
Qed.

Lemma gen_visit_Rhs_spends node il ig :
  spends (rhs_budget node) (gen_visit_Rhs node il ig).
Proof.
  destruct node as [i al]. unfold gen_visit_Rhs. simpl.
  apply spends_bind_r.
  { destruct il; [|apply spends_ret].
    apply spends_same, respects_assert. typeclasses eauto. }
  intros _. apply spends_for_each. intros a. apply visit_Alt_spends.
Qed.

Lemma visit_Rule_body_spends node :
  spends (rhs_budget (flatten node)) (visit_Rule_body node).
Proof.
  unfold visit_Rule_body.
  apply spends_bind_r; [apply print_spends|intros _].
  apply spends_bind_r; [apply if_print_spends|intros _].
  apply spends_bind_r.
  { destruct (endswith (name node) "without_invalid"); [|apply spends_ret].
    apply spends_bind_r; [apply print_spends|intros _].
    apply spends_bind_r; [apply print_spends|intros _].
    apply modify_spends. same_todo_prim. }
  intros _.
  apply spends_bind_r; [apply print_spends|intros _].
  apply spends_bind_r.
  { destruct (alts_uses_locations (alts (rhs node))); [|apply spends_ret].
    apply spends_bind_r; [apply print_spends|intros _; apply print_spends]. }
  intros _.
  apply spends_bind_r; [apply if_print_spends|intros _].
  apply spends_bind_l; [apply gen_visit_Rhs_spends|intros _].
  destruct (is_loop node); apply add_return_spends.
Qed.

Lemma visit_Rule_spends node : spends (rhs_budget (flatten node)) (visit_Rule node).
Proof.
  unfold visit_Rule.
  apply spends_bind_r; [apply print_spends|intros _].
  apply spends_bind_l; [apply indent_spends, visit_Rule_body_spends|intros _].
  apply spends_bind_r; [apply print_spends|intros _].
  destruct (endswith (name node) "without_invalid"); [|apply spends_ret].
  apply modify_spends. same_todo_prim.
Qed.

Lemma todo_del_head k r rest g :
  g.(todo) = (k, r) :: rest -> todo_del k g = Done tt (set_todo rest g).
Proof.
  intros E. unfold todo_del. rewrite bind_get. rewrite E, Dict_del_head. reflexivity.
Qed.

(** Emitting the rule at the head of the worklist makes the worklist
    lighter. *)
Lemma emit_rule_lighter k r rest g :
  g.(todo) = (k, r) :: rest ->
  todo_weight (final (emit_rule (k, r) g)).(todo) < todo_weight g.(todo).
Proof.
  intros E. unfold emit_rule. simpl fst. simpl snd.
  rewrite (bind_run _ _ _ _ _ (todo_del_head _ _ _ _ E)).
  assert (H : spends (rhs_budget (flatten r))
                (print_empty ;; indent (visit_Rule r))).
  { apply spends_bind_r; [|intros _; apply indent_spends, visit_Rule_spends].
    apply modify_spends. same_todo_prim. }
  specialize (H (set_todo rest g)). simpl todo in H.
  pose proof (flatten_budget r). rewrite E, todo_weight_cons. unfold rule_weight.
  lia.
Qed.
End SpendsRule.

(** *** Fresh names *)

Lemma grows_same g g' :
  g'.(counter) = g.(counter) -> g'.(todo) = g.(todo) -> grows g g'.
Proof.
  intros Hc Ht. split; [lia|]. intros _. exists []. rewrite Ht, app_nil_r.
  repeat split; try constructor. intros n H1 H2. lia.
Qed.

#[global] Instance grows_preorder : PreOrder grows.
Proof.
  split.
  - intros g. apply grows_same; reflexivity.
  - intros g1 g2 g3 [Hc1 H1] [Hc2 H2]. split; [lia|]. intros Hok.
    destruct (H1 Hok) as (N1 & E1 & B1 & D1 & K1 & C1).
    assert (Hok2 : Forall (name_ok (counter g2)) (Dict.keys (todo g2))).
    { rewrite E1, Dict_keys_app. apply Forall_app. split.
      - eapply Forall_impl; [exact Hok|]. intros s. apply name_ok_mono. exact Hc1.
      - eapply Forall_impl; [exact B1|]. intros s. apply between_name_ok. }
    destruct (H2 Hok2) as (N2 & E2 & B2 & D2 & K2 & C2).
    exists (N1 ++ N2). rewrite E2, E1, <- app_assoc, Dict_keys_app.
    split; [reflexivity|]. split; [|split; [|split]].
    + apply Forall_app. split.
      * eapply Forall_impl; [exact B1|]. intros s. apply between_mono; lia.
      * eapply Forall_impl; [exact B2|]. intros s. apply between_mono; lia.
    + apply NoDup_app. split; [exact D1|]. split; [|exact D2].
      intros x Hx1 Hx2.
      rewrite Forall_forall in B1, B2.
      exact (between_disjoint _ _ _ _ (B1 x Hx1) (B2 x Hx2)).
    + apply Forall_app. split; assumption.
    + intros n Hn1 Hn3. destruct (le_lt_dec n (counter g2)) as [Hle|Hgt].
      * destruct (C1 n Hn1 Hle) as (k & Hk & Hs). exists k.
        split; [apply elem_of_app; left; exact Hk|exact Hs].
      * destruct (C2 n Hgt Hn3) as (k & Hk & Hs). exists k.
        split; [apply elem_of_app; right; exact Hk|exact Hs].
Qed.

Section Grows.
Context {ext : Externals}.

Lemma fresh_not_key c c' (d : list (string * Rule)) nm :
  Forall (name_ok c) (Dict.keys d) -> between c c' nm -> nm ∉ Dict.keys d.
Proof.
  intros Hok Hb Hin. rewrite Forall_forall in Hok.
  exact (between_fresh _ _ _ (Hok nm Hin) Hb).
Qed.

(** One rule is enqueued under a name numbered by the next counter. *)
Lemma grows_one g nm r :
  synth_name (S g.(counter)) nm ->
  r.(name) = nm ->
  grows g (set_todo (Dict.set g.(todo) nm r) (set_counter (S g.(counter)) g)).
Proof.
  intros Hs Hn. split; [simpl; lia|]. intros Hok. simpl.
  assert (Hb : between (counter g) (S (counter g)) nm).
  { exists (S (counter g)). repeat split; [lia|lia|exact Hs]. }
  rewrite Dict_set_fresh by exact (fresh_not_key _ _ _ _ Hok Hb).
  exists [(nm, r)]. split; [reflexivity|]. simpl.
  split; [repeat constructor; exact Hb|].
  split; [apply NoDup_singleton|].
  split; [repeat constructor; exact Hn|].
  intros n H1 H2. assert (n = S (counter g)) as -> by lia.
  exists nm. split; [apply list_elem_of_singleton; reflexivity|exact Hs].
Qed.

Lemma name_node_grows r : respects grows (name_node r).
Proof.
  intros g.
  exact (grows_one g ("_tmp_" +:+ pretty (S (counter g)))
           (new_Rule ("_tmp_" +:+ pretty (S (counter g))) None r)
           (or_introl eq_refl) eq_refl).
Qed.

Lemma name_loop_grows n b : respects grows (name_loop n b).
Proof.
  intros g. destruct b.
  - exact (grows_one g ("_loop1_" +:+ pretty (S (counter g)))
             (new_Rule ("_loop1_" +:+ pretty (S (counter g))) None
                (mkRhs (Made (S (counter g))) [mkAlt [mkNamedItem None n] None]))
             (or_intror (or_intror (or_introl eq_refl))) eq_refl).
  - exact (grows_one g ("_loop0_" +:+ pretty (S (counter g)))
             (new_Rule ("_loop0_" +:+ pretty (S (counter g))) None
                (mkRhs (Made (S (counter g))) [mkAlt [mkNamedItem None n] None]))
             (or_intror (or_introl eq_refl)) eq_refl).
Qed.

Lemma name_gather_grows s n : respects grows (name_gather s n).
Proof.
  intros g. simpl.
  set (extra := "_loop0_" +:+ pretty (S (S (counter g)))).
  set (nm := "_gather_" +:+ pretty (S (counter g))).
  assert (Hse : synth_name (S (S (counter g))) extra) by (right; left; reflexivity).
  assert (Hsn : synth_name (S (counter g)) nm) by (right; right; right; reflexivity).
  split; [simpl; lia|]. intros Hok. simpl.
  assert (Hbe : between (counter g) (S (S (counter g))) extra).
  { exists (S (S (counter g))). repeat split; [lia|lia|exact Hse]. }
  assert (Hbn : between (counter g) (S (S (counter g))) nm).
  { exists (S (counter g)). repeat split; [lia|lia|exact Hsn]. }
  rewrite (Dict_set_fresh (todo g) extra) by exact (fresh_not_key _ _ _ _ Hok Hbe).
  assert (Hne : nm <> extra).
  { unfold nm, extra. cbv [String.append]. discriminate. }
  rewrite Dict_set_fresh.
  - rewrite <- app_assoc. eexists. split; [reflexivity|]. simpl.
    split; [repeat constructor; assumption|].
    split.
    { apply NoDup_cons. split; [|apply NoDup_singleton].
      intros H. apply list_elem_of_singleton in H. congruence. }
    split; [repeat constructor|].
    intros m H1 H2.
    assert (m = S (counter g) \/ m = S (S (counter g))) as [->| ->] by lia.
    + exists nm. split; [|exact Hsn]. apply elem_of_cons. right.
      apply list_elem_of_singleton. reflexivity.
    + exists extra. split; [|exact Hse]. apply elem_of_cons. left. reflexivity.
  - rewrite Dict_keys_app. simpl. intros H. apply elem_of_app in H as [H|H].
    + exact (fresh_not_key _ _ _ _ Hok Hbn H).
    + apply list_elem_of_singleton in H. contradiction.
Qed.

Lemma visit_grows it : respects grows (visit it).
Proof.
  apply visit_respects_names;
    auto using name_node_grows, name_loop_grows, name_gather_grows;
    try typeclasses eauto; intros; apply grows_same; reflexivity.
Qed.

Lemma visit_Rule_grows r : respects grows (print_empty ;; indent (visit_Rule r)).
Proof.
  apply respects_bind; [typeclasses eauto| |intros _].
  { apply print_empty_respects. intros; apply grows_same; reflexivity. }
  apply indent_respects; [typeclasses eauto|intros; apply grows_same; reflexivity|].
  apply visit_Rule_respects; try typeclasses eauto;
    try (intros; apply grows_same; reflexivity).
  apply visit_grows.
Qed.
End Grows.

(** *** The loop *)

Section Loop.
Context {ext : Externals}.

Lemma emit_rule_step E k r rest g g' :
  g.(todo) = (k, r) :: rest ->
  loop_inv E g ->
  emit_rule (k, r) g = Done tt g' ->
  exists N, g'.(todo) = rest ++ N /\ loop_inv (E ++ [k]) g'.
Proof.
  intros Et (Hok & Hnd & Hkey & Hnum) H.
  unfold emit_rule in H. simpl fst in H. simpl snd in H.
  rewrite (bind_run _ _ _ _ _ (todo_del_head _ _ _ _ Et)) in H.
  pose proof (respects_Done grows _ _ _ _ (visit_Rule_grows r) H) as [Hc Hg].
  simpl in Hc, Hg. rewrite Et in Hok, Hnd, Hkey, Hnum. simpl in Hok, Hnd, Hnum.
  assert (Hrest : Forall (name_ok (counter g)) (Dict.keys rest)).
  { apply Forall_app in Hok as [_ Hok]. inversion Hok; assumption. }
  destruct (Hg Hrest) as (N & EN & BN & DN & KN & CN).
  exists N. split; [exact EN|].
  assert (Enames : (E ++ [k]) ++ Dict.keys (todo g')
                   = (E ++ k :: Dict.keys rest) ++ Dict.keys N).
  { rewrite EN, Dict_keys_app, <- !app_assoc. reflexivity. }
  unfold loop_inv. rewrite Enames. split; [|split; [|split]].
  - apply Forall_app. split.
    + eapply Forall_impl; [exact Hok|]. intros s. apply name_ok_mono. exact Hc.
    + eapply Forall_impl; [exact BN|]. intros s. apply between_name_ok.
  - apply NoDup_app. split; [exact Hnd|]. split; [|exact DN].
    intros x Hx1 Hx2. rewrite Forall_forall in Hok, BN.
    exact (between_fresh _ _ _ (Hok x Hx1) (BN x Hx2)).
  - rewrite EN. apply Forall_app. split; [|exact KN].
    inversion Hkey; assumption.
  - intros n Hn1 Hn2. destruct (le_lt_dec n (counter g)) as [Hle|Hgt].
    + destruct (Hnum n Hn1 Hle) as (x & Hx & Hs). exists x.
      split; [apply elem_of_app; left; exact Hx|exact Hs].
    + destruct (CN n Hgt Hn2) as (x & Hx & Hs). exists x.
      split; [apply elem_of_app; right; exact Hx|exact Hs].
Qed.

(** One round: the snapshot [Q] is emitted, and what remains on the worklist
    is what was behind the snapshot and what the round enqueued. *)
Lemma round_emits Q : forall E N g g',
  g.(todo) = Q ++ N ->
  loop_inv E g ->
  for_each emit_rule Q g = Done tt g' ->
  exists N',
    g'.(todo) = N ++ N'
    /\ loop_inv (E ++ Dict.keys Q) g'
    /\ todo_weight g'.(todo) + length Q <= todo_weight g.(todo).
Proof.
  induction Q as [|[k r] Q IH]; intros E N g g' Et Hinv H.
  - injection H as <-. exists []. simpl in *. rewrite !app_nil_r.
    split; [exact Et|]. split; [exact Hinv|lia].
  - simpl in H. apply bind_Done in H as ([] & g1 & H1 & H2).
    simpl in Et.
    destruct (emit_rule_step E k r (Q ++ N) g g1 Et Hinv H1) as (N1 & E1 & Hinv1).
    pose proof (emit_rule_lighter k r (Q ++ N) g Et) as Hw. rewrite H1 in Hw.
    simpl in Hw.
    rewrite <- app_assoc in E1.
    destruct (IH (E ++ [k]) (N ++ N1) g1 g' E1 Hinv1 H2) as (N2 & E2 & Hinv2 & Hw2).
    exists (N1 ++ N2). split; [rewrite E2, <- app_assoc; reflexivity|].
    split; [|simpl; lia].
    simpl. rewrite <- app_assoc in Hinv2. exact Hinv2.
Qed.



Lemma drain_fuel_mono n : forall g o m,
  drain n g = Some o -> n <= m -> drain m g = Some o.
Proof.
  induction n as [|n IH]; intros g o m H Hm.
  - destruct (todo g) as [|kv t] eqn:Et.
    + rewrite (drain_nil 0 _ Et) in H. rewrite (drain_nil m _ Et). exact H.
    + rewrite (drain_0_cons _ _ _ Et) in H. discriminate.
  - destruct (todo g) as [|kv t] eqn:Et.
    + rewrite (drain_nil (S n) _ Et) in H. rewrite (drain_nil m _ Et). exact H.
    + destruct m as [|m]; [lia|].
      rewrite (drain_S_cons n _ _ _ Et) in H. rewrite (drain_S_cons m _ _ _ Et).
      destruct (for_each emit_rule (kv :: t) g) as [[] g1|e g1]; [|exact H].
      apply (IH g1 o m H). lia.
Qed.

Lemma drain_log_nil fuel g : g.(todo) = [] -> drain_log fuel g = [].
Proof. intros E. destruct fuel; simpl; rewrite E; reflexivity. Qed.

Lemma drain_log_S_cons fuel g kv t :
  g.(todo) = kv :: t ->
  drain_log (S fuel) g =
  match for_each emit_rule (kv :: t) g with
  | Done _ g' => (kv :: t) ++ drain_log fuel g'
  | Fail _ _ => kv :: t
  end.
Proof. intros E. simpl. rewrite E. reflexivity. Qed.

End Loop.

(** *** The whole run *)

#[global] Instance same_work_preorder : PreOrder same_work.
Proof.
  split; [intros g; split; reflexivity|].
  intros g1 g2 g3 [H1 H2] [H3 H4]. split; congruence.
Qed.

Section Run.
Context {ext : Externals}.



Lemma keyed_set d k r : keyed d -> r.(name) = k -> keyed (Dict.set d k r).
Proof.
  intros Hd Hk. induction d as [|[k' r'] d IH]; simpl.
  - repeat constructor. exact Hk.
  - apply Forall_cons in Hd as [Hx Hd'].
    destruct (String.eqb k k'); apply Forall_cons; split;
      [exact Hk|exact Hd'|exact Hx|exact (IH Hd')].
Qed.

(** The dictionary of the grammar's rules, as the constructor builds it. *)
Lemma rules_dict_ok (rs : list Rule) : forall d,
  NoDup (Dict.keys d) -> keyed d ->
  let d' := fold_left (fun d r => Dict.set d r.(name) r) rs d in
  NoDup (Dict.keys d') /\ keyed d'
  /\ forall k, k ∈ Dict.keys d' -> k ∈ Dict.keys d \/ k ∈ map name rs.
Proof.
  induction rs as [|r rs IH]; intros d Hnd Hk; simpl.
  - auto.
  - destruct (IH (Dict.set d (name r) r)) as (H1 & H2 & H3);
      [apply Dict_set_keys_NoDup; exact Hnd|apply keyed_set; auto|].
    split; [exact H1|]. split; [exact H2|].
    intros k Hin. destruct (H3 k Hin) as [H|H].
    + apply Dict_set_keys_elem in H as [->|H]; [|auto].
      right. apply elem_of_cons. left. reflexivity.
    + right. apply elem_of_cons. right. exact H.
Qed.


Lemma existsb_false {A} (f : A -> bool) l x :
  existsb f l = false -> x ∈ l -> f x = false.
Proof.
  induction l as [|y l IH]; intros H Hx; [inversion Hx|].
  simpl in H. apply orb_false_iff in H as [H1 H2].
  apply elem_of_cons in Hx as [->|Hx]; auto.
Qed.

(** The state the constructor gives: the dictionary of the rules as the
    worklist, the counter at zero. *)
Lemma JanetParserGenerator_state gr lf uf g :
  JanetParserGenerator gr lf uf = Ok g ->
  g.(todo) = fold_left (fun d r => Dict.set d r.(name) r) gr.(rules) []
  /\ g.(counter) = 0
  /\ existsb (fun r => startswith r.(name) "_") gr.(rules) = false.
Proof.
  unfold JanetParserGenerator, ParserGenerator_init.
  destruct (existsb (fun r => startswith (name r) "_") (rules gr)) eqn:E;
    [discriminate|].
  match goal with |- context [if ?b then _ else _] => destruct b end;
    [discriminate|].
  intros [= <-]. auto.
Qed.

Lemma JanetParserGenerator_loop_inv gr lf uf g :
  JanetParserGenerator gr lf uf = Ok g -> loop_inv [] g.
Proof.
  intros H. apply JanetParserGenerator_state in H as (Ht & Hc & Hu).
  destruct (rules_dict_ok (rules gr) []) as (H1 & H2 & H3);
    [constructor|constructor|].
  unfold loop_inv. rewrite Ht, Hc. simpl. split; [|split; [|split]].
  - apply Forall_forall. intros k Hk. left.
    destruct (H3 k Hk) as [Hin|Hin]; [inversion Hin|].
    apply list_elem_of_fmap in Hin as (r & -> & Hr).
    exact (existsb_false _ _ _ Hu Hr).
  - exact H1.
  - exact H2.
  - intros n Hn1 Hn2. lia.
Qed.

Lemma print_empty_Done g :
  print_empty g = Done tt (set_file (g.(file) ++ [EmptyString]) g).
Proof. reflexivity. Qed.

(** Emitting a rule writes an empty line and then the rule's definition
    line, one level in. *)
Lemma emit_rule_writes k r g g' :
  emit_rule (k, r) g = Done tt g' ->
  exists rest,
    g'.(file) = g.(file)
                ++ [EmptyString; at_level (S g.(level)) (rule_definition_line r)]
                ++ rest.
Proof.
  intros H. unfold emit_rule in H. simpl fst in H. simpl snd in H.
  apply bind_Done in H as ([] & g1 & H1 & H).
  assert (Hg1 : exists t, g1 = set_todo t g).
  { unfold todo_del in H1. rewrite bind_get in H1.
    destruct (Dict.del (todo g) k) as [t|]; [|discriminate].
    injection H1 as <-. exists t. reflexivity. }
  destruct Hg1 as [t ->].
  rewrite (bind_run _ _ _ tt _ (print_empty_Done _)) in H.
  apply indent_Done in H as (g2 & H & ->).
  unfold visit_Rule in H. rewrite (bind_run _ _ _ tt _ (print_Done _ _)) in H.
  pose proof (respects_Done appends _ _ _ _ (visit_Rule_close_appends r) H)
    as [rest Hrest].
  exists rest. simpl in Hrest |- *. rewrite Hrest, <- !app_assoc. reflexivity.
Qed.
End Run.



(** The run on [start: ('a' | 'b')+]: the loop emits [start], then the loop
    rule of the repeat, then the rule of the group, and leaves nothing. *)
Example repeat_group_log :
  let g := Reference.generator_of Reference.repeat_group in
  exists cls g1 g2,
    generate_head "g.gram" g = Done cls g1
    /\ drain 3 g1 = Some (Done tt g2)
    /\ Dict.keys (drain_log 3 g1) = ["start"; "_loop1_1"; "_tmp_2"]
    /\ g2.(todo) = [] /\ g2.(counter) = 2.
Proof.
  intros g.
  destruct (generate_head "g.gram" g) as [cls g1|e g1] eqn:Hh;
    [|vm_compute in Hh; discriminate].
  destruct (drain 3 g1) as [[[] g2|e g2]|] eqn:Hd.
  - exists cls, g1, g2. split; [reflexivity|]. split; [exact Hd|].
    vm_compute in Hh. injection Hh as <- <-.
    vm_compute in Hd. injection Hd as <-.
    vm_compute. auto.
  - vm_compute in Hh. injection Hh as <- <-. vm_compute in Hd. discriminate.
  - vm_compute in Hh. injection Hh as <- <-. vm_compute in Hd. discriminate.
Qed.

(** * Further properties of the code *)

(** ** The literal of a string: [JanetLiteralExpr], [escape] *)

Lemma repeat_S c n :
  PyStr.repeat (String c EmptyString) (S n)
  = String c (PyStr.repeat (String c EmptyString) n).
Proof. reflexivity. Qed.

Lemma prefix_repeat_count c n s :
  String.prefix (PyStr.repeat (String c EmptyString) n) s = true -> n <= count c s.
Proof.
  revert s. induction n as [|n IH]; intros s; [lia|].
  rewrite repeat_S. destruct s as [|d s]; [discriminate|].
  cbn [String.prefix count]. destruct (ascii_dec c d) as [->|Hne].
  - rewrite Ascii.eqb_refl. intros H. apply IH in H. lia.
  - discriminate.
Qed.

(** A run of [n] copies of a character inside [s] needs [n] occurrences of
    the character in [s]. *)
Lemma contains_repeat_count c n s :
  contains (PyStr.repeat (String c EmptyString) n) s = true -> n <= count c s.
Proof.
  induction s as [|d s IH].
  - cbn [contains].
    destruct (String.prefix (PyStr.repeat (String c EmptyString) n) EmptyString) eqn:E;
      [|discriminate].
    intros _. apply prefix_repeat_count in E. exact E.
  - cbn [contains].
    destruct (String.prefix (PyStr.repeat (String c EmptyString) n) (String d s)) eqn:E.
    + intros _. apply prefix_repeat_count in E. exact E.
    + intros H. apply IH in H. cbn [count]. lia.
Qed.

Lemma backticks_absent s :
  contains (PyStr.repeat backtick (count (ascii_of_nat 96) s + 1)) s = false.
Proof.
  destruct (contains _ s) eqn:E; [|reflexivity].
  apply contains_repeat_count in E. lia.
Qed.

(** X1.  [escape] returns for the ASCII strings only, and the delimiter it
    puts on both sides of the string does not occur inside it: either the
    string is printable and holds neither a backslash nor a double quote, and
    it stands between two double quotes; or it stands between two runs of
    backticks, one longer than the number of backticks it holds, a run that is
    no substring of it. *)
Theorem escape_delimiter_absent (s t : string) :
  escape s = Ok t ->
  isascii s = true
  /\ ((isprintable s = true /\ contains backslash s = false
       /\ contains dquote s = false /\ t = dquote +:+ s +:+ dquote)
      \/ exists ticks,
           ticks = PyStr.repeat backtick (count (ascii_of_nat 96) s + 1)
           /\ t = ticks +:+ s +:+ ticks
           /\ contains ticks s = false).
Proof.
  unfold escape, JanetLiteralExpr.
  destruct (isascii s) eqn:Ha; [|discriminate].
  intros [= <-]. split; [reflexivity|]. unfold JanetLiteralExpr_str.
  destruct (isprintable s) eqn:Hp;
    [destruct (contains backslash s) eqn:Hb;
     [|destruct (contains dquote s) eqn:Hq; [|left; auto]]|];
    right; exists (PyStr.repeat backtick (count (ascii_of_nat 96) s + 1));
    (split; [reflexivity|split; [reflexivity|apply backticks_absent]]).
Qed.

Lemma escape_delimiter_absent_witness :
  escape "a\`b" = Ok "``a\`b``" /\ isascii "a\`b" = true.
Proof.
  split; [reflexivity|].
  exact (proj1 (escape_delimiter_absent "a\`b" "``a\`b``" eq_refl)).
Defined.

(** ** Lookaheads: [lookahead_call_helper] *)

Lemma append_String a s t : String a s +:+ t = String a (s +:+ t).
Proof. reflexivity. Qed.

Lemma contains_char_cons c d s :
  contains (String c EmptyString) (String d s)
  = if Ascii.eqb c d then true else contains (String c EmptyString) s.
Proof.
  cbn [contains String.prefix].
  destruct (ascii_dec c d) as [->|Hne].
  - rewrite Ascii.eqb_refl. destruct s; reflexivity.
  - apply Ascii.eqb_neq in Hne. rewrite Hne. reflexivity.
Qed.

(** [s.split(c, 1)] cuts at the first [c]. *)
Lemma split_once_spec c s h t :
  split_once c s = Some (h, t)
  <-> s = h +:+ String c t /\ contains (String c EmptyString) h = false.
Proof.
  revert h t. induction s as [|d s IH]; intros h t.
  - simpl. split; [discriminate|]. intros [H _]. destruct h; discriminate H.
  - cbn [split_once]. destruct (Ascii.eqb_spec c d) as [<-|Hne].
    + split.
      * intros [= <- <-]. split; reflexivity.
      * intros [H Hc]. destruct h as [|x h].
        -- injection H as <-. reflexivity.
        -- rewrite append_String in H. injection H as <- _.
           rewrite contains_char_cons, Ascii.eqb_refl in Hc. discriminate.
    + split.
      * destruct (split_once c s) as [[h0 t0]|]; [|discriminate].
        destruct (proj1 (IH h0 t0) eq_refl) as [-> Hc].
        intros [= <- <-]. split; [reflexivity|].
        rewrite contains_char_cons.
        apply Ascii.eqb_neq in Hne. rewrite Hne. exact Hc.
      * intros [H Hc]. destruct h as [|x h].
        -- injection H as -> _. contradiction.
        -- rewrite append_String in H. injection H as <- ->.
           rewrite contains_char_cons in Hc.
           destruct (Ascii.eqb c d); [discriminate|].
           rewrite (proj2 (IH h t) (conj eq_refl Hc)). reflexivity.
Qed.

Lemma last_char_drop_last s c :
  last_char s = Some c <-> s = drop_last s +:+ String c EmptyString.
Proof.
  induction s as [|a s IH].
  - simpl. split; discriminate.
  - destruct s as [|b s].
    + simpl. split; [intros [= ->]; reflexivity|intros [= ->]; reflexivity].
    + change (last_char (String a (String b s))) with (last_char (String b s)).
      change (drop_last (String a (String b s)))
        with (String a (drop_last (String b s))).
      rewrite append_String. rewrite IH. split; [intros <-; reflexivity|].
      intros [= H]. exact H.
Qed.

Section Lookahead.
Context {ext : Externals}.

(** The split of a parenthesised call text: the head is empty. *)
Lemma lookahead_split_parenthesised (inner : string) (g : Gen) :
  lookahead_split ("(" +:+ inner +:+ ")") g = Done (EmptyString, inner) g.
Proof.
  unfold lookahead_split.
  change (split_once "(" ("(" +:+ inner +:+ ")")) with (Some (EmptyString, inner +:+ ")")).
  cbv beta iota.
  rewrite (last_char_app inner ")") by discriminate. simpl last_char.
  rewrite (drop_last_app inner ")") by discriminate. simpl drop_last.
  rewrite append_empty_r. reflexivity.
Qed.

(** A call text that ends with the separator is refused: it has no opening
    parenthesis, or what follows the first one does not end with the closing
    one. *)
Lemma lookahead_split_separated (c : string) (g : Gen) :
  ends_sep c = true ->
  exists e, (e = AssertionError \/ e = ValueError) /\ lookahead_split c g = Fail e g.
Proof.
  intros Hs. unfold lookahead_split.
  destruct (split_once "(" c) as [[h tl]|] eqn:E; [|eauto].
  apply split_once_spec in E as [-> _].
  apply endswith_char in Hs.
  rewrite (last_char_app h (String "(" tl)) in Hs by discriminate.
  destruct tl as [|a tl]; [discriminate Hs|].
  change (last_char (String "(" (String a tl))) with (last_char (String a tl)) in Hs.
  rewrite Hs. exists AssertionError. split; [auto|reflexivity].
Qed.

(** X2.  [lookahead_call_helper] takes a call text apart at its first opening
    parenthesis and at its last character, which must be the closing one: it
    returns [(head, tail)] exactly when the call text is [head], an opening
    parenthesis, [tail] and a closing parenthesis, with no opening
    parenthesis in [head]; and it leaves the generator as it was. *)
Theorem lookahead_split_round_trip (c h t : string) (g g' : Gen) :
  lookahead_split c g = Done (h, t) g'
  <-> g' = g /\ c = h +:+ "(" +:+ t +:+ ")" /\ contains "(" h = false.
Proof.
  unfold lookahead_split. split.
  - destruct (split_once "(" c) as [[h0 tl]|] eqn:E; [|discriminate].
    apply split_once_spec in E as [-> Hc].
    destruct (last_char tl) as [ch|] eqn:El; [|discriminate].
    destruct (Ascii.eqb_spec ch ")") as [->|Hne]; [|discriminate].
    intros [= <- <- <-]. apply last_char_drop_last in El.
    split; [reflexivity|]. split; [|exact Hc].
    rewrite El at 1. reflexivity.
  - intros (-> & -> & Hc).
    assert (E : split_once "(" (h +:+ "(" +:+ t +:+ ")") = Some (h, t +:+ ")"))
      by (apply split_once_spec; auto).
    rewrite E.
    rewrite (last_char_app t ")") by discriminate. simpl last_char.
    rewrite (drop_last_app t ")") by discriminate. simpl drop_last.
    rewrite append_empty_r. reflexivity.
Qed.

Lemma lookahead_split_round_trip_witness :
  lookahead_split "(self name)" (Reference.generator_of Reference.name_plus_number)
  = Done (EmptyString, "self name") (Reference.generator_of Reference.name_plus_number).
Proof.
  apply (proj2 (lookahead_split_round_trip "(self name)" EmptyString "self name"
                  (Reference.generator_of Reference.name_plus_number)
                  (Reference.generator_of Reference.name_plus_number))).
  split; [reflexivity|]. split; reflexivity.
Defined.

(** X3.  A lookahead over a node whose call text ends with the separator (an
    optional item, a zero-or-more repeat) never returns: once the node is
    visited, the helper raises, [AssertionError] when the text has an opening
    parenthesis and [ValueError] when it has none, in the state the visit of
    the node left. *)
Theorem lookahead_refuses_separator (node : Item) (g g1 : Gen) (r : call) :
  visit node g = Done r g1 ->
  ends_sep (snd r) = true ->
  exists e,
    (e = AssertionError \/ e = ValueError)
    /\ visit (PositiveLookahead node) g = Fail e g1
    /\ visit (NegativeLookahead node) g = Fail e g1.
Proof.
  intros H Hs.
  destruct (lookahead_split_separated (snd r) g1 Hs) as (e & He & Hl).
  exists e. split; [exact He|].
  cbn [visit]. rewrite !(bind_run _ _ _ _ _ H).
  unfold bind. rewrite Hl. auto.
Qed.

(** X4.  A lookahead over a node whose call text is parenthesised returns,
    in the state the visit of the node left, the call of the lookahead method
    on what stands between the parentheses; the head, what stands before the
    opening parenthesis, is empty, which leaves two spaces after the method
    name. *)
Theorem lookahead_of_parenthesised (node : Item) (g g1 : Gen)
    (nm : option string) (inner : string) :
  visit node g = Done (nm, "(" +:+ inner +:+ ")") g1 ->
  visit (PositiveLookahead node) g
  = Done (None, "(self positive_lookahead  " +:+ inner +:+ ")") g1
  /\ visit (NegativeLookahead node) g
     = Done (None, "(self negative_lookahead  " +:+ inner +:+ ")") g1.
Proof.
  intros H. cbn [visit]. rewrite !(bind_run _ _ _ _ _ H). cbn [snd].
  rewrite !(bind_run _ _ _ _ _ (lookahead_split_parenthesised inner g1)).
  split; reflexivity.
Qed.

Lemma visit_NameLeaf_Done v g :
  exists nm inner,
    visit_NameLeaf v g = Done (Some nm, "(self " +:+ inner +:+ ")") g.
Proof.
  unfold visit_NameLeaf.
  destruct (String.eqb v "SOFT_KEYWORD");
    [exists "soft_keyword", "soft_keyword"; reflexivity|].
  destruct (bool_decide (v ∈ ["NAME"; "NUMBER"; "STRING"; "OP"; "TYPE_COMMENT"]));
    [exists (lower v), (lower v); reflexivity|].
  destruct (bool_decide
              (v ∈ ["NEWLINE"; "DEDENT"; "INDENT"; "ENDMARKER"; "ASYNC"; "AWAIT"]))
    eqn:E; [|exists v, v; reflexivity].
  apply bool_decide_eq_true in E.
  repeat (apply elem_of_cons in E as [->|E]);
    [eexists _, ("expect " +:+ dquote +:+ _ +:+ dquote); reflexivity..|inversion E].
Qed.

(** X5.  The visit of a name leaf never raises and changes nothing in the
    generator, whatever the name: it binds a name to a call of the form
    [(self ...)], so a lookahead over a name leaf always returns, with the
    same state. *)
Theorem name_leaf_always_callable (v : string) (g : Gen) :
  exists nm inner,
    visit (NameLeaf v) g = Done (Some nm, "(self " +:+ inner +:+ ")") g
    /\ visit (PositiveLookahead (NameLeaf v)) g
       = Done (None, "(self positive_lookahead  self " +:+ inner +:+ ")") g
    /\ visit (NegativeLookahead (NameLeaf v)) g
       = Done (None, "(self negative_lookahead  self " +:+ inner +:+ ")") g.
Proof.
  destruct (visit_NameLeaf_Done v g) as (nm & inner & H).
  exists nm, inner. split; [exact H|].
  cbn [visit]. rewrite !(bind_run _ _ _ _ _ H). cbn [snd].
  change ("(self " +:+ inner +:+ ")") with ("(" +:+ ("self " +:+ inner) +:+ ")").
  rewrite !(bind_run _ _ _ _ _ (lookahead_split_parenthesised _ g)).
  split; reflexivity.
Qed.

(** ** Forced items: [visit_Forced] *)

(** X6.  A forced item reaches the generator through a group only: the
    visit of a forced group ends in the state the visit of the group ends in,
    and the visit of any other forced node leaves the state as it was, so a
    forced literal is not recorded as a keyword.  It returns for a group and
    for a leaf whose text is ASCII only, the name it binds is [forced], and
    its call text does not end with the separator. *)
Theorem visit_Forced_state (node : Item) (g : Gen) :
  final (visit (Forced node) g)
  = match node with
    | Group r => final (visit_Rhs r g)
    | _ => g
    end
  /\ forall r g',
       visit (Forced node) g = Done r g' ->
       fst r = Some "forced"
       /\ ends_sep (snd r) = false
       /\ match node with
          | Group _ => True
          | NameLeaf v | StringLeaf v =>
              isascii v = true
              /\ exists e,
                   escape v = Ok e
                   /\ snd r = "(self expect_forced (self expect " +:+ e +:+ ") "
                              +:+ e +:+ ")"
          | _ => False
          end.
Proof.
  split.
  - destruct node as [value|value|r0|r0|n|i n|i n|i s n|n|n| |n];
      try reflexivity; cbn [visit].
    + unfold bind, lift. destruct (escape value); reflexivity.
    + unfold bind, lift. destruct (escape value); reflexivity.
    + unfold bind. destruct (visit_Rhs r0 g) as [v g1|e g1]; [|reflexivity].
      unfold lift. destruct (escape (snd v)); reflexivity.
  - intros r g' H.
    destruct node as [value|value|r0|r0|n|i n|i n|i s n|n|n| |n];
      cbn [visit] in H; try discriminate H.
    + apply bind_Done in H as (e & g1 & He & H). injection H as <- <-.
      unfold lift in He. destruct (escape value) as [e'|] eqn:E; [|discriminate].
      injection He as <- <-. cbn [fst snd].
      split; [reflexivity|]. split; [ends_sep_literal|].
      split; [|eauto].
      unfold escape, JanetLiteralExpr in E.
      destruct (isascii value); [reflexivity|discriminate].
    + apply bind_Done in H as (e & g1 & He & H). injection H as <- <-.
      unfold lift in He. destruct (escape value) as [e'|] eqn:E; [|discriminate].
      injection He as <- <-. cbn [fst snd].
      split; [reflexivity|]. split; [ends_sep_literal|].
      split; [|eauto].
      unfold escape, JanetLiteralExpr in E.
      destruct (isascii value); [reflexivity|discriminate].
    + apply bind_Done in H as (v & g1 & _ & H).
      apply bind_Done in H as (e & g2 & _ & H). injection H as <- <-. cbn [fst snd].
      split; [reflexivity|]. split; [ends_sep_literal|exact I].
Qed.

(** ** The test for invalid rules: [InvalidNodeVisitor] *)

(** X7.  When the generic visit of a node the visitor has no method for is
    falsy, an alternative is found to have an invalid item only if it
    mentions, somewhere, a name that starts with [invalid]. *)
Theorem invalid_visit_sound (a : Alt) :
  (forall n, generic_visit_invalid n = false) ->
  invalid_visit_Alt a = true ->
  exists v, In v (alt_leaf_names a) /\ startswith v "invalid" = true.
Proof.
  intros Hgen.
  assert (H : (forall it, invalid_visit it = true ->
                 exists v, In v (leaf_names it) /\ startswith v "invalid" = true)
              /\ (forall r, invalid_visit_Rhs r = true ->
                    exists v, In v (rhs_leaf_names r)
                              /\ startswith v "invalid" = true)).
  { apply Item_Rhs_ind; cbn [invalid_visit leaf_names];
      try (intros; discriminate); auto.
    - intros v Hv. exists v. split; [left; reflexivity|exact Hv].
    - intros i n _ H. rewrite Hgen in H. discriminate.
    - intros i n _ H. rewrite Hgen in H. discriminate.
    - intros i s n _ IH H. destruct (IH H) as (v & Hin & Hv).
      exists v. split; [apply in_or_app; right; exact Hin|exact Hv].
    - intros i al IH H. cbn [invalid_visit_Rhs rhs_leaf_names] in *.
      apply existsb_exists in H as (al0 & Hin & Ha).
      rewrite List.Forall_forall in IH. specialize (IH al0 Hin).
      destruct al0 as [its act]. cbn [invalid_visit_Alt items] in *.
      apply existsb_exists in Ha as (ni & Hni & Hv).
      rewrite List.Forall_forall in IH. specialize (IH ni Hni).
      destruct ni as [nm it]. cbn [invalid_visit_NamedItem ni_item] in *.
      destruct (IH Hv) as (v & Hvin & Hvs). exists v. split; [|exact Hvs].
      apply in_concat. exists (alt_leaf_names (mkAlt its act)).
      split; [apply in_map; exact Hin|].
      cbn [alt_leaf_names]. apply in_concat.
      exists (named_item_leaf_names (mkNamedItem nm it)).
      split; [apply in_map; exact Hni|exact Hvin]. }
  destruct H as [Hit _].
  destruct a as [its act]. cbn [invalid_visit_Alt alt_leaf_names].
  intros Ha. apply existsb_exists in Ha as (ni & Hni & Hv).
  destruct ni as [nm it]. cbn [invalid_visit_NamedItem] in Hv.
  destruct (Hit it Hv) as (v & Hvin & Hvs). exists v. split; [|exact Hvs].
  apply in_concat. exists (named_item_leaf_names (mkNamedItem nm it)).
  split; [apply in_map; exact Hni|exact Hvin].
Qed.
End Lookahead.

Lemma lookahead_refuses_separator_witness :
  exists e,
    visit (PositiveLookahead (Opt (NameLeaf "NAME")))
      (Reference.generator_of Reference.name_plus_number)
    = Fail e (Reference.generator_of Reference.name_plus_number).
Proof.
  destruct (@lookahead_refuses_separator Reference.externals
              (Opt (NameLeaf "NAME"))
              (Reference.generator_of Reference.name_plus_number)
              (Reference.generator_of Reference.name_plus_number)
              (Some "opt", "(self name),") eq_refl eq_refl)
    as (e & _ & H & _).
  exists e. exact H.
Defined.

Lemma lookahead_of_parenthesised_witness :
  visit (PositiveLookahead (StringLeaf "'if'"))
    (Reference.generator_of Reference.if_twice)
  = Done (None, "(self positive_lookahead  expect " +:+ dquote +:+ "'if'" +:+ dquote +:+ ")")
      (set_keywords {["if"]} (Reference.generator_of Reference.if_twice)).
Proof.
  refine (proj1 (@lookahead_of_parenthesised Reference.externals
                   (StringLeaf "'if'")
                   (Reference.generator_of Reference.if_twice) _
                   (Some "literal") ("expect " +:+ dquote +:+ "'if'" +:+ dquote) _)).
  vm_compute. reflexivity.
Defined.

Lemma invalid_visit_sound_witness :
  exists v,
    In v (alt_leaf_names
            (mkAlt [mkNamedItem None (Opt (NameLeaf "invalid_block"))] None))
    /\ startswith v "invalid" = true.
Proof.
  apply (@invalid_visit_sound Reference.externals
           (mkAlt [mkNamedItem None (Opt (NameLeaf "invalid_block"))] None)).
  - intros n. reflexivity.
  - reflexivity.
Defined.

(** ** What the call maker leaves alone *)

#[global] Instance quiet_preorder : PreOrder quiet.
Proof.
  split.
  - intros g. repeat split.
  - intros g1 g2 g3 (A1 & A2 & A3 & A4 & A5 & A6 & A7)
      (B1 & B2 & B3 & B4 & B5 & B6 & B7).
    repeat split; congruence.
Qed.

#[global] Instance counter_grows_preorder : PreOrder counter_grows.
Proof.
  split; [intros g; apply Nat.le_refl|].
  intros g1 g2 g3. unfold counter_grows. lia.
Qed.

#[global] Instance keeps_identifiers_preorder : PreOrder keeps_identifiers.
Proof. split; [intros g H; exact H | intros g1 g2 g3 H1 H2 H; auto]. Qed.

Ltac identifiers_same := intros; intros Hid; exact Hid.

Section CallMakerQuiet.
Context {ext : Externals}.

Lemma visit_quiet :
  (forall it, respects quiet (visit it)) /\ (forall r, respects quiet (visit_Rhs r)).
Proof.
  apply visit_respects; [typeclasses eauto|intros; repeat split..].
Qed.

(** X8.  However it ends, the visit of an item by the call maker writes no
    line and leaves the level, the local names, the cleanup statements, the
    grammar and the two formattings as they were; the keyword sets only grow
    and the counter does not go back. *)
Theorem call_maker_writes_nothing (node : Item) (g : Gen) :
  quiet g (final (visit node g))
  /\ keywords_grow g (final (visit node g))
  /\ counter_grows g (final (visit node g)).
Proof.
  split; [apply visit_quiet|]. split.
  - apply visit_respects; try typeclasses eauto; intros; split; simpl; set_solver.
  - apply visit_respects; try typeclasses eauto; intros;
      unfold counter_grows; simpl; lia.
Qed.

(** X9.  A group of one alternative that has one item is transparent: on a
    cache miss its visit is the visit of the item, with the item's own name
    when it has one; the worklist and the counter are as the item's visit
    left them, so the group gets no rule of its own, and the action of the
    alternative plays no part in the result. *)
Theorem single_item_group_transparent
    (i : obj_id) (nm : option string) (it : Item) (act : option string)
    (g g' : Gen) (r : call) :
  g.(cache) !! (CRhs, i) = None ->
  visit (Group (mkRhs i [mkAlt [mkNamedItem nm it] act])) g = Done r g' ->
  (exists r0 g0,
     visit it g = Done r0 g0
     /\ snd r = snd r0
     /\ fst r = (if truthy nm then nm else fst r0)
     /\ g'.(todo) = g0.(todo) /\ g'.(counter) = g0.(counter))
  /\ forall act',
       visit (Group (mkRhs i [mkAlt [mkNamedItem nm it] act'])) g = Done r g'.
Proof.
  intros Hmiss H. split; [|intros act'; exact H].
  cbn [visit visit_Rhs] in H. rewrite bind_get, Hmiss in H.
  apply bind_Done in H as (r0 & g0 & H0 & H).
  rewrite cache_store_Done in H. injection H as <- <-.
  exists r0, g0. split; [exact H0|].
  unfold named_item_call. destruct (truthy nm); simpl; auto.
Qed.

(** *** The keyword tables hold identifiers *)

Lemma visit_StringLeaf_identifiers v : respects keeps_identifiers (visit_StringLeaf v).
Proof.
  unfold visit_StringLeaf.
  apply respects_bind;
    [typeclasses eauto|apply respects_lift; typeclasses eauto|intros val].
  apply respects_bind; [typeclasses eauto| |intros _].
  - destruct (match_identifier val) eqn:Hid; [|apply respects_ret; typeclasses eauto].
    destruct (endswith v "'"); apply respects_modify; intros g Hg k; simpl;
      intros [Hk|Hk]; try (apply Hg; auto; fail);
      apply elem_of_union in Hk as [Hk|Hk];
      try (apply elem_of_singleton in Hk; subst; exact Hid); apply Hg; auto.
  - apply respects_bind;
      [typeclasses eauto|apply respects_lift; typeclasses eauto|intros e].
    apply respects_ret. typeclasses eauto.
Qed.

Lemma visit_identifiers :
  (forall it, respects keeps_identifiers (visit it))
  /\ (forall r, respects keeps_identifiers (visit_Rhs r)).
Proof.
  assert (Hstore : forall k v, respects keeps_identifiers (cache_store k v))
    by (apply cache_store_respects; [typeclasses eauto|identifiers_same]).
  assert (Hname_node : forall r, respects keeps_identifiers (name_node r))
    by (apply name_node_respects; [typeclasses eauto|identifiers_same..]).
  assert (Hname_loop : forall n b, respects keeps_identifiers (name_loop n b))
    by (apply name_loop_respects; [typeclasses eauto|identifiers_same..]).
  assert (Hname_gather : forall s n, respects keeps_identifiers (name_gather s n))
    by (apply name_gather_respects; [typeclasses eauto|identifiers_same..]).
  assert (Hcached : forall (k : node_key) (m : M string) (f : string -> call),
             respects keeps_identifiers m ->
             respects keeps_identifiers
               (g <- get ;;
                match g.(cache) !! k with
                | Some r => ret r
                | None => nm <- m ;; cache_store k (f nm)
                end)).
  { intros k m f Hm.
    apply respects_bind;
      [typeclasses eauto|apply respects_get; typeclasses eauto|intros g].
    destruct (cache g !! k); [apply respects_ret; typeclasses eauto|].
    apply respects_bind; [typeclasses eauto|exact Hm|intros nm]. apply Hstore. }
  apply Item_Rhs_ind.
  - intros v. apply visit_NameLeaf_respects. typeclasses eauto.
  - intros v. apply visit_StringLeaf_identifiers.
  - intros r Hr. exact Hr.
  - intros r Hr. exact Hr.
  - intros n Hn. simpl.
    apply respects_bind; [typeclasses eauto|assumption|intros r].
    repeat respects_step keeps_identifiers.
  - intros i n _. simpl.
    apply (Hcached (CRepeat0, i) _ (fun nm => (Some nm, "(self " +:+ nm +:+ "),"))).
    apply Hname_loop.
  - intros i n _. simpl.
    apply (Hcached (CRepeat1, i) _ (fun nm => (Some nm, "(self " +:+ nm +:+ ")"))).
    apply Hname_loop.
  - intros i sep n _ _. simpl.
    apply (Hcached (CGather, i) _ (fun nm => (Some nm, "(self " +:+ nm +:+ ")"))).
    apply Hname_gather.
  - intros n Hn. simpl.
    apply respects_bind; [typeclasses eauto|assumption|intros r].
    apply respects_bind;
      [typeclasses eauto|apply lookahead_split_respects; typeclasses eauto|intros ht].
    respects_step keeps_identifiers.
  - intros n Hn. simpl.
    apply respects_bind; [typeclasses eauto|assumption|intros r].
    apply respects_bind;
      [typeclasses eauto|apply lookahead_split_respects; typeclasses eauto|intros ht].
    respects_step keeps_identifiers.
  - simpl. respects_step keeps_identifiers.
  - intros n Hn.
    destruct n; try (simpl; repeat respects_step keeps_identifiers; fail).
    simpl in *.
    apply respects_bind; [typeclasses eauto|exact Hn|intros v].
    repeat respects_step keeps_identifiers.
  - intros i al H. simpl.
    apply respects_bind;
      [typeclasses eauto|apply respects_get; typeclasses eauto|intros g].
    destruct (cache g !! (CRhs, i)); [respects_step keeps_identifiers|].
    assert (Hnn : respects keeps_identifiers
              (nm <- name_node (mkRhs i al) ;;
               cache_store (CRhs, i) (Some nm, "(self " +:+ nm +:+ ")"))).
    { apply respects_bind; [typeclasses eauto|apply Hname_node|intros nm].
      apply Hstore. }
    destruct al as [|[its act] al]; [exact Hnn|].
    destruct al; [|destruct its as [|[] [|]]; exact Hnn].
    destruct its as [|[nm it] [|]]; try exact Hnn.
    inversion H as [|? ? Ha _]; subst. inversion Ha as [|? ? Hit _]; subst.
    apply respects_bind; [typeclasses eauto|exact Hit|intros r].
    apply Hstore.
Qed.

(** X10.  Every entry of the two keyword tables of a run is an identifier:
    for a generator the constructor has made, however [generate] ends, each
    element of the sorted keywords and of the sorted soft keywords matches
    the pattern of an identifier, since a literal enters a set only after
    that test. *)
Theorem keyword_tables_hold_identifiers
    (gr : Grammar) (lf uf : option string) (fuel : nat) (filename : string)
    (g : Gen) (o : outcome unit) :
  JanetParserGenerator gr lf uf = Ok g ->
  generate fuel filename g = Some o ->
  forall k,
    k ∈ sorted (final o).(keywords) \/ k ∈ sorted (final o).(soft_keywords) ->
    match_identifier k = true.
Proof.
  intros Hg H k Hk.
  assert (Hinv : keeps_identifiers g (final o)).
  { revert H. apply generate_respects; try typeclasses eauto;
      try identifiers_same. apply visit_identifiers. }
  assert (H0 : identifier_tables g).
  { unfold JanetParserGenerator in Hg.
    destruct (ParserGenerator_init gr); [|discriminate]. injection Hg as <-.
    intros k0 [Hk0|Hk0]; simpl in Hk0; set_solver. }
  apply (Hinv H0). rewrite !sorted_elem_of in Hk. exact Hk.
Qed.

(** ** The start of the location: [alts_uses_locations] *)

(** X11.  The start of the location is declared wherever its end is used:
    when [visit_Alt] finds [LOCATIONS] in the action of one of the
    alternatives [visit_Rule] writes, those of the flattened right-hand
    side, the test [visit_Rule] makes on the rule's own alternatives, groups
    included, is true. *)
Theorem locations_declared (node : Rule) (a : Alt) (ig hi : bool) (lf uf : string) :
  In a (alts (flatten node)) ->
  snd (fst (alt_action a ig hi lf uf)) = true ->
  alts_uses_locations (alts node.(rhs)) = true.
Proof.
  intros Hin Hloc.
  assert (Ha : alt_uses_locations a = true).
  { destruct a as [its act]. unfold alt_action in Hloc. cbn [action snd fst] in Hloc.
    cbn [alt_uses_locations].
    destruct (negb (truthy act) && negb ig && hi) eqn:E.
    - vm_compute in Hloc. discriminate.
    - rewrite Hloc. reflexivity. }
  assert (Hfl : existsb alt_uses_locations (alts (flatten node)) = true).
  { apply existsb_exists. eauto. }
  unfold alts_uses_locations. unfold flatten in Hfl.
  destruct (rhs node) as [i al] eqn:Er. cbn [alts].
  destruct al as [|[its act] al]; [exact Hfl|].
  destruct its as [|[nm it] its]; [exact Hfl|].
  destruct it as [v|v|r0|r0|n|j n|j n|j s n|n|n| |n]; try exact Hfl.
  destruct its; [|exact Hfl]. destruct al; [|exact Hfl].
  destruct (negb (is_loop node)); [|exact Hfl].
  destruct r0 as [j al']. cbn [alts] in Hfl.
  cbn [existsb alt_uses_locations]. rewrite Hfl.
  rewrite !orb_true_r. reflexivity.
Qed.
End CallMakerQuiet.

Lemma single_item_group_transparent_witness :
  exists r g',
    visit (Group (mkRhs (Parsed 9)
                    [mkAlt [mkNamedItem (Some "n") (NameLeaf "NAME")] (Some "n")]))
      (Reference.generator_of Reference.name_plus_number) = Done r g'
    /\ forall act',
         visit (Group (mkRhs (Parsed 9)
                         [mkAlt [mkNamedItem (Some "n") (NameLeaf "NAME")] act']))
           (Reference.generator_of Reference.name_plus_number) = Done r g'.
Proof.
  destruct (visit (Group (mkRhs (Parsed 9)
                            [mkAlt [mkNamedItem (Some "n") (NameLeaf "NAME")]
                               (Some "n")]))
              (Reference.generator_of Reference.name_plus_number))
    as [r g'|e g'] eqn:E; [|vm_compute in E; discriminate].
  exists r, g'. split; [reflexivity|].
  exact (proj2 (@single_item_group_transparent Reference.externals
                  (Parsed 9) (Some "n") (NameLeaf "NAME") (Some "n")
                  (Reference.generator_of Reference.name_plus_number) g' r
                  eq_refl E)).
Defined.

Lemma keyword_tables_hold_identifiers_witness :
  exists o,
    generate 5 "g.gram" (Reference.generator_of Reference.if_twice) = Some o
    /\ forall k,
         k ∈ sorted (final o).(keywords) \/ k ∈ sorted (final o).(soft_keywords) ->
         match_identifier k = true.
Proof.
  destruct (generate 5 "g.gram" (Reference.generator_of Reference.if_twice))
    as [o|] eqn:E; [|vm_compute in E; discriminate].
  exists o. split; [reflexivity|].
  exact (@keyword_tables_hold_identifiers Reference.externals
           Reference.if_twice None None 5 "g.gram"
           (Reference.generator_of Reference.if_twice) o eq_refl E).
Defined.

Lemma locations_declared_witness :
  alts_uses_locations
    (alts (rhs (new_Rule "start" None
                  (mkRhs (Parsed 0)
                     [mkAlt [mkNamedItem None
                               (Group (mkRhs (Parsed 1)
                                         [mkAlt [mkNamedItem None (NameLeaf "NAME")]
                                            (Some "f(LOCATIONS)")]))]
                        None])))) = true.
Proof.
  apply (locations_declared
           (new_Rule "start" None
              (mkRhs (Parsed 0)
                 [mkAlt [mkNamedItem None
                           (Group (mkRhs (Parsed 1)
                                     [mkAlt [mkNamedItem None (NameLeaf "NAME")]
                                        (Some "f(LOCATIONS)")]))]
                    None]))
           (mkAlt [mkNamedItem None (NameLeaf "NAME")] (Some "f(LOCATIONS)"))
           false false EmptyString EmptyString).
  - left. reflexivity.
  - reflexivity.
Defined.

(** ** The text of an alternative: [visit_NamedItem], [print_action],
    [visit_Alt] *)

Section Layout.
Context {ext : Externals}.

Lemma for_each_print_Done l g :
  for_each print l g = Done tt (set_file (g.(file) ++ map (at_level g.(level)) l) g).
Proof.
  revert g. induction l as [|x l IH]; intros g.
  - simpl. unfold ret. rewrite app_nil_r. destruct g; reflexivity.
  - cbn [for_each]. rewrite (bind_run _ _ _ tt _ (print_Done _ _)).
    rewrite IH. simpl. rewrite <- app_assoc. reflexivity.
Qed.

(** [add_return] writes the cleanup statements, oldest first, and then the
    return, all at the current level. *)
Lemma add_return_Done v g :
  add_return v g
  = Done tt (set_file (g.(file)
                       ++ map (at_level g.(level))
                            (g.(cleanup_statements) ++ ["(return " +:+ v +:+ ")"])) g).
Proof.
  unfold add_return. rewrite bind_get.
  rewrite (bind_run _ _ _ tt _ (for_each_print_Done _ _)).
  rewrite print_Done. simpl. rewrite map_app, <- app_assoc. reflexivity.
Qed.

Lemma if_print_Done (b : bool) s g :
  (if b then print s else ret tt) g
  = Done tt (set_file (g.(file) ++ map (at_level g.(level)) (if b then [s] else [])) g).
Proof.
  destruct b; [apply print_Done|].
  simpl. unfold ret. rewrite app_nil_r. destruct g; reflexivity.
Qed.

Lemma if_prints_Done (b : bool) s1 s2 g :
  (if b then print s1 ;; print s2 else ret tt) g
  = Done tt (set_file (g.(file)
                       ++ map (at_level g.(level)) (if b then [s1; s2] else [])) g).
Proof.
  destruct b.
  - rewrite (bind_run _ _ _ tt _ (print_Done _ _)), print_Done. simpl.
    rewrite <- app_assoc. reflexivity.
  - simpl. unfold ret. rewrite app_nil_r. destruct g; reflexivity.
Qed.

Lemma dedupe_loop_result fuel names o nm n :
  nm = o \/ (exists k : nat, nm = o +:+ "_" +:+ pretty k) ->
  let r := dedupe_loop fuel names o nm n in
  r = o \/ exists k : nat, r = o +:+ "_" +:+ pretty k.
Proof.
  revert nm n. induction fuel as [|fuel IH]; intros nm n H; cbn [dedupe_loop].
  - destruct (bool_decide (nm ∈ names)); exact H.
  - destruct (bool_decide (nm ∈ names)); [|exact H].
    apply IH. right. eauto.
Qed.

Lemma suffixed_not_cut o p : o +:+ String "_" p <> "cut".
Proof.
  destruct o as [|a [|b [|c [|d o]]]]; cbn; intros H; try discriminate H;
    injection H as _ _ _ H; destruct o; discriminate H.
Qed.

Lemma local_variable_names_Done names rest g :
  g.(local_variable_stack) = names :: rest ->
  local_variable_names g = Done names g.
Proof. intros Hs. unfold local_variable_names. rewrite bind_get, Hs. reflexivity. Qed.

Lemma dedupe_Done nm names rest g :
  g.(local_variable_stack) = names :: rest ->
  exists nm',
    dedupe nm g
    = Done nm' (set_local_variable_stack ((names ++ [nm']) :: rest) g)
    /\ (nm <> "cut" -> nm' <> "cut").
Proof.
  intros Hs. unfold dedupe.
  exists (dedupe_loop (S (length names)) names nm nm 0). split.
  - rewrite (bind_run _ _ _ _ _ (local_variable_names_Done _ _ _ Hs)).
    unfold bind, modify, ret. rewrite Hs. reflexivity.
  - intros Hne.
    destruct (dedupe_loop_result (S (length names)) names nm nm 0) as [->|[k ->]];
      [left; reflexivity|exact Hne|].
    apply suffixed_not_cut.
Qed.

(** One item: its line, at the level, and the name it records. *)
Lemma visit_NamedItem_line node unr names rest g g' :
  g.(local_variable_stack) = names :: rest ->
  visit_NamedItem node None unr g = Done tt g' ->
  exists line bound,
    item_line unr line bound
    /\ g'.(file) = g.(file) ++ [at_level g.(level) line]
    /\ g'.(level) = g.(level)
    /\ g'.(local_variable_stack) = (names ++ bound) :: rest
    /\ g'.(cleanup_statements) = g.(cleanup_statements).
Proof.
  intros Hs H. unfold visit_NamedItem in H.
  apply bind_Done in H as (r & g1 & Hv & H).
  pose proof (respects_Done quiet _ _ _ _ (proj1 visit_quiet (ni_item node)) Hv)
    as (Q1 & Q2 & Q3 & Q4 & _).
  set (nm := if unr then None else if truthy (ni_name node) then ni_name node else fst r)
    in H.
  destruct (truthy nm) eqn:Et; cbn [negb] in H.
  - assert (Hunr : unr = false) by (destruct unr; [discriminate Et|reflexivity]).
    destruct (String.eqb_spec (fmt_opt nm) "cut") as [Ec|Ec]; cbn [negb] in H.
    + unfold bind at 1, ret at 1 in H. rewrite print_Done in H. injection H as <-.
      exists ("(var " +:+ fmt_opt nm +:+ " " +:+ snd r +:+ ")"), []. simpl.
      rewrite Ec, Q1, Q2, Q3, Q4, Hs, app_nil_r.
      split; [apply item_line_cut; exact Hunr|auto].
    + destruct (dedupe_Done (fmt_opt nm) names rest g1) as (nm' & Hd & Hne);
        [rewrite Q3; exact Hs|].
      rewrite (bind_run _ _ _ _ _ Hd), print_Done in H. injection H as <-.
      exists ("(var " +:+ nm' +:+ " " +:+ snd r +:+ ")"), [nm']. simpl.
      rewrite Q1, Q2, Q4.
      split; [apply item_line_var; auto|auto].
  - rewrite print_Done in H. injection H as <-.
    exists ("(" +:+ snd r +:+ ")"), []. simpl.
    rewrite Q1, Q2, Q3, Q4, Hs, app_nil_r.
    split; [apply item_line_call|auto].
Qed.

Lemma visit_Alt_items_lines its : forall (ig unr : bool) names rest g g',
  g.(local_variable_stack) = names :: rest ->
  for_each (fun it =>
              (if ig then print "(not (nil? " else ret tt) ;;
              visit_NamedItem it None unr ;;
              (if ig then print "))" else ret tt)) its g = Done tt g' ->
  exists lines bound,
    Forall2 (item_line unr) lines bound
    /\ length lines = length its
    /\ g'.(file) = g.(file)
                   ++ map (at_level g.(level))
                        (concat (map (fun l => if ig then ["(not (nil? "; l; "))"]
                                               else [l]) lines))
    /\ g'.(level) = g.(level)
    /\ g'.(local_variable_stack) = (names ++ concat bound) :: rest
    /\ g'.(cleanup_statements) = g.(cleanup_statements).
Proof.
  induction its as [|it its IH]; intros ig unr names rest g g' Hs H.
  - injection H as <-. exists (@nil string), (@nil (list string)). simpl.
    rewrite !app_nil_r.
    split; [constructor|auto].
  - cbn [for_each] in H. apply bind_Done in H as ([] & g3 & H1 & H).
    rewrite (bind_run _ _ _ tt _ (if_print_Done _ _ _)) in H1.
    apply bind_Done in H1 as ([] & g2 & H2 & H3).
    rewrite if_print_Done in H3. injection H3 as <-.
    eapply (visit_NamedItem_line it unr names rest) in H2; [|exact Hs].
    destruct H2 as (line & b & Hl & F2 & L2 & S2 & C2).
    simpl in F2, L2, S2, C2.
    eapply (IH ig unr (names ++ b) rest) in H; [|exact S2].
    destruct H as (lines & bound & HF & Hlen & F3 & L3 & S3 & C3).
    simpl in F3, L3, S3, C3.
    exists (line :: lines), (b :: bound).
    split; [constructor; assumption|].
    split; [simpl; rewrite Hlen; reflexivity|].
    split; [|split; [congruence|split; [|congruence]]].
    + rewrite F3, F2, L2. destruct ig; simpl; rewrite <- !app_assoc; reflexivity.
    + rewrite S3. simpl. rewrite <- app_assoc. reflexivity.
Qed.

(** The text of an alternative: [value] is the action when there is one,
    and else the default one. *)
Lemma visit_Alt_layout node il ig g g' :
  visit_Alt node il ig g = Done tt g' ->
  let hi := invalid_visit_Alt node in
  let '(act, locations, unreachable) :=
    alt_action node ig hi g.(location_formatting) g.(unreachable_formatting) in
  exists lines bound value,
    Forall2 (item_line unreachable) lines bound
    /\ length lines = length (items node)
    /\ g'.(file) = g.(file)
                   ++ alt_lines g.(level) (has_cut node) il ig hi locations
                        g.(cleanup_statements) lines value
    /\ g'.(level) = g.(level)
    /\ g'.(local_variable_stack) = g.(local_variable_stack)
    /\ g'.(cleanup_statements) = g.(cleanup_statements)
    /\ (if truthy act then value = fmt_opt act
        else if ig then default_action true (concat bound) = Some value
        else if hi then value = fmt_opt act /\ unreachable = true
        else default_action false (concat bound) = Some value).
Proof.
  intros H hi. unfold visit_Alt in H. rewrite bind_get in H. fold hi in H.
  destruct (alt_action node ig hi (location_formatting g) (unreachable_formatting g))
    as [[act locations] unreachable].
  apply local_variable_context_Done in H as (g1 & H & ->).
  rewrite (bind_run _ _ _ tt _ (if_print_Done _ _ _)) in H.
  assert (Eopen : forall g0,
             (if il then print "(while (and " else print "(when (and ") g0
             = print (if il then "(while (and " else "(when (and ") g0)
    by (intros; destruct il; reflexivity).
  rewrite (bind_run _ _ _ tt _ (eq_trans (Eopen _) (print_Done _ _))) in H.
  apply bind_Done in H as ([] & gc & Hc & H).
  apply indent_Done in Hc as (gc' & Hc & ->).
  unfold visit_Alt_items in Hc.
  rewrite (bind_run _ _ _ tt _ (if_print_Done _ _ _)) in Hc.
  eapply visit_Alt_items_lines in Hc; [|reflexivity].
  destruct Hc as (lines & bound & HF & Hlen & Fc & Lc & Sc & Cc).
  simpl in Fc, Lc, Sc, Cc.
  rewrite (bind_run _ _ _ tt _ (print_Done _ _)) in H.
  apply bind_Done in H as ([] & ge & He & H).
  apply indent_Done in He as (ge' & He & ->).
  rewrite (bind_run _ _ _ tt _ (print_Done _ _)) in H.
  rewrite if_print_Done in H. injection H as <-.
  unfold print_action in He.
  apply bind_Done in He as (act' & g5 & Ha & He).
  assert (Hact : g5 = set_level (S (pred (level gc'))) (set_file
                        (file gc' ++ [at_level (pred (level gc')) ")"])
                        (set_level (pred (level gc')) gc'))
                 /\ exists value,
                      fmt_opt act' = value
                      /\ (if truthy act then value = fmt_opt act
                          else if ig then default_action true (concat bound) = Some value
                          else if hi then value = fmt_opt act /\ unreachable = true
                          else default_action false (concat bound) = Some value)).
  { destruct (truthy act) eqn:Et; cbn [negb] in Ha.
    - injection Ha as <- <-. split; [reflexivity|eauto].
    - destruct ig.
      + rewrite (bind_run _ _ _ _ _ (local_variable_names_Done _ _ _
                     (Sc : local_variable_stack
                             (set_level _ (set_file _ (set_level _ gc'))) = _))) in Ha.
        simpl in Ha.
        destruct (concat bound) as [|n0 [|n1 [|]]] eqn:Eb; try discriminate Ha.
        injection Ha as <- <-. split; [reflexivity|]. eexists. split; reflexivity.
      + destruct hi.
        * apply bind_Done in Ha as ([] & g6 & Hu & Ha).
          destruct unreachable; [|discriminate Hu]. injection Hu as <-.
          apply bind_Done in Ha as ([] & g7 & Hi & Ha).
          destruct act; [|discriminate Hi]. injection Hi as <-.
          injection Ha as <- <-. split; [reflexivity|eauto].
        * rewrite (bind_run _ _ _ _ _ (local_variable_names_Done _ _ _
                     (Sc : local_variable_stack
                             (set_level _ (set_file _ (set_level _ gc'))) = _))) in Ha.
          simpl in Ha.
          destruct (concat bound) as [|n0 [|n1 l]] eqn:Eb;
            injection Ha as <- <-; (split; [reflexivity|]);
            eexists; (split; reflexivity). }
  destruct Hact as (-> & value & Hv & Hvalue).
  exists lines, bound, value.
  assert (Hend : file ge' = (file gc' ++ [at_level (pred (level gc')) ")"])
                  ++ map (at_level (S (pred (level gc'))))
                       (action_lines locations il (cleanup_statements gc') value)
                 /\ level ge' = S (pred (level gc'))
                 /\ local_variable_stack ge' = local_variable_stack gc'
                 /\ cleanup_statements ge' = cleanup_statements gc').
  { apply bind_Done in He as ([] & g6 & Hl & He).
    assert (Hg6 : g6 = set_file
                         (file gc' ++ [at_level (pred (level gc')) ")"]
                          ++ map (at_level (S (pred (level gc'))))
                               (if locations
                                then ["(var tok (:get_last_non_whitespace_token (self :_tokenizer)))";
                                      "(var [end_lineno end_col_offset] (tok :end))"]
                                else []))
                         (set_level (S (pred (level gc')))
                            (set_level (pred (level gc')) gc'))).
    { destruct locations.
      - rewrite (bind_run _ _ _ tt _ (print_Done _ _)), print_Done in Hl.
        injection Hl as <-. simpl. rewrite <- !app_assoc. reflexivity.
      - injection Hl as <-. simpl. rewrite ?app_nil_r. reflexivity. }
    subst g6. unfold action_lines. rewrite map_app, !app_assoc.
    destruct il.
    - rewrite (bind_run _ _ _ tt _ (print_Done _ _)), print_Done in He.
      injection He as <-. rewrite Hv. simpl. rewrite <- !app_assoc. auto.
    - rewrite add_return_Done in He. injection He as <-. rewrite Hv. simpl.
      rewrite <- !app_assoc. auto. }
  destruct Hend as (Fe & Le & Se & Ce).
  split; [exact HF|]. split; [exact Hlen|].
  simpl. rewrite Le, Se, Sc, Ce, Fe, Cc, Fc, Lc. simpl.
  split; [|auto].
  unfold alt_lines, conj_lines.
  rewrite !map_app, <- !app_assoc.
  destruct (has_cut node), hi; simpl; rewrite <- ?app_assoc; reflexivity.
Qed.






(** ** The text of a rule: [add_return], [visit_Rule] *)

(** The alternatives of a right-hand side leave the level, the local names
    and the cleanup statements as they were. *)
Lemma for_each_visit_Alt_frame il ig al : forall g g',
  for_each (fun a => visit_Alt a il ig) al g = Done tt g' ->
  g'.(level) = g.(level)
  /\ g'.(local_variable_stack) = g.(local_variable_stack)
  /\ g'.(cleanup_statements) = g.(cleanup_statements)
  /\ exists L, g'.(file) = g.(file) ++ L.
Proof.
  induction al as [|a al IH]; intros g g' H.
  - injection H as <-. repeat split. exists []. symmetry. apply app_nil_r.
  - cbn [for_each] in H. apply bind_Done in H as ([] & g1 & H1 & H2).
    pose proof (visit_Alt_layout _ _ _ _ _ H1) as HL. cbv zeta in HL.
    destruct (alt_action a ig (invalid_visit_Alt a) (location_formatting g)
                (unreachable_formatting g)) as [[act loc] unr].
    destruct HL as (lines & bound & value & _ & _ & F1 & L1 & S1 & C1 & _).
    destruct (IH _ _ H2) as (L2 & S2 & C2 & L & F2).
    repeat split; try congruence.
    rewrite F2, F1, <- app_assoc. eexists. reflexivity.
Qed.

Lemma gen_visit_Rhs_frame node il ig g g' :
  gen_visit_Rhs node il ig g = Done tt g' ->
  g'.(level) = g.(level)
  /\ g'.(local_variable_stack) = g.(local_variable_stack)
  /\ g'.(cleanup_statements) = g.(cleanup_statements)
  /\ exists L, g'.(file) = g.(file) ++ L.
Proof.
  unfold gen_visit_Rhs. intros H. apply bind_Done in H as ([] & g0 & H0 & H).
  assert (g0 = g) as ->.
  { destruct il; [|injection H0 as <-; reflexivity].
    unfold assert in H0.
    destruct (_ =? _)%nat; [injection H0 as <-; reflexivity|discriminate]. }
  exact (for_each_visit_Alt_frame _ _ _ _ _ H).
Qed.

Lemma visit_Rule_body_layout node g g' :
  visit_Rule_body node g = Done tt g' ->
  g'.(level) = g.(level)
  /\ g'.(local_variable_stack) = g.(local_variable_stack)
  /\ g'.(cleanup_statements) = cleanup_of node g
  /\ exists body,
       g'.(file) = g.(file) ++ body
                   ++ map (at_level g.(level))
                        (cleanup_of node g
                         ++ ["(return " +:+ (if is_loop node then "children" else "None")
                             +:+ ")"]).
Proof.
  unfold visit_Rule_body. intros H.
  rewrite (bind_run _ _ _ tt _ (print_Done _ _)) in H.
  apply bind_Done in H as ([] & g1 & H1 & H).
  assert (Hg1 : g1.(level) = g.(level)
                /\ g1.(local_variable_stack) = g.(local_variable_stack)
                /\ g1.(cleanup_statements) = g.(cleanup_statements)
                /\ exists L, g1.(file) = g.(file) ++ L).
  { destruct (nullable node).
    - rewrite print_Done in H1. injection H1 as <-. simpl. repeat split.
      rewrite <- app_assoc. eexists. reflexivity.
    - injection H1 as <-. simpl. repeat split. eexists. reflexivity. }
  destruct Hg1 as (L1 & S1 & C1 & B1 & F1).
  apply bind_Done in H as ([] & g2 & H2 & H).
  assert (Hg2 : g2.(level) = g.(level)
                /\ g2.(local_variable_stack) = g.(local_variable_stack)
                /\ g2.(cleanup_statements) = cleanup_of node g
                /\ exists L, g2.(file) = g.(file) ++ L).
  { unfold cleanup_of. destruct (endswith (name node) "without_invalid").
    - rewrite (bind_run _ _ _ tt _ (print_Done _ _)) in H2.
      rewrite (bind_run _ _ _ tt _ (print_Done _ _)) in H2.
      injection H2 as <-. simpl. rewrite C1, F1, <- !app_assoc.
      repeat split; try assumption. eexists. reflexivity.
    - injection H2 as <-. rewrite app_nil_r. repeat split; try assumption.
      exists B1. exact F1. }
  clear H1 H2 L1 S1 C1 B1 F1. destruct Hg2 as (L2 & S2 & C2 & B2 & F2).
  rewrite (bind_run _ _ _ tt _ (print_Done _ _)) in H.
  rewrite (bind_run _ _ _ tt _ (if_prints_Done _ _ _ _)) in H.
  rewrite (bind_run _ _ _ tt _ (if_print_Done _ _ _)) in H.
  apply bind_Done in H as ([] & g3 & H3 & H).
  apply gen_visit_Rhs_frame in H3 as (L3 & S3 & C3 & B3 & F3).
  simpl in L3, S3, C3, F3.
  assert (Hr : add_return (if is_loop node then "children" else "None") g3 = Done tt g').
  { destruct (is_loop node); exact H. }
  rewrite add_return_Done in Hr. injection Hr as <-. simpl.
  rewrite L3, L2, S3, S2, C3, C2. repeat split.
  rewrite F3, F2, L2.
  match goal with
  | |- exists body, (((((_ ++ ?a) ++ ?b) ++ ?c) ++ ?d) ++ ?e) ++ _ = _ =>
      exists (a ++ b ++ c ++ d ++ e)
  end.
  rewrite <- !app_assoc. reflexivity.
Qed.

Lemma visit_Rule_layout node g g' :
  visit_Rule node g = Done tt g' ->
  g'.(level) = g.(level)
  /\ g'.(local_variable_stack) = g.(local_variable_stack)
  /\ g'.(cleanup_statements) = g.(cleanup_statements)
  /\ exists body,
       g'.(file) = g.(file)
                   ++ [at_level g.(level) (rule_definition_line node)]
                   ++ body
                   ++ map (at_level (S g.(level)))
                        (cleanup_of node g
                         ++ ["(return " +:+ (if is_loop node then "children" else "None")
                             +:+ ")"])
                   ++ [at_level g.(level) ")"].
Proof.
  unfold visit_Rule. intros H.
  rewrite (bind_run _ _ _ tt _ (print_Done _ _)) in H.
  apply bind_Done in H as ([] & g1 & H1 & H).
  apply indent_Done in H1 as (g0 & H1 & ->).
  apply visit_Rule_body_layout in H1 as (L1 & S1 & C1 & body & F1).
  simpl in L1, S1, C1, F1. unfold cleanup_of in C1, F1. simpl in C1, F1.
  rewrite (bind_run _ _ _ tt _ (print_Done _ _)) in H.
  assert (Hpop : g'.(level) = g.(level)
                 /\ g'.(local_variable_stack) = g.(local_variable_stack)
                 /\ g'.(cleanup_statements) = g.(cleanup_statements)
                 /\ g'.(file) = file g0 ++ [at_level g.(level) ")"]).
  { destruct (endswith (name node) "without_invalid").
    - injection H as <-. simpl. rewrite L1, S1, C1. simpl.
      rewrite removelast_last. auto.
    - injection H as <-. simpl. rewrite L1, S1, C1. simpl.
      rewrite app_nil_r. auto. }
  destruct Hpop as (Lp & Sp & Cp & Fp).
  repeat split; try assumption.
  exists body. rewrite Fp, F1. unfold cleanup_of. rewrite <- !app_assoc. reflexivity.
Qed.

(** X15.  When [visit_Rule] returns it has left the level, the cleanup
    statements and the local names as it found them, the statement pushed for
    a rule whose name ends with [without_invalid] being popped; and the text
    of the rule is its definition line, a body, and then, one level in, the
    cleanup statements in force (those it found and the pushed one) followed
    by the fallback return, of the children for a loop rule and of [None]
    otherwise, before the closing line. *)
Theorem visit_Rule_epilogue (node : Rule) (g g' : Gen) :
  visit_Rule node g = Done tt g' ->
  g'.(level) = g.(level)
  /\ g'.(cleanup_statements) = g.(cleanup_statements)
  /\ g'.(local_variable_stack) = g.(local_variable_stack)
  /\ exists body,
       g'.(file) = g.(file)
                   ++ [at_level g.(level) (rule_definition_line node)]
                   ++ body
                   ++ map (at_level (S g.(level)))
                        (g.(cleanup_statements)
                         ++ (if endswith node.(name) "without_invalid"
                             then ["(set self :call_invalid_rules _prev_call_invalid)"]
                             else [])
                         ++ ["(return " +:+ (if is_loop node then "children" else "None")
                             +:+ ")"])
                   ++ [at_level g.(level) ")"].
Proof.
  intros H. apply visit_Rule_layout in H as (L & S & C & body & F).
  repeat split; try assumption. exists body. rewrite F. unfold cleanup_of.
  rewrite <- !app_assoc. reflexivity.
Qed.

(** ** The text of a run: [generate] *)

Lemma emit_rule_layout kv g g' :
  emit_rule kv g = Done tt g' ->
  g'.(level) = g.(level)
  /\ exists chunk, rule_chunk (S g.(level)) kv chunk /\ g'.(file) = g.(file) ++ chunk.
Proof.
  intros H. unfold emit_rule in H.
  apply bind_Done in H as ([] & g1 & H1 & H).
  assert (Hg1 : exists t, g1 = set_todo t g).
  { unfold todo_del in H1. rewrite bind_get in H1.
    destruct (Dict.del (todo g) (fst kv)) as [t|]; [|discriminate].
    injection H1 as <-. exists t. reflexivity. }
  destruct Hg1 as [t ->].
  rewrite (bind_run _ _ _ tt _ (print_empty_Done _)) in H.
  apply indent_Done in H as (g2 & H & ->).
  apply visit_Rule_layout in H as (L & _ & _ & body & F).
  simpl in L, F. simpl. rewrite L. split; [reflexivity|].
  rewrite F, <- !app_assoc. simpl.
  match goal with
  | |- exists chunk, _ /\ _ ++ ?c = _ => exists c
  end.
  split; [|reflexivity].
  match goal with
  | |- rule_chunk _ _ (_ :: _ :: ?b ++ ?m ++ [_]) => exists (b ++ m)
  end.
  rewrite <- app_assoc. reflexivity.
Qed.

Lemma round_layout Q : forall g g',
  for_each emit_rule Q g = Done tt g' ->
  g'.(level) = g.(level)
  /\ exists chunks,
       Forall2 (rule_chunk (S g.(level))) Q chunks
       /\ g'.(file) = g.(file) ++ concat chunks.
Proof.
  induction Q as [|kv Q IH]; intros g g' H.
  - injection H as <-. split; [reflexivity|]. exists []. simpl.
    rewrite app_nil_r. split; [constructor|reflexivity].
  - cbn [for_each] in H. apply bind_Done in H as ([] & g1 & H1 & H2).
    apply emit_rule_layout in H1 as (L1 & chunk & Hc & F1).
    apply IH in H2 as (L2 & chunks & Hcs & F2).
    split; [congruence|]. exists (chunk :: chunks).
    split; [constructor; [exact Hc|rewrite <- L1; exact Hcs]|].
    rewrite F2, F1. simpl. rewrite <- app_assoc. reflexivity.
Qed.

Lemma drain_layout n : forall g g',
  drain n g = Some (Done tt g') ->
  g'.(level) = g.(level)
  /\ exists chunks,
       Forall2 (rule_chunk (S g.(level))) (drain_log n g) chunks
       /\ g'.(file) = g.(file) ++ concat chunks.
Proof.
  assert (Hnil : forall fuel g g', todo g = [] -> drain fuel g = Some (Done tt g') ->
            g'.(level) = g.(level)
            /\ exists chunks,
                 Forall2 (rule_chunk (S g.(level))) (drain_log fuel g) chunks
                 /\ g'.(file) = g.(file) ++ concat chunks).
  { intros fuel g g' Et H. rewrite (drain_nil _ _ Et) in H. injection H as <-.
    rewrite (drain_log_nil _ _ Et). split; [reflexivity|].
    exists []. simpl. rewrite app_nil_r. split; [constructor|reflexivity]. }
  induction n as [|n IH]; intros g g' H;
    destruct (todo g) as [|kv t] eqn:Et; try (apply Hnil; assumption).
  - rewrite (drain_0_cons _ _ _ Et) in H. discriminate.
  - rewrite (drain_S_cons _ _ _ _ Et) in H.
    rewrite (drain_log_S_cons _ _ _ _ Et).
    destruct (for_each emit_rule (kv :: t) g) as [[] g1|e g1] eqn:Hr; [|discriminate].
    apply round_layout in Hr as (L1 & chunks1 & Hc1 & F1).
    apply IH in H as (L2 & chunks2 & Hc2 & F2).
    split; [congruence|]. exists (chunks1 ++ chunks2).
    split; [apply Forall2_app; [exact Hc1|rewrite <- L1; exact Hc2]|].
    rewrite F2, F1, concat_app, <- app_assoc. reflexivity.
Qed.

Lemma metas_get_Done key default g :
  metas_get key default g
  = Done (match g.(grammar).(metas) !! key with Some v => v | None => default end) g.
Proof.
  unfold metas_get. rewrite bind_get. destruct (_ !! key); reflexivity.
Qed.

(** Before the loop, [generate] writes at most the header and the subheader,
    and then the comment and the opening of the parser definition. *)
Lemma generate_head_layout f g cls g1 :
  generate_head f g = Done cls g1 ->
  g1.(level) = g.(level)
  /\ exists pre,
       length pre <= 2
       /\ g1.(file) = g.(file) ++ pre
                      ++ [at_level g.(level)
                            "# Keywords and soft keywords are listed at the end of the parser definition.";
                          at_level g.(level) ("(defparser " +:+ fmt_opt cls)].
Proof.
  unfold generate_head. intros H.
  rewrite (bind_run _ _ _ _ _ (metas_get_Done _ _ _)) in H.
  apply bind_Done in H as ([] & ga & Ha & H).
  assert (Hga : ga.(level) = g.(level) /\ ga.(grammar) = g.(grammar)
                /\ exists pa, length pa <= 1 /\ ga.(file) = g.(file) ++ pa).
  { destruct (match metas (grammar g) !! "header" with
              | Some v => v
              | None => Some MODULE_PREFIX
              end) as [h|].
    - apply bind_Done in Ha as (t & gt & Ht & Ha).
      unfold lift in Ht. destruct (str_format _ _ _); [|discriminate].
      injection Ht as <- <-. rewrite print_Done in Ha. injection Ha as <-.
      simpl. repeat split. eexists [_]. split; [simpl; lia|reflexivity].
    - injection Ha as <-. repeat split. exists []. rewrite app_nil_r. auto. }
  destruct Hga as (La & Ga & pa & Hpa & Fa). clear Ha.
  rewrite (bind_run _ _ _ _ _ (metas_get_Done _ _ _)) in H.
  rewrite (bind_run _ _ _ tt _ (if_print_Done _ _ _)) in H.
  rewrite (bind_run _ _ _ _ _ (metas_get_Done _ _ _)) in H.
  rewrite (bind_run _ _ _ tt _ (print_Done _ _)) in H.
  rewrite (bind_run _ _ _ tt _ (print_Done _ _)) in H. injection H as <- <-.
  simpl. rewrite La. split; [reflexivity|].
  rewrite Fa.
  match goal with
  | |- exists pre, _ /\ (((_ ++ ?a) ++ ?b) ++ _) ++ _ = _ => exists (a ++ b)
  end.
  split.
  - rewrite length_app, length_map.
    match goal with |- context [if ?b then _ else _] => destruct b end; simpl; lia.
  - rewrite <- !app_assoc. reflexivity.
Qed.

(** After the loop, [generate] writes an empty line, the two tables and at
    most the trailer, and leaves the keyword sets as they were. *)
Lemma generate_tail_layout cls g g' :
  generate_tail cls g = Done tt g' ->
  g'.(keywords) = g.(keywords) /\ g'.(soft_keywords) = g.(soft_keywords)
  /\ exists post,
       length post <= 1
       /\ g'.(file) = g.(file)
                      ++ [EmptyString;
                          at_level (S g.(level))
                            ("(def KEYWORDS " +:+ repr_tuple (sorted g.(keywords)) +:+ ")");
                          at_level (S g.(level))
                            ("(def SOFT_KEYWORDS "
                             +:+ repr_tuple (sorted g.(soft_keywords)) +:+ ")")]
                      ++ post.
Proof.
  unfold generate_tail. intros H.
  rewrite (bind_run _ _ _ tt _ (print_empty_Done _)) in H.
  apply bind_Done in H as ([] & g1 & H1 & H).
  apply indent_Done in H1 as (g0 & H1 & ->).
  rewrite bind_get in H1.
  rewrite (bind_run _ _ _ tt _ (print_Done _ _)), print_Done in H1.
  injection H1 as <-.
  apply bind_Done in H as (d & g2 & H2 & H).
  unfold lift in H2. destruct (str_format _ _ _); [|discriminate].
  injection H2 as <- <-.
  rewrite (bind_run _ _ _ _ _ (metas_get_Done _ _ _)) in H.
  match type of H with
  | match ?x with _ => _ end _ = _ => destruct x as [tr|]
  end.
  - rewrite print_Done in H. injection H as <-. simpl. repeat split.
    eexists [_]. split; [simpl; lia|]. rewrite <- !app_assoc. reflexivity.
  - injection H as <-. simpl. repeat split.
    exists []. split; [simpl; lia|]. rewrite <- !app_assoc. reflexivity.
Qed.

(** X16.  The text of a run that ends well is, after what the file held: at
    most two lines (the header, the subheader), the comment on the keyword
    tables, the opening of the parser definition with the class name, then
    one chunk for each rule the loop took from the worklist, in the order it
    took them, each chunk being an empty line, the rule's definition line one
    level in, a body and the closing line, then an empty line, the two tables
    made from the final keyword sets, and at most one line, the trailer. *)
Theorem generate_layout (n : nat) (filename : string) (g g' : Gen) :
  generate n filename g = Some (Done tt g') ->
  exists cls g1 pre chunks post,
    generate_head filename g = Done cls g1
    /\ Forall2 (rule_chunk (S g.(level))) (drain_log n g1) chunks
    /\ length pre <= 2 /\ length post <= 1
    /\ g'.(file) =
       g.(file) ++ pre
       ++ [at_level g.(level)
             "# Keywords and soft keywords are listed at the end of the parser definition.";
           at_level g.(level) ("(defparser " +:+ fmt_opt cls)]
       ++ concat chunks
       ++ [EmptyString;
           at_level (S g.(level))
             ("(def KEYWORDS " +:+ repr_tuple (sorted g'.(keywords)) +:+ ")");
           at_level (S g.(level))
             ("(def SOFT_KEYWORDS " +:+ repr_tuple (sorted g'.(soft_keywords)) +:+ ")")]
       ++ post.
Proof.
  intros H. unfold generate in H.
  destruct (generate_head filename g) as [cls g1|e g1] eqn:Hh; [|discriminate].
  destruct (drain n g1) as [[[] g2|e g2]|] eqn:Hd; [|discriminate..].
  injection H as H.
  apply generate_head_layout in Hh as (L1 & pre & Hpre & F1).
  apply drain_layout in Hd as (L2 & chunks & Hc & F2).
  apply generate_tail_layout in H as (K & SK & post & Hpost & F3).
  exists cls, g1, pre, chunks, post.
  split; [reflexivity|]. split; [rewrite <- L1; exact Hc|].
  split; [exact Hpre|]. split; [exact Hpost|].
  rewrite F3, F2, F1, K, SK, L2, L1, <- !app_assoc. reflexivity.
Qed.

End Layout.

(** ** The files of a build: [build_generator], [build] *)

Section BuildFiles.
Context {ext : Externals}.

(** X17.  A build touches the output file only, and what it leaves there
    tells how far it went: when the grammar does not parse the files are as
    they were; when making the generator raises, the output file, already
    opened for writing, is left empty; otherwise it holds the lines the
    generator wrote, all of them when the build ends well and those written
    before the exception when generation raises.  What the file held before
    is never kept. *)
Theorem build_output_file {P T : Type} (b : Builder)
    (parsed : result (Grammar * P * T)) (fuel : nat) (fs fs' : Files) (r : built) :
  build b parsed fuel fs = Some (r, fs') ->
  (forall path, path <> b.(output_file) -> fs' !! path = fs !! path)
  /\ match parsed with
     | Raise e => r = BuildFail e /\ fs' = fs
     | Ok (gr, _, _) =>
         exists lines,
           fs' !! b.(output_file) = Some lines
           /\ match _create_generator b gr with
              | Raise e => r = BuildFail e /\ lines = []
              | Ok gen =>
                  run_generate gen fuel b.(grammar_file)
                  = Some (lines,
                          match r with Built => None | BuildFail e => Some e end)
              end
     end.
Proof.
  unfold build. destruct parsed as [[[gr pr] tk]|e].
  - unfold build_generator.
    destruct (_create_generator b gr) as [gen|e].
    + destruct (run_generate gen fuel (grammar_file b)) as [[lines [e|]]|];
        [| |discriminate]; intros [= <- <-];
        (split; [intros p Hp; rewrite !lookup_insert_ne by congruence; reflexivity|]);
        exists lines; rewrite lookup_insert_eq; auto.
    + intros [= <- <-].
      split; [intros p Hp; rewrite lookup_insert_ne by congruence; reflexivity|].
      exists []. rewrite lookup_insert_eq. auto.
  - intros [= <- <-]. auto.
Qed.
End BuildFiles.

(** *** The properties on the reference grammars *)




Lemma visit_Rule_epilogue_witness :
  exists g',
    visit_Rule (new_Rule "x_without_invalid" None
                  (mkRhs (Parsed 1) [mkAlt [mkNamedItem None (StringLeaf "'c'")] None]))
      (Reference.generator_of Reference.cut_without_invalid) = Done tt g'
    /\ g'.(cleanup_statements)
       = (Reference.generator_of Reference.cut_without_invalid).(cleanup_statements).
Proof.
  destruct (visit_Rule (new_Rule "x_without_invalid" None
                          (mkRhs (Parsed 1)
                             [mkAlt [mkNamedItem None (StringLeaf "'c'")] None]))
              (Reference.generator_of Reference.cut_without_invalid))
    as [[] g'|e g'] eqn:E; [|vm_compute in E; discriminate].
  destruct (@visit_Rule_epilogue Reference.externals
              (new_Rule "x_without_invalid" None
                 (mkRhs (Parsed 1)
                    [mkAlt [mkNamedItem None (StringLeaf "'c'")] None]))
              (Reference.generator_of Reference.cut_without_invalid) g' E)
    as (_ & H & _).
  exists g'. auto.
Defined.

Lemma generate_layout_witness :
  exists g' cls g1 chunks,
    generate 3 "g.gram" (Reference.generator_of Reference.repeat_group)
    = Some (Done tt g')
    /\ generate_head "g.gram" (Reference.generator_of Reference.repeat_group)
       = Done cls g1
    /\ Forall2 (rule_chunk 1) (drain_log 3 g1) chunks.
Proof.
  destruct (generate 3 "g.gram" (Reference.generator_of Reference.repeat_group))
    as [[[] g'|e g']|] eqn:E; [|vm_compute in E; discriminate..].
  destruct (@generate_layout Reference.externals 3 "g.gram"
              (Reference.generator_of Reference.repeat_group) g' E)
    as (cls & g1 & pre & chunks & post & H1 & H2 & _).
  exists g', cls, g1, chunks. auto.
Defined.

Lemma build_output_file_witness :
  exists r fs',
    build (Builder_init JanetBuilder "g.gram" "out.janet" None)
      (Ok (Reference.name_plus_number, tt, tt)) 5 {["out.janet" := ["old"]]}
    = Some (r, fs')
    /\ exists lines, fs' !! "out.janet" = Some lines.
Proof.
  destruct (build (Builder_init JanetBuilder "g.gram" "out.janet" None)
              (Ok (Reference.name_plus_number, tt, tt)) 5 {["out.janet" := ["old"]]})
    as [[r fs']|] eqn:E; [|vm_compute in E; discriminate].
  destruct (@build_output_file Reference.externals unit unit
              (Builder_init JanetBuilder "g.gram" "out.janet" None)
              (Ok (Reference.name_plus_number, tt, tt)) 5
              {["out.janet" := ["old"]]} fs' r E)
    as (_ & lines & H & _).
  exists r, fs'. split; [reflexivity|]. exists lines. exact H.
Defined.

(** ** The deletions of the loop: [generate] *)

Section Deletions.
Context {ext : Externals}.

(** X18.  The loop of [generate] deletes from the worklist while it walks a
    snapshot of it, and the deletion never raises: over a worklist that
    starts with the snapshot and whose names are pairwise distinct (the
    invariant of the loop, which the constructor establishes), once any
    part of the snapshot is emitted the next rule is the first of the
    worklist, so it is there to be deleted; and the invariant holds again
    when the snapshot is done, for the next round. *)
Theorem snapshot_deletions_succeed
    (E : list string) (Q N : list (string * Rule)) (g : Gen) :
  g.(todo) = Q ++ N ->
  loop_inv E g ->
  (forall Q1 kv Q2 g1,
     Q = Q1 ++ kv :: Q2 ->
     for_each emit_rule Q1 g = Done tt g1 ->
     exists t,
       g1.(todo) = kv :: t
       /\ todo_del (fst kv) g1 = Done tt (set_todo t g1))
  /\ forall g',
       for_each emit_rule Q g = Done tt g' ->
       loop_inv (E ++ Dict.keys Q) g'.
Proof.
  intros Et Hinv. split.
  - intros Q1 [k r] Q2 g1 -> H1.
    destruct (round_emits Q1 E ((k, r) :: Q2 ++ N) g g1) as (N' & E1 & _ & _);
      [rewrite Et, <- app_assoc; reflexivity|exact Hinv|exact H1|].
    exists ((Q2 ++ N) ++ N'). split; [exact E1|].
    apply (todo_del_head k r). exact E1.
  - intros g' H.
    destruct (round_emits Q E N g g' Et Hinv H) as (N' & _ & Hinv' & _).
    exact Hinv'.
Qed.
End Deletions.

Lemma snapshot_deletions_succeed_witness :
  exists t,
    (Reference.generator_of Reference.cut_without_invalid).(todo)
    = ("start", new_Rule "start" None
                  (mkRhs (Parsed 0)
                     [mkAlt [mkNamedItem None (NameLeaf "x_without_invalid")] None]))
      :: t
    /\ todo_del "start" (Reference.generator_of Reference.cut_without_invalid)
       = Done tt (set_todo t (Reference.generator_of Reference.cut_without_invalid)).
Proof.
  destruct (@snapshot_deletions_succeed Reference.externals []
              (Reference.generator_of Reference.cut_without_invalid).(todo) []
              (Reference.generator_of Reference.cut_without_invalid))
    as [H _].
  - symmetry. apply app_nil_r.
  - apply (JanetParserGenerator_loop_inv Reference.cut_without_invalid None None).
    reflexivity.
  - refine (H [] _ _ _ eq_refl eq_refl).
Defined.
